(** * Holiday-card rendering core

    A shallow embedding of the rendering and layout core of the
    [holiday_card] package: the SVG path parser
    ([utils/svg_parser.py]), the text measurement and fitting utilities
    ([core/text_utils.py], [renderers/reportlab_renderer.py]), the colour
    value object ([core/models.py]), the decorative-element expansion
    ([core/decorative.py]) and the gradient endpoint geometry
    ([utils/gradient_utils.py]).

    Conventions of the embedding.
    - Python [int] is [Z].  Python [float] is idealised as an exact number:
      [Q] where the code only multiplies, adds and compares, [R] where it
      calls [math.cos], [math.sin] and [math.sqrt].  Rounding is modelled
      in one place, the rotation of the decorative expansion (a sum and
      its remainder [% 360]), where it decides whether the rotation
      stays below 360 ([PyFloat]); infinities and NaN are outside the
      model.
    - Python [str] is [string]; characters are ASCII.
    - A raised exception is a value of [exn]; a function that can raise
      returns a [result].
    - A loop whose recursion is not structural carries an explicit fuel;
      each such loop comes with the fuel the wrapper gives it and a lemma
      that this fuel lets the loop reach its exit test. *)

From Stdlib Require Import ZArith QArith Qround Qabs Qpower Reals Lra Lqa Lia.
From Stdlib Require Import List String Ascii Bool DecimalString.
From stdpp Require Import gmap strings.
Import ListNotations.

(** ** Exceptions and results *)

Inductive exn : Type :=
| ValueError (msg : string)
| ZeroDivisionError
| ValidationError (field : string)
| KeyError (key : string)
| TypeError
| RuntimeError (msg : string)
| AttributeError (name : string).

Inductive result (A : Type) : Type :=
| Ok (a : A)
| Raise (e : exn).

Arguments Ok {A} a.
Arguments Raise {A} e.

Definition bind {A B : Type} (r : result A) (k : A -> result B) : result B :=
  match r with
  | Ok a => k a
  | Raise e => Raise e
  end.

Notation "'let*' x ':=' r 'in' k" := (bind r (fun x => k))
  (at level 10, x name, r at level 100, k at level 200).

Definition is_Ok {A : Type} (r : result A) : bool :=
  match r with Ok _ => true | Raise _ => false end.

(** ** Python string primitives *)

Module PyStr.

Local Open Scope string_scope.

(** [str.isspace] on the ASCII range: TAB, LF, VT, FF, CR, FS, GS, RS, US
    and SPACE. *)
Definition is_space (c : ascii) : bool :=
  let n := nat_of_ascii c in
  ((9 <=? n)%nat && (n <=? 13)%nat) || ((28 <=? n)%nat && (n <=? 32)%nat).

Definition is_digit (c : ascii) : bool :=
  let n := nat_of_ascii c in (48 <=? n)%nat && (n <=? 57)%nat.

Definition is_empty (s : string) : bool :=
  match s with EmptyString => true | String _ _ => false end.

(** Truthiness of a [str]: non-empty. *)
Definition truthy (s : string) : bool := negb (is_empty s).

Fixpoint mem_char (c : ascii) (chars : string) : bool :=
  match chars with
  | EmptyString => false
  | String d r => Ascii.eqb c d || mem_char c r
  end.

(** [s.lstrip(chars)], [s.rstrip(chars)] and [s.strip(chars)] for a
    character predicate. *)
Fixpoint lstrip_by (p : ascii -> bool) (s : string) : string :=
  match s with
  | EmptyString => EmptyString
  | String c r => if p c then lstrip_by p r else s
  end.

Fixpoint rstrip_by (p : ascii -> bool) (s : string) : string :=
  match s with
  | EmptyString => EmptyString
  | String c r =>
      let r' := rstrip_by p r in
      if is_empty r' && p c then EmptyString else String c r'
  end.

Definition strip_by (p : ascii -> bool) (s : string) : string :=
  rstrip_by p (lstrip_by p s).

Definition lstrip : string -> string := lstrip_by is_space.
Definition rstrip : string -> string := rstrip_by is_space.
Definition strip : string -> string := strip_by is_space.
Definition lstrip_chars (chars : string) : string -> string :=
  lstrip_by (fun c => mem_char c chars).
Definition strip_chars (chars : string) : string -> string :=
  strip_by (fun c => mem_char c chars).

Definition startswith (s : string) (c : ascii) : bool :=
  match s with
  | String d _ => Ascii.eqb c d
  | EmptyString => false
  end.

Fixpoint endswith (s : string) (c : ascii) : bool :=
  match s with
  | EmptyString => false
  | String d EmptyString => Ascii.eqb c d
  | String _ r => endswith r c
  end.

(** [s.endswith(suffix)]. *)
Definition endswith_str (s suffix : string) : bool :=
  let n := String.length s in
  let k := String.length suffix in
  (k <=? n)%nat && String.eqb (String.substring (n - k) k s) suffix.

(** [s[:-1]]: the string without its last character. *)
Fixpoint drop_last (s : string) : string :=
  match s with
  | EmptyString => EmptyString
  | String _ EmptyString => EmptyString
  | String c r => String c (drop_last r)
  end.

(** [s[a:b]] for [0 <= a <= b]. *)
Definition slice (s : string) (a b : nat) : string :=
  String.substring a (b - a) s.

(** [s.split()]: the maximal runs of non-whitespace characters.  [cur] is
    the word being read. *)
Fixpoint split_acc (cur : string) (s : string) : list string :=
  match s with
  | EmptyString => if is_empty cur then [] else [cur]
  | String c r =>
      if is_space c
      then (if is_empty cur then split_acc EmptyString r
            else cur :: split_acc EmptyString r)
      else split_acc (cur ++ String c EmptyString) r
  end.

Definition split (s : string) : list string := split_acc EmptyString s.

(** [sep.join(parts)]. *)
Fixpoint join (sep : string) (parts : list string) : string :=
  match parts with
  | [] => EmptyString
  | [p] => p
  | p :: rest => p ++ sep ++ join sep rest
  end.

Definition lower_char (c : ascii) : ascii :=
  let n := nat_of_ascii c in
  if (65 <=? n)%nat && (n <=? 90)%nat then ascii_of_nat (n + 32) else c.

Fixpoint lower (s : string) : string :=
  match s with
  | EmptyString => EmptyString
  | String c r => String (lower_char c) (lower r)
  end.

(** [str(n)] for a non-negative integer. *)
Definition str_of_nat (n : nat) : string :=
  NilZero.string_of_uint (Nat.to_uint n).

End PyStr.

(** ** SVG path parser ([utils/svg_parser.py]) *)

Module SvgParser.

Import PyStr.
Local Open Scope string_scope.

Inductive SVGCommand : Type :=
| MOVE | MOVE_REL
| LINE | LINE_REL
| HORIZONTAL | HORIZONTAL_REL
| VERTICAL | VERTICAL_REL
| CUBIC_BEZIER | CUBIC_BEZIER_REL
| CUBIC_BEZIER_SMOOTH | CUBIC_BEZIER_SMOOTH_REL
| QUADRATIC_BEZIER | QUADRATIC_BEZIER_REL
| QUADRATIC_BEZIER_SMOOTH | QUADRATIC_BEZIER_SMOOTH_REL
| ARC | ARC_REL
| CLOSE | CLOSE_REL.

(** The value of each enumeration member. *)
Definition SVGCommand_value (c : SVGCommand) : string :=
  match c with
  | MOVE => "M" | MOVE_REL => "m"
  | LINE => "L" | LINE_REL => "l"
  | HORIZONTAL => "H" | HORIZONTAL_REL => "h"
  | VERTICAL => "V" | VERTICAL_REL => "v"
  | CUBIC_BEZIER => "C" | CUBIC_BEZIER_REL => "c"
  | CUBIC_BEZIER_SMOOTH => "S" | CUBIC_BEZIER_SMOOTH_REL => "s"
  | QUADRATIC_BEZIER => "Q" | QUADRATIC_BEZIER_REL => "q"
  | QUADRATIC_BEZIER_SMOOTH => "T" | QUADRATIC_BEZIER_SMOOTH_REL => "t"
  | ARC => "A" | ARC_REL => "a"
  | CLOSE => "Z" | CLOSE_REL => "z"
  end.

Definition all_commands : list SVGCommand :=
  [MOVE; MOVE_REL; LINE; LINE_REL; HORIZONTAL; HORIZONTAL_REL;
   VERTICAL; VERTICAL_REL; CUBIC_BEZIER; CUBIC_BEZIER_REL;
   CUBIC_BEZIER_SMOOTH; CUBIC_BEZIER_SMOOTH_REL;
   QUADRATIC_BEZIER; QUADRATIC_BEZIER_REL;
   QUADRATIC_BEZIER_SMOOTH; QUADRATIC_BEZIER_SMOOTH_REL;
   ARC; ARC_REL; CLOSE; CLOSE_REL].

(** [SVGCommand(command_char)]: the member with that value, if any. *)
Definition SVGCommand_of_value (s : string) : option SVGCommand :=
  List.find (fun c => String.eqb (SVGCommand_value c) s) all_commands.

Record PathCommand : Type := mkPathCommand {
  command : SVGCommand;
  params : list Q
}.

(** The character class of [COMMAND_PATTERN]. *)
Definition command_letters : string := "MmLlHhVvCcSsQqTtAaZz".

Definition is_command_letter (c : ascii) : bool := mem_char c command_letters.

(** [COMMAND_PATTERN.split(path_data)]: the pattern has one capturing
    group, so the result alternates text, letter, text, ..., text. *)
Fixpoint COMMAND_PATTERN_split (s : string) : list string :=
  match s with
  | EmptyString => [EmptyString]
  | String c r =>
      if is_command_letter c
      then EmptyString :: String c EmptyString :: COMMAND_PATTERN_split r
      else match COMMAND_PATTERN_split r with
           | t :: rest => String c t :: rest
           | [] => [String c EmptyString]
           end
  end.

Definition _is_command (s : string) : bool :=
  match s with
  | String c EmptyString => is_command_letter c
  | _ => false
  end.

(** *** [NUMBER_PATTERN]

    [[-+]?[0-9]*\.?[0-9]+(?:[eE][-+]?[0-9]+)?], matched at the head of a
    string the way a backtracking matcher does. *)

Fixpoint take_digits (s : string) : string * string :=
  match s with
  | EmptyString => (EmptyString, EmptyString)
  | String c r =>
      if is_digit c
      then let '(d, rest) := take_digits r in (String c d, rest)
      else (EmptyString, s)
  end.

Definition match_sign (s : string) : option ascii * string :=
  match s with
  | String c r =>
      if Ascii.eqb c "-" || Ascii.eqb c "+" then (Some c, r) else (None, s)
  | EmptyString => (None, EmptyString)
  end.

(** [[0-9]*\.?[0-9]+]: integer digits, fraction digits and the rest.  When
    no digit follows the point, the matcher backtracks to the integer
    digits alone. *)
Definition match_mantissa (s : string) : option (string * string * string) :=
  let '(d1, r1) := take_digits s in
  let integer_only :=
    if is_empty d1 then None else Some (d1, EmptyString, r1) in
  match r1 with
  | String c r2 =>
      if Ascii.eqb c "."
      then let '(d2, r3) := take_digits r2 in
           if is_empty d2 then integer_only else Some (d1, d2, r3)
      else integer_only
  | EmptyString => integer_only
  end.

Fixpoint Z_of_digits (acc : Z) (s : string) : Z :=
  match s with
  | EmptyString => acc
  | String c r => Z_of_digits (10 * acc + (Z.of_nat (nat_of_ascii c) - 48)) r
  end.

Definition apply_sign (sg : option ascii) (z : Z) : Z :=
  match sg with
  | Some c => if Ascii.eqb c "-" then (- z)%Z else z
  | None => z
  end.

(** [(?:[eE][-+]?[0-9]+)?]: the exponent and the rest, when present. *)
Definition match_exponent (s : string) : option (Z * string) :=
  match s with
  | String c r =>
      if Ascii.eqb c "e" || Ascii.eqb c "E"
      then let '(sg, r1) := match_sign r in
           let '(d, r2) := take_digits r1 in
           if is_empty d then None else Some (apply_sign sg (Z_of_digits 0 d), r2)
      else None
  | EmptyString => None
  end.

(** [float(m)] of a matched literal, as an exact rational. *)
Definition float_of_literal (sg : option ascii) (d1 d2 : string) (e : Z) : Q :=
  Qred (inject_Z (apply_sign sg (Z_of_digits 0 (d1 ++ d2)))
        * Qpower (10 # 1) (e - Z.of_nat (String.length d2))).

(** One match of [NUMBER_PATTERN] at the head of [s]: the value and the
    rest of the string. *)
Definition match_number (s : string) : option (Q * string) :=
  let '(sg, r0) := match_sign s in
  match match_mantissa r0 with
  | Some (d1, d2, r1) =>
      match match_exponent r1 with
      | Some (e, r2) => Some (float_of_literal sg d1 d2 e, r2)
      | None => Some (float_of_literal sg d1 d2 0, r1)
      end
  | None => None
  end.

(** [NUMBER_PATTERN.findall]: leftmost non-overlapping matches.  [skip]
    counts the characters of the current match still to be passed. *)
Fixpoint findall_numbers (skip : nat) (s : string) : list Q :=
  match s with
  | EmptyString => []
  | String _ r =>
      match skip with
      | S k => findall_numbers k r
      | O =>
          match match_number s with
          | Some (v, rest) =>
              v :: findall_numbers (String.length s - String.length rest - 1) r
          | None => findall_numbers 0 r
          end
      end
  end.

Definition _parse_numbers (param_str : string) : list Q :=
  findall_numbers 0 param_str.

Definition _get_expected_param_count (c : SVGCommand) : option Z :=
  match c with
  | MOVE | MOVE_REL => Some 2
  | LINE | LINE_REL => Some 2
  | HORIZONTAL | HORIZONTAL_REL => Some 1
  | VERTICAL | VERTICAL_REL => Some 1
  | CUBIC_BEZIER | CUBIC_BEZIER_REL => Some 6
  | CUBIC_BEZIER_SMOOTH | CUBIC_BEZIER_SMOOTH_REL => Some 4
  | QUADRATIC_BEZIER | QUADRATIC_BEZIER_REL => Some 4
  | QUADRATIC_BEZIER_SMOOTH | QUADRATIC_BEZIER_SMOOTH_REL => Some 2
  | ARC | ARC_REL => Some 7
  | CLOSE | CLOSE_REL => Some 0
  end%Z.

(** Python's [a % b] on integers. *)
Definition py_mod (a b : Z) : result Z :=
  if (b =? 0)%Z then Raise ZeroDivisionError else Ok (a mod b)%Z.

Definition _parse_command (command_char : string) (params : list Q)
  : result PathCommand :=
  match SVGCommand_of_value command_char with
  | None => Raise (ValueError ("Unknown SVG command: " ++ command_char))
  | Some command =>
      let len := Z.of_nat (List.length params) in
      match _get_expected_param_count command with
      | Some expected_params =>
          if negb (len =? expected_params)%Z
          then
            let* m := py_mod len expected_params in
            if negb (m =? 0)%Z
            then Raise (ValueError
                   ("Command " ++ command_char ++ " expects "
                    ++ str_of_nat (Z.to_nat expected_params)
                    ++ " parameters, got " ++ str_of_nat (List.length params)))
            else Ok (mkPathCommand command params)
          else Ok (mkPathCommand command params)
      | None => Ok (mkPathCommand command params)
      end
  end.

(** The state of the loop of [parse]: the commands appended so far and the
    warnings handed to the logger. *)
Record parse_state : Type := mkParseState {
  commands : list PathCommand;
  warnings : list string
}.

Definition exn_message (e : exn) : string :=
  match e with
  | ValueError m => m
  | RuntimeError m => m
  | ValidationError f => f
  | KeyError k => k
  | ZeroDivisionError => "integer modulo by zero"
  | TypeError => "unsupported operand"
  | AttributeError a => a
  end.

(** The [try ... except ValueError] block of the loop body. *)
Definition try_parse_command (command_char : string) (params : list Q)
    (st : parse_state) : result parse_state :=
  match _parse_command command_char params with
  | Ok cmd => Ok (mkParseState (st.(commands) ++ [cmd]) st.(warnings))
  | Raise (ValueError m) =>
      Ok (mkParseState st.(commands)
            (st.(warnings)
             ++ ["Skipping unsupported SVG command '" ++ command_char
                 ++ "': " ++ m]))
  | Raise e => Raise e
  end.

(** The [while i < len(segments)] loop, on the segments from index [i]
    on. *)
Fixpoint parse_loop (segments : list string) (st : parse_state)
  : result parse_state :=
  match segments with
  | [] => Ok st
  | seg :: rest =>
      if negb (_is_command seg)
      then Raise (ValueError ("Expected command, got: " ++ seg))
      else
        match rest with
        | p :: rest' =>
            if negb (_is_command p)
            then match try_parse_command seg (_parse_numbers p) st with
                 | Ok st' => parse_loop rest' st'
                 | Raise e => Raise e
                 end
            else match try_parse_command seg [] st with
                 | Ok st' => parse_loop rest st'
                 | Raise e => Raise e
                 end
        | [] => try_parse_command seg [] st
        end
  end.

(** [segments = [s.strip() for s in segments if s.strip()]]. *)
Definition strip_segments (segments : list string) : list string :=
  List.map strip (List.filter (fun s => truthy (strip s)) segments).

Definition segments_of (path_data : string) : list string :=
  strip_segments (COMMAND_PATTERN_split path_data).

(** [parse], with the warnings it logs on the way. *)
Definition parse_logged (path_data : string) : result parse_state :=
  let path_data := strip path_data in
  if negb (truthy path_data)
  then Raise (ValueError "SVG path data cannot be empty")
  else parse_loop (segments_of path_data) (mkParseState [] []).

Definition parse (path_data : string) : result (list PathCommand) :=
  let* st := parse_logged path_data in Ok st.(commands).

End SvgParser.

(** ** Value objects ([core/models.py]) *)

Module Models.

Import PyStr.
Local Open Scope string_scope.

(** *** Colour *)

Record Color : Type := mkColor {
  r : Q;
  g : Q;
  b : Q
}.

Definition in_unit (q : Q) : bool := Qle_bool 0 q && Qle_bool q 1.

(** The field constraints [ge=0.0, le=1.0] of the three components. *)
Definition Color_valid (c : Color) : bool :=
  in_unit c.(r) && in_unit c.(g) && in_unit c.(b).

(** [Color(r=..., g=..., b=...)]: construction validates the fields. *)
Definition Color_new (r g b : Q) : result Color :=
  if negb (in_unit r) then Raise (ValidationError "r")
  else if negb (in_unit g) then Raise (ValidationError "g")
  else if negb (in_unit b) then Raise (ValidationError "b")
  else Ok (mkColor r g b).

(** [int(x)] of a float: truncation toward zero. *)
Definition int_of_float (q : Q) : Z := Z.quot (Qnum q) (Zpos (Qden q)).

Definition hex_digit (d : Z) : ascii :=
  match String.get (Z.to_nat d) "0123456789abcdef" with
  | Some c => c
  | None => "0"%char
  end.

Fixpoint hex_digits (fuel : nat) (n : Z) (acc : string) : string :=
  match fuel with
  | O => acc
  | S f =>
      let acc' := String (hex_digit (n mod 16)) acc in
      if (n / 16 =? 0)%Z then acc' else hex_digits f (n / 16) acc'
  end.

(** [format(n, "x")] for [0 <= n]. *)
Definition hex_of_Z (n : Z) : string :=
  hex_digits (S (Z.to_nat (Z.log2 n))) n EmptyString.

Fixpoint zeros (k : nat) : string :=
  match k with
  | O => EmptyString
  | S k' => String "0" (zeros k')
  end.

(** [f"{n:02x}"]: lower-case hexadecimal, zero-padded after the sign to
    two characters. *)
Definition format_02x (n : Z) : string :=
  if (n <? 0)%Z then String "-" (hex_of_Z (- n))
  else let h := hex_of_Z n in zeros (2 - String.length h) ++ h.

Definition hex_value (c : ascii) : option Z :=
  let n := nat_of_ascii c in
  if (48 <=? n)%nat && (n <=? 57)%nat then Some (Z.of_nat n - 48)%Z
  else if (97 <=? n)%nat && (n <=? 102)%nat then Some (Z.of_nat n - 87)%Z
  else if (65 <=? n)%nat && (n <=? 70)%nat then Some (Z.of_nat n - 55)%Z
  else None.

(** Hexadecimal digits in which single underscores may separate digits.
    [sep_ok] tells whether an underscore may come next. *)
Fixpoint parse_hex_digits (acc : Z) (sep_ok : bool) (s : string) : option Z :=
  match s with
  | EmptyString => if sep_ok then Some acc else None
  | String c rest =>
      if Ascii.eqb c "_"
      then (if sep_ok then parse_hex_digits acc false rest else None)
      else match hex_value c with
           | Some d => parse_hex_digits (16 * acc + d) true rest
           | None => None
           end
  end.

Definition has_hex_prefix (s : string) : bool :=
  match s with
  | String c0 (String c1 _) =>
      Ascii.eqb c0 "0" && (Ascii.eqb c1 "x" || Ascii.eqb c1 "X")
  | _ => false
  end.

(** [int(s, 16)]: surrounding whitespace, an optional sign, an optional
    [0x] prefix, then digits. *)
Definition int_base16 (s : string) : result Z :=
  let s1 := strip s in
  let '(sg, s2) := SvgParser.match_sign s1 in
  let '(s3, after_prefix) :=
    if has_hex_prefix s2 then (slice s2 2 (String.length s2), true)
    else (s2, false) in
  match (if is_empty s3 then None else parse_hex_digits 0 after_prefix s3) with
  | Some v => Ok (SvgParser.apply_sign sg v)
  | None => Raise (ValueError ("invalid literal for int() with base 16: " ++ s))
  end.

Definition Color_from_hex (hex_color : string) : result Color :=
  let hex_color := lstrip_chars "#" hex_color in
  if negb (String.length hex_color =? 6)%nat
  then Raise (ValueError ("Invalid hex color: " ++ hex_color))
  else
    let* ri := int_base16 (slice hex_color 0 2) in
    let* gi := int_base16 (slice hex_color 2 4) in
    let* bi := int_base16 (slice hex_color 4 6) in
    Color_new (inject_Z ri / 255) (inject_Z gi / 255) (inject_Z bi / 255).

Definition Color_to_hex (c : Color) : string :=
  "#" ++ format_02x (int_of_float (c.(r) * 255))
      ++ format_02x (int_of_float (c.(g) * 255))
      ++ format_02x (int_of_float (c.(b) * 255)).

Definition Color_to_tuple (c : Color) : Q * Q * Q := (c.(r), c.(g), c.(b)).

(** *** Text elements *)

Inductive TextAlignment : Type := LEFT | CENTER | RIGHT.

Inductive FontStyle : Type := NORMAL | BOLD | ITALIC | BOLD_ITALIC.

Inductive OverflowStrategy : Type := AUTO | SHRINK | WRAP | TRUNCATE.

Record AdjustmentResult : Type := mkAdjustmentResult {
  was_adjusted : bool;
  strategy_applied : OverflowStrategy;
  original_font_size : Z;
  final_font_size : Z;
  lines_used : Z;
  content_truncated : bool
}.

(** [AdjustmentResult(...)]: both font sizes in [6, 144], at least one
    line. *)
Definition AdjustmentResult_new (was_adjusted : bool)
    (strategy_applied : OverflowStrategy)
    (original_font_size final_font_size lines_used : Z)
    (content_truncated : bool) : result AdjustmentResult :=
  if negb ((6 <=? original_font_size)%Z && (original_font_size <=? 144)%Z)
  then Raise (ValidationError "original_font_size")
  else if negb ((6 <=? final_font_size)%Z && (final_font_size <=? 144)%Z)
  then Raise (ValidationError "final_font_size")
  else if negb (1 <=? lines_used)%Z
  then Raise (ValidationError "lines_used")
  else Ok (mkAdjustmentResult was_adjusted strategy_applied
             original_font_size final_font_size lines_used content_truncated).

Record TextElement : Type := mkTextElement {
  id : string;
  content : string;
  x : Q;
  y : Q;
  width : option Q;
  font_family : string;
  font_size : Z;
  font_style : FontStyle;
  color : option Color;
  alignment : TextAlignment;
  rotation : Q;
  z_index : Z;
  overflow_strategy : OverflowStrategy;
  max_lines : option Z;
  min_font_size : Z;
  _adjustment_applied : option AdjustmentResult
}.

(** The field constraints checked when a [TextElement] is built. *)
Definition TextElement_valid (t : TextElement) : bool :=
  (1 <=? String.length t.(content))%nat
  && (String.length t.(content) <=? 1000)%nat
  && Qle_bool 0 t.(x) && Qle_bool 0 t.(y)
  && match t.(width) with Some w => Qle_bool 0 w | None => true end
  && (6 <=? t.(font_size))%Z && (t.(font_size) <=? 144)%Z
  && match t.(max_lines) with Some n => (1 <=? n)%Z | None => true end
  && (6 <=? t.(min_font_size))%Z && (t.(min_font_size) <=? 72)%Z.

Definition get_adjustment_result (t : TextElement) : option AdjustmentResult :=
  t.(_adjustment_applied).

(** [set_adjustment_result] assigns the private attribute of the object;
    the state of the element after the call is the record with that
    field replaced. *)
Definition set_adjustment_result (t : TextElement) (res : AdjustmentResult)
  : TextElement :=
  mkTextElement t.(id) t.(content) t.(x) t.(y) t.(width) t.(font_family)
    t.(font_size) t.(font_style) t.(color) t.(alignment) t.(rotation)
    t.(z_index) t.(overflow_strategy) t.(max_lines) t.(min_font_size)
    (Some res).

(** The part of [Panel] the text renderer reads. *)
Record Panel : Type := mkPanel {
  panel_x : Q;
  panel_y : Q;
  panel_width : Q;
  panel_height : Q
}.

End Models.

(** ** Text measurement and fitting ([core/text_utils.py]) *)

Module TextUtils.

Import PyStr.
Local Open Scope string_scope.

Record TextMetrics : Type := mkTextMetrics {
  width_pts : Q;
  height_pts : Q;
  line_count : Z;
  fits_within_bounds : bool
}.

(** [TextMetrics(...)]: widths and heights are [ge=0.0], the line count
    is [ge=1]. *)
Definition TextMetrics_new (width_pts height_pts : Q) (line_count : Z)
    (fits_within_bounds : bool) : result TextMetrics :=
  if negb (Qle_bool 0 width_pts) then Raise (ValidationError "width_pts")
  else if negb (Qle_bool 0 height_pts) then Raise (ValidationError "height_pts")
  else if negb (1 <=? line_count)%Z then Raise (ValidationError "line_count")
  else Ok (mkTextMetrics width_pts height_pts line_count fits_within_bounds).

Definition calculate_line_height (font_size_pt : Z) : Q :=
  (inject_Z font_size_pt * (12 # 10))%Q.

(** [max(...)] over a non-empty sequence: the running maximum changes
    only for a strictly larger element. *)
Definition max_of (first : Q) (others : list Q) : Q :=
  List.fold_left (fun m v => if Qle_bool v m then m else v) others first.

(** Truthiness of [max_lines : int | None]. *)
Definition truthy_int (n : option Z) : bool :=
  match n with
  | Some k => negb (k =? 0)%Z
  | None => false
  end.

(** [l[:n]], also for a negative [n]. *)
Definition slice_to {A : Type} (l : list A) (n : Z) : list A :=
  if (0 <=? n)%Z then List.firstn (Z.to_nat n) l
  else List.firstn (Z.to_nat (Z.of_nat (List.length l) + n)) l.

Section Canvas.

(** [c.stringWidth(text, fontName, fontSize)] of the canvas in use. *)
Variable stringWidth : string -> string -> Z -> Q.

Definition measure_text (content font_name : string) (font_size : Z)
    (max_width : Q) (max_height : option Q) (lines : option (list string))
  : result TextMetrics :=
  let '(line_count, width_pts, height_pts) :=
    match lines with
    | Some ls =>
        let line_count := Z.of_nat (List.length ls) in
        let width_pts : Q :=
          match List.map (fun line => stringWidth line font_name font_size) ls with
          | w :: ws => max_of w ws
          | [] => 0%Q
          end in
        let line_height := calculate_line_height font_size in
        (line_count, width_pts, (line_height * inject_Z line_count)%Q)
    | None =>
        (1%Z, stringWidth content font_name font_size,
         calculate_line_height font_size)
    end in
  let fits_width := Qle_bool width_pts max_width in
  let fits_height :=
    match max_height with
    | None => true
    | Some h => Qle_bool height_pts h
    end in
  TextMetrics_new width_pts height_pts line_count (fits_width && fits_height).

(** The [while low <= high] loop of [shrink_to_fit]. *)
Fixpoint shrink_loop (content font_name : string) (max_width : Q)
    (fuel : nat) (low high best_size : Z) : result Z :=
  match fuel with
  | O => Ok best_size
  | S fuel' =>
      if (low <=? high)%Z
      then
        let mid := ((low + high) / 2)%Z in
        let* metrics := measure_text content font_name mid max_width None None in
        if metrics.(fits_within_bounds)
        then shrink_loop content font_name max_width fuel' (mid + 1) high mid
        else shrink_loop content font_name max_width fuel' low (mid - 1) best_size
      else Ok best_size
  end.

(** Each round removes at least one size from [low .. high]. *)
Definition shrink_fuel (low high : Z) : nat := Z.to_nat (high - low + 1).

Definition shrink_to_fit (content font_name : string) (initial_size : Z)
    (max_width : Q) (min_size : Z) : result Z :=
  shrink_loop content font_name max_width
    (shrink_fuel min_size initial_size) min_size initial_size min_size.

(** The [for word in words] loop of [wrap_text]; leaving the recursion
    early is the [break]. *)
Fixpoint wrap_loop (font_name : string) (font_size : Z) (max_width : Q)
    (max_lines : option Z) (words : list string)
    (lines : list string) (current_line : list string)
  : list string * list string :=
  match words with
  | [] => (lines, current_line)
  | word :: rest =>
      let test_line := join " " (current_line ++ [word])%list in
      let test_width := stringWidth test_line font_name font_size in
      let '(lines', current_line') :=
        if Qle_bool test_width max_width
        then (lines, (current_line ++ [word])%list)
        else match current_line with
             | _ :: _ => ((lines ++ [join " " current_line])%list, [word])
             | [] => ((lines ++ [word])%list, current_line)
             end in
      if truthy_int max_lines
         && (match max_lines with
             | Some n => (n <=? Z.of_nat (List.length lines'))%Z
             | None => false
             end)
      then (lines', current_line')
      else wrap_loop font_name font_size max_width max_lines rest
             lines' current_line'
  end.

Definition wrap_text (content font_name : string) (font_size : Z)
    (max_width : Q) (max_lines : option Z) : list string :=
  let words := split content in
  let '(lines, current_line) :=
    wrap_loop font_name font_size max_width max_lines words [] [] in
  let lines :=
    match current_line with
    | _ :: _ =>
        if negb (truthy_int max_lines)
           || (match max_lines with
               | Some n => (Z.of_nat (List.length lines) <? n)%Z
               | None => false
               end)
        then (lines ++ [join " " current_line])%list
        else lines
    | [] => lines
    end in
  match max_lines with
  | Some n => if (n =? 0)%Z then lines else slice_to lines n
  | None => lines
  end.

End Canvas.

(** The width of a string in a fixed-pitch face whose glyphs are 600/1000
    of the font size wide, as for Courier. *)
Definition courier_width (text font_name : string) (font_size : Z) : Q :=
  (inject_Z (Z.of_nat (String.length text)) * inject_Z font_size * (6 # 10))%Q.

End TextUtils.

(** ** Unit conversion ([utils/measurements.py]) *)

Module Measurements.

Definition POINTS_PER_INCH : Q := 72.

Definition inches_to_points (inches : Q) : Q := (inches * POINTS_PER_INCH)%Q.

End Measurements.

(** ** Text rendering ([renderers/reportlab_renderer.py]) *)

Module Renderer.

Import PyStr Models TextUtils Measurements.
Local Open Scope string_scope.

(** The drawing calls [render_text] issues on the canvas, in order. *)
Inductive canvas_op : Type :=
| setFont (name : string) (size : Z)
| setFillColorRGB (red green blue : Q)
| drawString (px py : Q) (text : string)
| drawCentredString (px py : Q) (text : string)
| drawRightString (px py : Q) (text : string).

Definition FontStyle_value (s : FontStyle) : string :=
  match s with
  | NORMAL => "normal"
  | BOLD => "bold"
  | ITALIC => "italic"
  | BOLD_ITALIC => "bold_italic"
  end.

Definition TextAlignment_value (a : TextAlignment) : string :=
  match a with
  | LEFT => "left"
  | CENTER => "center"
  | RIGHT => "right"
  end.

Definition family_map (family : string) : option string :=
  if String.eqb family "helvetica" then Some "Helvetica"
  else if String.eqb family "times" then Some "Times-Roman"
  else if String.eqb family "courier" then Some "Courier"
  else None.

Definition _get_font_name (family style : string) : string :=
  let base_font :=
    match family_map (lower family) with
    | Some f => f
    | None => family
    end in
  if String.eqb style "bold" then
    if String.eqb base_font "Times-Roman" then "Times-Bold"
    else base_font ++ "-Bold"
  else if String.eqb style "italic" then
    if String.eqb base_font "Times-Roman" then "Times-Italic"
    else if String.eqb base_font "Helvetica" then "Helvetica-Oblique"
    else base_font ++ "-Italic"
  else if String.eqb style "bold_italic" then
    if String.eqb base_font "Times-Roman" then "Times-BoldItalic"
    else if String.eqb base_font "Helvetica" then "Helvetica-BoldOblique"
    else base_font ++ "-BoldItalic"
  else base_font.

(** Truthiness of [float | None]: set and non-zero. *)
Definition truthy_float (w : option Q) : bool :=
  match w with
  | Some q => negb (Qeq_bool q 0)
  | None => false
  end.

Section Canvas.

(** The renderer holds a canvas ([self._canvas is not None]); its
    [stringWidth] is the only thing the fitting code asks of it. *)
Variable stringWidth : string -> string -> Z -> Q.

(** The [while] loop of [_handle_text_overflow]: drop the last character
    while the text is too wide and not empty.  A string of [n] characters
    is empty after [n] rounds. *)
Fixpoint truncate_loop (font_name : string) (font_size : Z)
    (available_width : Q) (fuel : nat) (truncated : string) : string :=
  match fuel with
  | O => truncated
  | S fuel' =>
      if negb (Qle_bool (stringWidth truncated font_name font_size)
                 available_width)
         && (0 <? String.length truncated)%nat
      then truncate_loop font_name font_size available_width fuel'
             (drop_last truncated)
      else truncated
  end.

Definition _handle_text_overflow (content font_name : string)
    (font_size : Z) (max_width : Q) : string :=
  let text_width := stringWidth content font_name font_size in
  if Qle_bool text_width max_width then content
  else
    let ellipsis := "..." in
    let ellipsis_width := stringWidth ellipsis font_name font_size in
    let available_width := (max_width - ellipsis_width)%Q in
    let truncated :=
      truncate_loop font_name font_size available_width
        (String.length content) content in
    rstrip truncated ++ ellipsis.

Definition _select_auto_strategy (text : TextElement) : OverflowStrategy :=
  let text_length := String.length text.(content) in
  let has_height := match text.(width) with Some _ => true | None => false end in
  if (text_length <? 30)%nat then SHRINK
  else if (30 <=? text_length)%nat && has_height then WRAP
  else SHRINK.

Definition _apply_shrink_strategy (text : TextElement) (panel : Panel)
  : result (Z * string) :=
  match text.(width) with
  | None => Ok (text.(font_size), text.(content))
  | Some w =>
      let font_name :=
        _get_font_name text.(font_family) (FontStyle_value text.(font_style)) in
      let max_width_pts := inches_to_points w in
      let* final_size :=
        shrink_to_fit stringWidth text.(content) font_name text.(font_size)
          max_width_pts text.(min_font_size) in
      if (final_size =? text.(min_font_size))%Z
      then
        let* metrics :=
          measure_text stringWidth text.(content) font_name final_size
            max_width_pts None None in
        if negb metrics.(fits_within_bounds)
        then Ok (final_size,
                 _handle_text_overflow text.(content) font_name final_size
                   max_width_pts)
        else Ok (final_size, text.(content))
      else Ok (final_size, text.(content))
  end.

(** The binary search of [_apply_wrap_strategy], re-wrapping at each
    candidate size. *)
Fixpoint wrap_shrink_loop (text : TextElement) (font_name : string)
    (max_width_pts max_height_pts : Q) (fuel : nat) (low high best_size : Z)
    (best_lines : list string) : result (Z * list string) :=
  match fuel with
  | O => Ok (best_size, best_lines)
  | S fuel' =>
      if (low <=? high)%Z
      then
        let mid := ((low + high) / 2)%Z in
        let test_lines :=
          wrap_text stringWidth text.(content) font_name mid max_width_pts
            text.(max_lines) in
        let* test_metrics :=
          measure_text stringWidth text.(content) font_name mid max_width_pts
            (Some max_height_pts) (Some test_lines) in
        if test_metrics.(fits_within_bounds)
        then wrap_shrink_loop text font_name max_width_pts max_height_pts
               fuel' (mid + 1) high mid test_lines
        else wrap_shrink_loop text font_name max_width_pts max_height_pts
               fuel' low (mid - 1) best_size best_lines
      else Ok (best_size, best_lines)
  end.

Definition _apply_wrap_strategy (text : TextElement) (panel : Panel)
  : result (Z * list string) :=
  match text.(width) with
  | None => Ok (text.(font_size), [text.(content)])
  | Some w =>
      let font_name :=
        _get_font_name text.(font_family) (FontStyle_value text.(font_style)) in
      let max_width_pts := inches_to_points w in
      let font_size := text.(font_size) in
      let lines :=
        wrap_text stringWidth text.(content) font_name font_size max_width_pts
          text.(max_lines) in
      if truthy_float text.(width)
      then
        let max_height_pts :=
          if negb (Qeq_bool panel.(panel_height) 0)
          then Some (inches_to_points panel.(panel_height))
          else None in
        if truthy_float max_height_pts
        then
          match max_height_pts with
          | Some h =>
              let* metrics :=
                measure_text stringWidth text.(content) font_name font_size
                  max_width_pts (Some h) (Some lines) in
              if negb metrics.(fits_within_bounds)
                 && (text.(min_font_size) <? font_size)%Z
              then wrap_shrink_loop text font_name max_width_pts h
                     (shrink_fuel text.(min_font_size) font_size)
                     text.(min_font_size) font_size text.(min_font_size) lines
              else Ok (font_size, lines)
          | None => Ok (font_size, lines)
          end
        else Ok (font_size, lines)
      else Ok (font_size, lines)
  end.

Definition _apply_truncate_strategy (text : TextElement) (panel : Panel)
  : Z * string :=
  match text.(width) with
  | None => (text.(font_size), text.(content))
  | Some w =>
      let font_name :=
        _get_font_name text.(font_family) (FontStyle_value text.(font_style)) in
      let max_width_pts := inches_to_points w in
      (text.(font_size),
       _handle_text_overflow text.(content) font_name text.(font_size)
         max_width_pts)
  end.

(** The strategy [_fit_text_element] ends up applying. *)
Definition resolved_strategy (text : TextElement) : OverflowStrategy :=
  match text.(overflow_strategy) with
  | AUTO => _select_auto_strategy text
  | s => s
  end.

Definition OverflowStrategy_eqb (a b : OverflowStrategy) : bool :=
  match a, b with
  | AUTO, AUTO | SHRINK, SHRINK | WRAP, WRAP | TRUNCATE, TRUNCATE => true
  | _, _ => false
  end.

Definition _fit_text_element (text : TextElement) (panel : Panel)
  : result (Z * list string * AdjustmentResult) :=
  let strategy := text.(overflow_strategy) in
  let strategy :=
    if OverflowStrategy_eqb strategy AUTO
    then _select_auto_strategy text else strategy in
  let original_font_size := text.(font_size) in
  let* applied :=
    match strategy with
    | SHRINK =>
        let* sc := _apply_shrink_strategy text panel in
        let '(final_size, content) := sc in
        Ok (final_size, [content],
            negb (String.eqb content text.(Models.content))
            && endswith_str content "...")
    | WRAP =>
        let* sl := _apply_wrap_strategy text panel in
        let '(final_size, lines) := sl in
        Ok (final_size, lines, false)
    | TRUNCATE =>
        let '(final_size, content) := _apply_truncate_strategy text panel in
        Ok (final_size, [content],
            negb (String.eqb content text.(Models.content)))
    | AUTO => Ok (text.(font_size), [text.(Models.content)], false)
    end in
  let '(final_size, lines, truncated) := applied in
  let was_adjusted :=
    negb (final_size =? original_font_size)%Z
    || truncated
    || (1 <? List.length lines)%nat in
  let* res :=
    AdjustmentResult_new was_adjusted strategy original_font_size final_size
      (Z.of_nat (List.length lines)) truncated in
  Ok (final_size, lines, res).

(** The drawing calls of [render_text] once size and lines are known. *)
Fixpoint draw_lines (alignment : string) (abs_x abs_y line_height : Q)
    (i : Z) (lines : list string) : list canvas_op :=
  match lines with
  | [] => []
  | line :: rest =>
      let line_y := (abs_y - inject_Z i * line_height)%Q in
      (if String.eqb alignment "center" then drawCentredString abs_x line_y line
       else if String.eqb alignment "right" then drawRightString abs_x line_y line
       else drawString abs_x line_y line)
      :: draw_lines alignment abs_x abs_y line_height (i + 1) rest
  end.

(** [render_text].  The element is an object the caller keeps; the first
    component is its state when the call ends (also when the call ends by
    raising), the second the drawing calls or the exception. *)
Definition render_text (text : TextElement) (panel : Panel)
  : TextElement * result (list canvas_op) :=
  let abs_x := inches_to_points (panel.(panel_x) + text.(x)) in
  let abs_y := inches_to_points (panel.(panel_y) + text.(y)) in
  let font_name :=
    _get_font_name text.(font_family) (FontStyle_value text.(font_style)) in
  let draw (final_font_size : Z) (lines : list string) : list canvas_op :=
    (setFont font_name final_font_size
     :: (match text.(color) with
         | Some c => setFillColorRGB c.(r) c.(g) c.(b)
         | None => setFillColorRGB 0 0 0
         end)
     :: draw_lines (TextAlignment_value text.(alignment)) abs_x abs_y
          (calculate_line_height final_font_size) 0 lines)%list in
  if truthy_float text.(width)
  then
    match _fit_text_element text panel with
    | Ok (final_font_size, lines, adjustment_result) =>
        (set_adjustment_result text adjustment_result,
         Ok (draw final_font_size lines))
    | Raise e => (text, Raise e)
    end
  else (text, Ok (draw text.(font_size) [text.(content)])).

End Canvas.

End Renderer.

(** ** Rounding to a float *)

Module PyFloat.

Local Open Scope Q_scope.

(** The integer nearest to [x]; of two equally near, the even one. *)
Definition round_half_even (x : Q) : Z :=
  let f := Qfloor x in
  match (x - inject_Z f ?= 1 # 2)%Q with
  | Lt => f
  | Gt => (f + 1)%Z
  | Eq => if Z.even f then f else (f + 1)%Z
  end.

(** The exponent [e] of [x <> 0]: [2 ^ e <= |x| < 2 ^ (e + 1)]. *)
Definition binade (x : Q) : Z :=
  let e := (Z.log2 (Z.abs (Qnum x)) - Z.log2 (Zpos (Qden x)))%Z in
  if Qle_bool (2 ^ e)%Q (Qabs x) then e else (e - 1)%Z.

(** The binary64 float nearest to [x], ties to even: 53 significant
    bits, and below [2 ^ (-1022)] the spacing of the subnormal numbers.
    Overflow is outside the model. *)
Definition float_round (x : Q) : Q :=
  if Qeq_bool x 0 then 0
  else
    let ulp := 2 ^ (Z.max (binade x) (-1022) - 52) in
    Qred (inject_Z (round_half_even (x / ulp)) * ulp).

(** [a + b] on floats. *)
Definition float_add (a b : Q) : Q := float_round (a + b).

(** [x] cut to an integer towards zero. *)
Definition Qtruncate (x : Q) : Z := Z.quot (Qnum x) (Zpos (Qden x)).

(** C's [fmod(a, m)] on floats, for [m] not zero: the result has the
    sign of [a] and is exact. *)
Definition c_fmod (a m : Q) : Q := a - m * inject_Z (Qtruncate (a / m)).

End PyFloat.

(** ** Decorative elements ([core/decorative.py]) *)

Module Decorative.

Import PyStr PyFloat.
Local Open Scope string_scope.

(** A value of a shape dictionary loaded from YAML: a number or a
    string. *)
Inductive pyval : Type :=
| VNum (q : Q)
| VStr (s : string).

(** A shape description is a [dict] from field names to values. *)
Abbreviation shape_dict := (gmap string pyval).

Record DecorativeElement : Type := mkDecorativeElement {
  id : string;
  name : string;
  x : Q;
  y : Q;
  scale : Q;
  rotation : Q;
  color_palette : option (gmap string string);
  z_index : Z
}.

Record DecorativeElementDefinition : Type := mkDefinition {
  def_name : string;
  description : string;
  default_width : Q;
  default_height : Q;
  color_roles : gmap string string;
  shapes : list shape_dict
}.

(** Python's [a % m] on floats, for [m] not zero ([float_rem]): the
    remainder of [fmod], moved by [m] when it is not zero and its sign is
    not that of [m].  That addition is a float addition: it is
    rounded. *)
Definition py_fmod (a m : Q) : Q :=
  let r := c_fmod a m in
  if Qeq_bool r 0 then 0%Q
  else if xorb (negb (Qle_bool 0 m)) (negb (Qle_bool 0 r))
       then float_round (r + m)%Q
       else r.

(** The two [# Resolve ..._color] blocks of [resolve_colors], for the
    field [key]. *)
Definition resolve_color_field (key : string) (palette : gmap string string)
    (shape_copy : shape_dict) : shape_dict :=
  match shape_copy !! key with
  | Some (VStr fill) =>
      if startswith fill "{" && endswith fill "}"
      then
        let role := strip_chars "{}" fill in
        <[key := VStr (default fill (palette !! role))]> shape_copy
      else shape_copy
  | _ => shape_copy
  end.

Definition build_palette (definition : DecorativeElementDefinition)
    (color_palette : option (gmap string string)) : gmap string string :=
  match color_palette with
  | Some overrides =>
      if bool_decide (overrides = ∅) then definition.(color_roles)
      else overrides ∪ definition.(color_roles)
  | None => definition.(color_roles)
  end.

Definition resolve_colors (definition : DecorativeElementDefinition)
    (color_palette : option (gmap string string)) : list shape_dict :=
  let palette := build_palette definition color_palette in
  List.map
    (fun shape_data =>
       resolve_color_field "stroke_color" palette
         (resolve_color_field "fill_color" palette shape_data))
    definition.(shapes).

(** [shape_copy[key]] used as a number. *)
Definition get_num (shape_copy : shape_dict) (key : string) : result Q :=
  match shape_copy !! key with
  | Some (VNum q) => Ok q
  | Some (VStr _) => Raise TypeError
  | None => Raise (KeyError key)
  end.

(** [shape_copy[key] = shape_copy[key] * scale + offset]. *)
Definition scale_offset (key : string) (scale offset : Q)
    (shape_copy : shape_dict) : result shape_dict :=
  let* p := get_num shape_copy key in
  Ok (<[key := VNum (p * scale + offset)%Q]> shape_copy).

(** [shape_copy[key] = shape_copy[key] * scale]. *)
Definition scale_size (key : string) (scale : Q)
    (shape_copy : shape_dict) : result shape_dict :=
  let* p := get_num shape_copy key in
  Ok (<[key := VNum (p * scale)%Q]> shape_copy).

Definition is_type (v : pyval) (ty : string) : bool :=
  match v with
  | VStr s => String.eqb s ty
  | VNum _ => false
  end.

(** The [if ... elif] chain on [shape_copy['type']]. *)
Definition scale_fields (element : DecorativeElement)
    (shape_copy : shape_dict) : result shape_dict :=
  let scale := element.(scale) in
  let ex := element.(x) in
  let ey := element.(y) in
  match shape_copy !! "type" with
  | None => Raise (KeyError "type")
  | Some ty =>
      if is_type ty "rectangle" then
        let* d := scale_offset "x" scale ex shape_copy in
        let* d := scale_offset "y" scale ey d in
        let* d := scale_size "width" scale d in
        scale_size "height" scale d
      else if is_type ty "circle" then
        let* d := scale_offset "center_x" scale ex shape_copy in
        let* d := scale_offset "center_y" scale ey d in
        scale_size "radius" scale d
      else if is_type ty "triangle" then
        let* d := scale_offset "x1" scale ex shape_copy in
        let* d := scale_offset "y1" scale ey d in
        let* d := scale_offset "x2" scale ex d in
        let* d := scale_offset "y2" scale ey d in
        let* d := scale_offset "x3" scale ex d in
        scale_offset "y3" scale ey d
      else if is_type ty "star" then
        let* d := scale_offset "center_x" scale ex shape_copy in
        let* d := scale_offset "center_y" scale ey d in
        let* d := scale_size "outer_radius" scale d in
        scale_size "inner_radius" scale d
      else if is_type ty "line" then
        let* d := scale_offset "start_x" scale ex shape_copy in
        let* d := scale_offset "start_y" scale ey d in
        let* d := scale_offset "end_x" scale ex d in
        scale_offset "end_y" scale ey d
      else Ok shape_copy
  end.

(** The body of the loop of [apply_transforms] for one shape.  The
    rotation is computed as on floats: the sum is rounded, then reduced
    by [% 360]. *)
Definition transform_shape (element : DecorativeElement)
    (shape_data : shape_dict) : result shape_dict :=
  let* shape_copy := scale_fields element shape_data in
  let* current_rotation :=
    match shape_copy !! "rotation" with
    | Some (VNum q) => Ok q
    | Some (VStr _) => Raise TypeError
    | None => Ok 0%Q
    end in
  let shape_copy :=
    <["rotation" :=
        VNum (py_fmod (float_add current_rotation element.(rotation)) 360)]>
      shape_copy in
  let shape_copy :=
    match shape_copy !! "z_index" with
    | None => <["z_index" := VNum (inject_Z element.(z_index))]> shape_copy
    | Some _ => shape_copy
    end in
  Ok shape_copy.

Fixpoint apply_transforms (shapes : list shape_dict)
    (element : DecorativeElement) : result (list shape_dict) :=
  match shapes with
  | [] => Ok []
  | shape_data :: rest =>
      let* shape_copy := transform_shape element shape_data in
      let* transformed := apply_transforms rest element in
      Ok (shape_copy :: transformed)
  end.

(** The first two steps of [expand_element] for a definition already
    looked up: resolve colours, then apply the transforms. *)
Definition expand_shapes (definition : DecorativeElementDefinition)
    (element : DecorativeElement) : result (list shape_dict) :=
  apply_transforms (resolve_colors definition element.(color_palette)) element.

End Decorative.

(** ** Gradient geometry ([utils/gradient_utils.py]) *)

Module GradientUtils.

Local Open Scope R_scope.

(** Python's [a % m] on floats, for [m > 0]: [a - m * floor (a / m)]. *)
Definition py_fmod (a m : R) : R := a - m * IZR (Int_part (a / m)).



End GradientUtils.

(** ** Page bounds ([utils/measurements.py]) *)

Module PageBounds.

Import Measurements.

Definition PAGE_WIDTH : Q := 85 # 10.
Definition PAGE_HEIGHT : Q := 11.
Definition SAFE_MARGIN : Q := 25 # 100.

Definition points_to_inches (points : Q) : Q := (points / POINTS_PER_INCH)%Q.

(** [a < b] on floats. *)
Definition Qlt_bool (a b : Q) : bool := negb (Qle_bool b a).

Definition validate_within_page (x y width height : Q) : bool :=
  if Qlt_bool x SAFE_MARGIN || Qlt_bool y SAFE_MARGIN then false
  else if Qlt_bool (PAGE_WIDTH - SAFE_MARGIN) (x + width) then false
  else if Qlt_bool (PAGE_HEIGHT - SAFE_MARGIN) (y + height) then false
  else true.

Definition validate_within_panel (x y width height panel_width panel_height : Q)
  : bool :=
  if Qlt_bool x SAFE_MARGIN || Qlt_bool y SAFE_MARGIN then false
  else if Qlt_bool (panel_width - SAFE_MARGIN) (x + width) then false
  else if Qlt_bool (panel_height - SAFE_MARGIN) (y + height) then false
  else true.

End PageBounds.

(** ** Fill and clip-mask validators ([core/models.py],
    [core/validators.py]) *)

Module FillModels.

Import PyStr Models.
Local Open Scope string_scope.

(** The [validate_hex_color] validator of [ColorStop] and of
    [SolidFill]; the one of [BaseShape] is the same on a string and
    returns [None] for [None]. *)
Definition validate_hex_color (v : string) : result string :=
  let v := if negb (startswith v "#") then "#" ++ v else v in
  if negb (String.length v =? 7)%nat
  then Raise (ValueError
                ("Hex color must be 7 characters (#RRGGBB), got: " ++ v))
  else match int_base16 (slice v 1 (String.length v)) with
       | Ok _ => Ok v
       | Raise _ => Raise (ValueError ("Invalid hex color: " ++ v))
       end.

Record ColorStop : Type := mkColorStop {
  position : Q;
  color : string
}.

(** [sorted(...)] on floats: insertion into the sorted rest, before the
    first element that is not smaller, which is the order a stable sort
    gives. *)
Fixpoint sorted_insert (p : Q) (l : list Q) : list Q :=
  match l with
  | [] => [p]
  | q :: rest => if Qle_bool p q then p :: l else q :: sorted_insert p rest
  end.

Fixpoint sorted (l : list Q) : list Q :=
  match l with
  | [] => []
  | p :: rest => sorted_insert p (sorted rest)
  end.

(** [==] on two lists of floats. *)
Fixpoint list_float_eqb (l1 l2 : list Q) : bool :=
  match l1, l2 with
  | [], [] => true
  | p :: r1, q :: r2 => Qeq_bool p q && list_float_eqb r1 r2
  | _, _ => false
  end.

(** The [validate_stops_ascending] validator of both gradient fills. *)
Definition validate_stops_ascending (v : list ColorStop)
  : result (list ColorStop) :=
  let positions := List.map position v in
  if negb (list_float_eqb positions (sorted positions))
  then Raise (ValueError "Color stops must be in ascending position order")
  else Ok v.

(** [any(c in valid_commands for c in v)]. *)
Fixpoint has_command (v : string) : bool :=
  match v with
  | EmptyString => false
  | String c r => SvgParser.is_command_letter c || has_command r
  end.

(** [SVGPath.validate_path_syntax]. *)
Definition validate_path_syntax (v : string) : result string :=
  let v := strip v in
  if negb (truthy v) then Raise (ValueError "SVG path data cannot be empty")
  else if negb (has_command v)
  then Raise (ValueError
         "SVG path must contain at least one valid command (M, L, C, Q, A, Z)")
  else Ok v.

(** [SVGPathClipMask.validate_closed_path]. *)
Definition validate_closed_path (v : string) : result string :=
  let v := strip v in
  if negb (endswith v "Z" || endswith v "z")
  then Raise (ValueError
         "SVG path for clipping mask must be closed (end with Z or z)")
  else Ok v.

(** [validate_svg_path_data] of [core/validators.py]: validity, message
    and the warning it logs when the path does not start with a move. *)
Definition validate_svg_path_data (path_data : string)
  : bool * option string * list string :=
  if negb (truthy path_data) || negb (truthy (strip path_data))
  then (false, Some "SVG path data cannot be empty", [])
  else if negb (has_command path_data)
  then (false,
        Some "SVG path must contain at least one valid command (M, L, C, Q, A, Z)",
        [])
  else match strip path_data with
       | String c _ =>
           if negb (mem_char c "Mm")
           then (true, None,
                 ["SVG path should start with M/m command, got: "
                  ++ String c EmptyString])
           else (true, None, [])
       | EmptyString => (true, None, [])
       end.

End FillModels.

(** ** Image size and placement ([renderers/reportlab_renderer.py]) *)

Module ImageSize.

Import Measurements PageBounds.

(** [min(a, b)] and [max(a, b)] of two floats: the first argument unless
    the second is strictly smaller (larger). *)
Definition py_min (a b0 : Q) : Q := if Qlt_bool b0 a then b0 else a.
Definition py_max (a b0 : Q) : Q := if Qlt_bool a b0 then b0 else a.

(** [a / b] on floats. *)
Definition fdiv (a b0 : Q) : result Q :=
  if Qeq_bool b0 0 then Raise ZeroDivisionError else Ok (a / b0)%Q.

Definition _calculate_image_size (natural_width natural_height : Q)
    (target_width target_height : option Q) (preserve_aspect : bool)
    (max_width max_height : Q) : result (Q * Q) :=
  let* aspect_ratio :=
    if Qlt_bool 0 natural_height then fdiv natural_width natural_height
    else Ok 1%Q in
  match target_width, target_height with
  | Some tw, Some th =>
      if preserve_aspect then
        let* ratio := fdiv tw th in
        if Qlt_bool aspect_ratio ratio
        then Ok ((th * aspect_ratio)%Q, th)
        else let* h := fdiv tw aspect_ratio in Ok (tw, h)
      else Ok (tw, th)
  | Some tw, None =>
      if preserve_aspect
      then let* h := fdiv tw aspect_ratio in Ok (tw, h)
      else Ok (tw, natural_height)
  | None, Some th =>
      if preserve_aspect
      then Ok ((th * aspect_ratio)%Q, th)
      else Ok (natural_width, th)
  | None, None =>
      let final_width := py_min natural_width max_width in
      let final_height := py_min natural_height max_height in
      if preserve_aspect then
        let* scale_x := fdiv final_width natural_width in
        let* scale_y := fdiv final_height natural_height in
        let scale := py_min scale_x scale_y in
        Ok ((natural_width * scale)%Q, (natural_height * scale)%Q)
      else Ok (final_width, final_height)
  end.

(** The position of an image on the page, in points, as [render_image]
    computes it: the requested position clamped to the safe area.  The
    numbers are exact; what is proved of the position rests on the
    comparisons of [min] and [max] and on the products by 72. *)
Definition image_position (panel_x panel_y image_x image_y
    final_width final_height : Q) : Q * Q :=
  let abs_x := inches_to_points (panel_x + image_x) in
  let abs_y := inches_to_points (panel_y + image_y) in
  let safe_margin_pts := inches_to_points (25 # 100) in
  let page_width_pts := inches_to_points PAGE_WIDTH in
  let page_height_pts := inches_to_points PAGE_HEIGHT in
  let abs_x :=
    py_max safe_margin_pts
      (py_min abs_x
         (page_width_pts - safe_margin_pts - inches_to_points final_width)) in
  let abs_y :=
    py_max safe_margin_pts
      (py_min abs_y
         (page_height_pts - safe_margin_pts
          - inches_to_points final_height)) in
  (abs_x, abs_y).

End ImageSize.

(** ** Radial gradients and colour stops ([utils/gradient_utils.py],
    [renderers/gradient_renderer.py]) *)

Module GradientStops.

Import Models ImageSize.
Local Open Scope string_scope.

Section Hex.

(** [HexColor] of ReportLab: the red, green and blue of a colour string,
    or the exception it raises. *)
Variable HexColor : string -> result (Q * Q * Q).

Definition interpolate_color (color1 color2 : string) (position : Q)
  : result (Q * Q * Q) :=
  let position := py_max 0 (py_min 1 position) in
  let* c1 := HexColor color1 in
  let* c2 := HexColor color2 in
  let '(r1, g1, b1) := c1 in
  let '(r2, g2, b2) := c2 in
  Ok ((r1 + (r2 - r1) * position)%Q,
      (g1 + (g2 - g1) * position)%Q,
      (b1 + (b2 - b1) * position)%Q).

(** The colour between two neighbouring stops that enclose the
    position: the body of the loop of [find_color_at_position] once its
    test holds. *)
Definition segment_color (pos1 : Q) (color1 : string) (pos2 : Q)
    (color2 : string) (position : Q) : result string :=
  if Qeq_bool (pos2 - pos1) 0 then Ok color1
  else
    let local_pos := ((position - pos1) / (pos2 - pos1))%Q in
    let* interpolated := interpolate_color color1 color2 local_pos in
    let '(red, green, blue) := interpolated in
    let r := int_of_float (red * 255) in
    let g := int_of_float (green * 255) in
    let b := int_of_float (blue * 255) in
    Ok ("#" ++ format_02x r ++ format_02x g ++ format_02x b).

(** The loop [for i in range(len(stops) - 1)]; falling out of it is the
    final [return "#000000"]. *)
Fixpoint find_segment (stops : list (Q * string)) (position : Q)
  : result string :=
  match stops with
  | (pos1, color1) :: (((pos2, color2) :: _) as rest) =>
      if Qle_bool pos1 position && Qle_bool position pos2
      then segment_color pos1 color1 pos2 color2 position
      else find_segment rest position
  | _ => Ok "#000000"
  end.

Definition find_color_at_position (stops : list (Q * string)) (position : Q)
  : result string :=
  match stops with
  | [] => Ok "#000000"
  | first :: _ =>
      let position := py_max 0 (py_min 1 position) in
      if Qle_bool position (fst first) then Ok (snd first)
      else
        let last := List.last stops first in
        if Qle_bool (fst last) position then Ok (snd last)
        else find_segment stops position
  end.

End Hex.

End GradientStops.

Module RadialGradient.

Import GradientUtils.
Local Open Scope R_scope.

Definition radial_gradient_endpoints
    (center_x center_y radius shape_width shape_height x_offset y_offset : R)
  : (R * R) * R :=
  let abs_center_x := x_offset + center_x * shape_width in
  let abs_center_y := y_offset + center_y * shape_height in
  let diagonal := sqrt (shape_width ^ 2 + shape_height ^ 2) in
  let abs_radius := radius * diagonal in
  ((abs_center_x, abs_center_y), abs_radius).

End RadialGradient.

(** ** Gradient stop validation ([core/validators.py]) *)

Module FillValidators.

Import Models FillModels.
Local Open Scope string_scope.

(** The field constraints of [ColorStop] ([position] in [0, 1]) and of
    the [stops] of a gradient fill (2 to 20 stops, in ascending
    order). *)
Definition ColorStop_valid (stop : ColorStop) : bool :=
  in_unit stop.(position) && is_Ok (validate_hex_color stop.(color)).

Definition stops_valid (stops : list ColorStop) : bool :=
  (2 <=? List.length stops)%nat && (List.length stops <=? 20)%nat
  && is_Ok (validate_stops_ascending stops).

Section Repr.

(** The text of a float in an f-string. *)
Variable float_str : Q -> string.

(** The loop [for stop in stops] of [validate_gradient_stops]: the
    message for the first stop out of range. *)
Fixpoint first_out_of_range (stops : list ColorStop) : option string :=
  match stops with
  | [] => None
  | stop :: rest =>
      if negb (Qle_bool 0 stop.(position) && Qle_bool stop.(position) 1)
      then Some ("Color stop position " ++ float_str stop.(position)
                 ++ " out of range (0.0-1.0)")
      else first_out_of_range rest
  end.

Definition validate_gradient_stops (stops : list ColorStop)
  : bool * option string :=
  if (List.length stops <? 2)%nat
  then (false, Some "Gradient must have at least 2 color stops")
  else if (20 <? List.length stops)%nat
  then (false, Some "Gradient cannot have more than 20 color stops")
  else
    let positions := List.map position stops in
    if negb (list_float_eqb positions (sorted positions))
    then (false, Some "Color stop positions must be in ascending order")
    else match first_out_of_range stops with
         | Some message => (false, Some message)
         | None => (true, None)
         end.

End Repr.

End FillValidators.

(** ** Drawing parsed paths ([renderers/shape_renderer.py],
    [renderers/clipping_renderer.py]) *)

Module PathOps.

(** The calls on a ReportLab path object. *)
Inductive path_op : Type :=
| moveTo (px py : Q)
| lineTo (px py : Q)
| curveTo (x1 y1 x2 y2 x3 y3 : Q)
| closePath.

(** The complete groups of [k] parameters, in order.  A loop
    [for i in range(0, len(params), k)] that unpacks [k] values runs its
    body once for each of them; a shorter rest makes the unpacking raise
    [IndexError] or [ValueError] before the body has done anything. *)
Fixpoint groups_fuel (fuel k : nat) (params : list Q) : list (list Q) :=
  match fuel with
  | O => []
  | S fuel' =>
      if (0 <? k)%nat && (k <=? List.length params)%nat
      then List.firstn k params
           :: groups_fuel fuel' k (List.skipn k params)
      else []
  end.

(** Each round takes at least one parameter. *)
Definition groups (k : nat) (params : list Q) : list (list Q) :=
  groups_fuel (List.length params) k params.

End PathOps.

(** *** [ShapeRenderer.render_svg_path]: building the path *)

Module ShapePath.

Import SvgParser ImageSize PathOps.

Definition POINTS_PER_INCH : Q := 72.

Record pen : Type := mkPen {
  current_x : Q;
  current_y : Q;
  last_control_x : Q;
  last_control_y : Q
}.

(** The pen and the calls made on the path so far. *)
Definition path_state : Type := pen * list path_op.

Section Render.

(** [svg_path.scale] and the panel offsets. *)
Variables scale panel_offset_x panel_offset_y : Q.

Definition to_abs_x (x : Q) : Q :=
  ((panel_offset_x + x * scale) * POINTS_PER_INCH)%Q.

Definition to_abs_y (y : Q) : Q :=
  ((panel_offset_y + y * scale) * POINTS_PER_INCH)%Q.

(** One round of the loop of [M]/[m] and of [L]/[l]. *)
Definition point_group (draw : Q -> Q -> path_op) (is_relative : bool)
    (st : path_state) (group : list Q) : path_state :=
  match group with
  | [x; y] =>
      let '(p, ops) := st in
      let cx := if is_relative then (p.(current_x) + x)%Q else x in
      let cy := if is_relative then (p.(current_y) + y)%Q else y in
      (mkPen cx cy p.(last_control_x) p.(last_control_y),
       (ops ++ [draw (to_abs_x cx) (to_abs_y cy)])%list)
  | _ => st
  end.

(** One round of the loop of [H]/[h]. *)
Definition horizontal_step (is_relative : bool) (st : path_state) (x : Q)
  : path_state :=
  let '(p, ops) := st in
  let cx := if is_relative then (p.(current_x) + x)%Q else x in
  (mkPen cx p.(current_y) p.(last_control_x) p.(last_control_y),
   (ops ++ [lineTo (to_abs_x cx) (to_abs_y p.(current_y))])%list).

(** One round of the loop of [V]/[v]. *)
Definition vertical_step (is_relative : bool) (st : path_state) (y : Q)
  : path_state :=
  let '(p, ops) := st in
  let cy := if is_relative then (p.(current_y) + y)%Q else y in
  (mkPen p.(current_x) cy p.(last_control_x) p.(last_control_y),
   (ops ++ [lineTo (to_abs_x p.(current_x)) (to_abs_y cy)])%list).

(** One round of the loop of [C]/[c]. *)
Definition cubic_group (is_relative : bool) (st : path_state)
    (group : list Q) : path_state :=
  match group with
  | [cp1x; cp1y; cp2x; cp2y; x; y] =>
      let '(p, ops) := st in
      let abs_cp1x :=
        if is_relative then to_abs_x (p.(current_x) + cp1x)
        else to_abs_x cp1x in
      let abs_cp1y :=
        if is_relative then to_abs_y (p.(current_y) + cp1y)
        else to_abs_y cp1y in
      let abs_cp2x :=
        if is_relative then to_abs_x (p.(current_x) + cp2x)
        else to_abs_x cp2x in
      let abs_cp2y :=
        if is_relative then to_abs_y (p.(current_y) + cp2y)
        else to_abs_y cp2y in
      let cx := if is_relative then (p.(current_x) + x)%Q else x in
      let cy := if is_relative then (p.(current_y) + y)%Q else y in
      let lcx := if negb is_relative then cp2x else (cx - x + cp2x)%Q in
      let lcy := if negb is_relative then cp2y else (cy - y + cp2y)%Q in
      (mkPen cx cy lcx lcy,
       (ops ++ [curveTo abs_cp1x abs_cp1y abs_cp2x abs_cp2y
                  (to_abs_x cx) (to_abs_y cy)])%list)
  | _ => st
  end.

(** One round of the loop of [S]/[s]. *)
Definition smooth_cubic_group (is_relative : bool) (st : path_state)
    (group : list Q) : path_state :=
  match group with
  | [cp2x; cp2y; x; y] =>
      let '(p, ops) := st in
      let cp1x := (2 * p.(current_x) - p.(last_control_x))%Q in
      let cp1y := (2 * p.(current_y) - p.(last_control_y))%Q in
      let abs_cp1x := to_abs_x cp1x in
      let abs_cp1y := to_abs_y cp1y in
      let abs_cp2x :=
        if is_relative then to_abs_x (p.(current_x) + cp2x)
        else to_abs_x cp2x in
      let abs_cp2y :=
        if is_relative then to_abs_y (p.(current_y) + cp2y)
        else to_abs_y cp2y in
      let cx := if is_relative then (p.(current_x) + x)%Q else x in
      let cy := if is_relative then (p.(current_y) + y)%Q else y in
      let lcx := if negb is_relative then cp2x else (cx - x + cp2x)%Q in
      let lcy := if negb is_relative then cp2y else (cy - y + cp2y)%Q in
      (mkPen cx cy lcx lcy,
       (ops ++ [curveTo abs_cp1x abs_cp1y abs_cp2x abs_cp2y
                  (to_abs_x cx) (to_abs_y cy)])%list)
  | _ => st
  end.

(** The start point of a quadratic segment.  In the first round it is
    taken from the pen, after the pen has moved; in a later round it is
    recovered from [abs_x], [abs_y], which the round before has set. *)
Definition segment_start (is_relative : bool) (prev : option (Q * Q))
    (cx cy x y : Q) : result (Q * Q) :=
  match prev with
  | Some (abs_x, abs_y) =>
      let* start_x :=
        fdiv (abs_x - to_abs_x 0) (scale * POINTS_PER_INCH) in
      let* start_y :=
        fdiv (abs_y - to_abs_y 0) (scale * POINTS_PER_INCH) in
      Ok (start_x, start_y)
  | None =>
      Ok ((cx - (if is_relative then x else 0))%Q,
          (cy - (if is_relative then y else 0))%Q)
  end.

(** The cubic curve drawn for a quadratic one, and the state after
    it. *)
Definition quadratic_curve (ops : list path_op)
    (start_x start_y cpx cpy cx cy : Q) : path_state * (Q * Q) :=
  let cp1x := (start_x + (2 # 3) * (cpx - start_x))%Q in
  let cp1y := (start_y + (2 # 3) * (cpy - start_y))%Q in
  let cp2x := (cx + (2 # 3) * (cpx - cx))%Q in
  let cp2y := (cy + (2 # 3) * (cpy - cy))%Q in
  let abs_x := to_abs_x cx in
  let abs_y := to_abs_y cy in
  ((mkPen cx cy cpx cpy,
    (ops ++ [curveTo (to_abs_x cp1x) (to_abs_y cp1y)
               (to_abs_x cp2x) (to_abs_y cp2y) abs_x abs_y])%list),
   (abs_x, abs_y)).

(** The loop of [Q]/[q]; [prev] holds [abs_x], [abs_y] once a round has
    run ([i > 0]). *)
Fixpoint quadratic_loop (is_relative : bool) (prev : option (Q * Q))
    (gs : list (list Q)) (st : path_state) : result path_state :=
  match gs with
  | [] => Ok st
  | group :: rest =>
      match group with
      | [cpx; cpy; x; y] =>
          let '(p, ops) := st in
          let abs_cpx :=
            if is_relative then (p.(current_x) + cpx)%Q else cpx in
          let abs_cpy :=
            if is_relative then (p.(current_y) + cpy)%Q else cpy in
          let cx := if is_relative then (p.(current_x) + x)%Q else x in
          let cy := if is_relative then (p.(current_y) + y)%Q else y in
          let* start := segment_start is_relative prev cx cy x y in
          let '(st', abs) :=
            quadratic_curve ops (fst start) (snd start) abs_cpx abs_cpy
              cx cy in
          quadratic_loop is_relative (Some abs) rest st'
      | _ => Ok st
      end
  end.

(** The loop of [T]/[t]. *)
Fixpoint smooth_quadratic_loop (is_relative : bool) (prev : option (Q * Q))
    (gs : list (list Q)) (st : path_state) : result path_state :=
  match gs with
  | [] => Ok st
  | group :: rest =>
      match group with
      | [x; y] =>
          let '(p, ops) := st in
          let cpx := (2 * p.(current_x) - p.(last_control_x))%Q in
          let cpy := (2 * p.(current_y) - p.(last_control_y))%Q in
          let cx := if is_relative then (p.(current_x) + x)%Q else x in
          let cy := if is_relative then (p.(current_y) + y)%Q else y in
          let* start := segment_start is_relative prev cx cy x y in
          let '(st', abs) :=
            quadratic_curve ops (fst start) (snd start) cpx cpy cx cy in
          smooth_quadratic_loop is_relative (Some abs) rest st'
      | _ => Ok st
      end
  end.

(** One round of the loop of [A]/[a]: the arc is drawn as a line to its
    end point. *)
Definition arc_group (is_relative : bool) (st : path_state)
    (group : list Q) : path_state :=
  match group with
  | [rx; ry; x_axis_rotation; large_arc; sweep; x; y] =>
      let '(p, ops) := st in
      let cx := if is_relative then (p.(current_x) + x)%Q else x in
      let cy := if is_relative then (p.(current_y) + y)%Q else y in
      (mkPen cx cy p.(last_control_x) p.(last_control_y),
       (ops ++ [lineTo (to_abs_x cx) (to_abs_y cy)])%list)
  | _ => st
  end.

(** The body of [for cmd in commands].  [IndexError] and [ValueError]
    end the command; any other exception leaves the loop. *)
Definition render_command (st : path_state) (cmd : PathCommand)
  : result path_state :=
  let ps := cmd.(params) in
  match cmd.(command) with
  | MOVE => Ok (List.fold_left (point_group moveTo false) (groups 2 ps) st)
  | MOVE_REL =>
      Ok (List.fold_left (point_group moveTo true) (groups 2 ps) st)
  | LINE => Ok (List.fold_left (point_group lineTo false) (groups 2 ps) st)
  | LINE_REL =>
      Ok (List.fold_left (point_group lineTo true) (groups 2 ps) st)
  | HORIZONTAL => Ok (List.fold_left (horizontal_step false) ps st)
  | HORIZONTAL_REL => Ok (List.fold_left (horizontal_step true) ps st)
  | VERTICAL => Ok (List.fold_left (vertical_step false) ps st)
  | VERTICAL_REL => Ok (List.fold_left (vertical_step true) ps st)
  | CUBIC_BEZIER => Ok (List.fold_left (cubic_group false) (groups 6 ps) st)
  | CUBIC_BEZIER_REL =>
      Ok (List.fold_left (cubic_group true) (groups 6 ps) st)
  | CUBIC_BEZIER_SMOOTH =>
      Ok (List.fold_left (smooth_cubic_group false) (groups 4 ps) st)
  | CUBIC_BEZIER_SMOOTH_REL =>
      Ok (List.fold_left (smooth_cubic_group true) (groups 4 ps) st)
  | QUADRATIC_BEZIER => quadratic_loop false None (groups 4 ps) st
  | QUADRATIC_BEZIER_REL => quadratic_loop true None (groups 4 ps) st
  | QUADRATIC_BEZIER_SMOOTH =>
      smooth_quadratic_loop false None (groups 2 ps) st
  | QUADRATIC_BEZIER_SMOOTH_REL =>
      smooth_quadratic_loop true None (groups 2 ps) st
  | ARC => Ok (List.fold_left (arc_group false) (groups 7 ps) st)
  | ARC_REL => Ok (List.fold_left (arc_group true) (groups 7 ps) st)
  | CLOSE | CLOSE_REL =>
      let '(p, ops) := st in Ok (p, (ops ++ [closePath])%list)
  end.

Fixpoint render_commands (commands : list PathCommand) (st : path_state)
  : result path_state :=
  match commands with
  | [] => Ok st
  | cmd :: rest =>
      let* st' := render_command st cmd in render_commands rest st'
  end.

(** The path [render_svg_path] has built when it turns to opacity, fill
    and stroke: [None] when there is no command and the method returns
    at once.  An exception of the parser or of the loop is caught by the
    outer handler, which logs it and draws nothing. *)
Definition build_path (path_data : string) : result (option (list path_op)) :=
  let* commands := parse path_data in
  match commands with
  | [] => Ok None
  | _ :: _ =>
      let* st := render_commands commands (mkPen 0 0 0 0, []) in
      Ok (Some (snd st))
  end.

End Render.

End ShapePath.

(** *** [ClippingRenderer.create_svg_path] *)

Module ClipPath.

Import PyStr SvgParser PathOps.
Local Open Scope string_scope.

Definition upper_char (c : ascii) : ascii :=
  let n := nat_of_ascii c in
  if (97 <=? n)%nat && (n <=? 122)%nat then ascii_of_nat (n - 32) else c.

Fixpoint upper (s : string) : string :=
  match s with
  | EmptyString => EmptyString
  | String c r => String (upper_char c) (upper r)
  end.

Record clip_pen : Type := mkClipPen {
  current_x : Q;
  current_y : Q;
  start_x : Q;
  start_y : Q
}.

Section Create.

(** [mask.scale] and the position of the image, in points. *)
Variables scale image_x image_y : Q.

(** The body of [for cmd in commands].  The path is a
    [reportlab.graphics.shapes.Path]: that class has the methods
    [moveTo], [lineTo], [curveTo] and [closePath] and none called
    [close], so that [path.close()] raises [AttributeError] before the
    pen is moved back to the start. *)
Definition create_step (st : clip_pen * list path_op) (cmd : PathCommand)
  : result (clip_pen * list path_op) :=
  let '(p, ops) := st in
  let cmd_type := upper (SVGCommand_value cmd.(command)) in
  let params := cmd.(params) in
  if String.eqb cmd_type "M" then
    match params with
    | p0 :: p1 :: _ =>
        let x := (p0 * scale)%Q in
        let y := (p1 * scale)%Q in
        Ok (mkClipPen x y x y,
            (ops ++ [moveTo (image_x + x) (image_y + y)])%list)
    | _ => Ok st
    end
  else if String.eqb cmd_type "L" then
    match params with
    | p0 :: p1 :: _ =>
        let x := (p0 * scale)%Q in
        let y := (p1 * scale)%Q in
        Ok (mkClipPen x y p.(start_x) p.(start_y),
            (ops ++ [lineTo (image_x + x) (image_y + y)])%list)
    | _ => Ok st
    end
  else if String.eqb cmd_type "H" then
    match params with
    | p0 :: _ =>
        let x := (p0 * scale)%Q in
        Ok (mkClipPen x p.(current_y) p.(start_x) p.(start_y),
            (ops ++ [lineTo (image_x + x) (image_y + p.(current_y))])%list)
    | _ => Ok st
    end
  else if String.eqb cmd_type "V" then
    match params with
    | p0 :: _ =>
        let y := (p0 * scale)%Q in
        Ok (mkClipPen p.(current_x) y p.(start_x) p.(start_y),
            (ops ++ [lineTo (image_x + p.(current_x)) (image_y + y)])%list)
    | _ => Ok st
    end
  else if String.eqb cmd_type "C" then
    match params with
    | p0 :: p1 :: p2 :: p3 :: p4 :: p5 :: _ =>
        let cp1x := (p0 * scale)%Q in
        let cp1y := (p1 * scale)%Q in
        let cp2x := (p2 * scale)%Q in
        let cp2y := (p3 * scale)%Q in
        let x := (p4 * scale)%Q in
        let y := (p5 * scale)%Q in
        Ok (mkClipPen x y p.(start_x) p.(start_y),
            (ops ++ [curveTo (image_x + cp1x) (image_y + cp1y)
                       (image_x + cp2x) (image_y + cp2y)
                       (image_x + x) (image_y + y)])%list)
    | _ => Ok st
    end
  else if String.eqb cmd_type "Q" then
    match params with
    | p0 :: p1 :: p2 :: p3 :: _ =>
        let cpx := (p0 * scale)%Q in
        let cpy := (p1 * scale)%Q in
        let x := (p2 * scale)%Q in
        let y := (p3 * scale)%Q in
        let cp1x := (p.(current_x) + (2 # 3) * (cpx - p.(current_x)))%Q in
        let cp1y := (p.(current_y) + (2 # 3) * (cpy - p.(current_y)))%Q in
        let cp2x := (x + (2 # 3) * (cpx - x))%Q in
        let cp2y := (y + (2 # 3) * (cpy - y))%Q in
        Ok (mkClipPen x y p.(start_x) p.(start_y),
            (ops ++ [curveTo (image_x + cp1x) (image_y + cp1y)
                       (image_x + cp2x) (image_y + cp2y)
                       (image_x + x) (image_y + y)])%list)
    | _ => Ok st
    end
  else if String.eqb cmd_type "Z" then
    Raise (AttributeError "'Path' object has no attribute 'close'")
  else Ok st.

(** The loop [for cmd in commands]. *)
Fixpoint create_commands (commands : list PathCommand)
    (st : clip_pen * list path_op) : result (clip_pen * list path_op) :=
  match commands with
  | [] => Ok st
  | cmd :: rest =>
      let* st' := create_step st cmd in create_commands rest st'
  end.

Definition create_svg_path (path_data : string) : result (list path_op) :=
  let* commands := parse path_data in
  let* st := create_commands commands (mkClipPen 0 0 0 0, []) in
  Ok (snd st).

End Create.

End ClipPath.

(** * Properties *)

(** ** The path parser *)

Module SvgParserFacts.

Import PyStr SvgParser.
Local Open Scope string_scope.

#[local] Arguments is_command_letter : simpl never.
#[local] Arguments is_space : simpl never.

(** Every character of the string is outside [command_letters]. *)
Fixpoint command_free (s : string) : bool :=
  match s with
  | EmptyString => true
  | String c r => negb (is_command_letter c) && command_free r
  end.

(** The shape of the list [COMMAND_PATTERN.split] returns: text, then
    letter and text any number of times. *)
Inductive alternating : list string -> Prop :=
| alt_last (t : string) :
    command_free t = true -> alternating [t]
| alt_more (t c : string) (l : list string) :
    command_free t = true -> _is_command c = true ->
    alternating l -> alternating (t :: c :: l).

(** No two neighbours of the list are both texts. *)
Fixpoint no_adjacent_text (segs : list string) : bool :=
  match segs with
  | a :: rest =>
      match rest with
      | b :: _ => (_is_command a || _is_command b) && no_adjacent_text rest
      | [] => true
      end
  | [] => true
  end.

Definition starts_with_command (segs : list string) : bool :=
  match segs with
  | a :: _ => _is_command a
  | [] => true
  end.

Lemma command_letter_cases (c : ascii) :
  is_command_letter c = true -> In c (list_ascii_of_string command_letters).
Proof.
  unfold is_command_letter, command_letters. cbn [mem_char].
  intros H.
  repeat (apply orb_prop in H; destruct H as [H | H];
          [ apply Ascii.eqb_eq in H; subst c; cbn; tauto | ]).
  discriminate H.
Qed.

Lemma command_letter_not_space (c : ascii) :
  is_command_letter c = true -> is_space c = false.
Proof.
  intros H. apply command_letter_cases in H. cbn in H.
  repeat (destruct H as [H | H]; [ subst c; reflexivity | ]).
  contradiction.
Qed.

Lemma is_command_inv (s : string) :
  _is_command s = true ->
  exists c, s = String c EmptyString /\ is_command_letter c = true.
Proof.
  destruct s as [| c [| d r]]; cbn; try discriminate.
  intros H. exists c. split; [reflexivity | exact H].
Qed.

(** [_parse_command] is only handed segments [_is_command] accepted, and
    each of those is the value of an enumeration member. *)
Lemma is_command_value (s : string) :
  _is_command s = true -> exists cmd, SVGCommand_of_value s = Some cmd.
Proof.
  intros H. apply is_command_inv in H. destruct H as [c [-> H]].
  apply command_letter_cases in H. cbn in H.
  repeat (destruct H as [H | H]; [ subst c; eexists; reflexivity | ]).
  contradiction.
Qed.

Lemma command_free_not_command (t : string) :
  command_free t = true -> _is_command t = false.
Proof.
  destruct t as [| c [| d r]]; cbn; try reflexivity.
  intros H. apply andb_prop in H. destruct H as [H _].
  now apply negb_true_iff in H.
Qed.

Lemma command_free_lstrip (t : string) :
  command_free t = true -> command_free (lstrip t) = true.
Proof.
  unfold lstrip. induction t as [| c r IH]; cbn; [reflexivity |].
  intros H. destruct (is_space c).
  - apply IH. apply andb_prop in H. tauto.
  - exact H.
Qed.

Lemma command_free_rstrip (t : string) :
  command_free t = true -> command_free (rstrip t) = true.
Proof.
  unfold rstrip. induction t as [| c r IH]; cbn; [reflexivity |].
  intros H. apply andb_prop in H. destruct H as [Hc Hr].
  destruct (is_empty (rstrip_by is_space r) && is_space c); cbn;
    [reflexivity |].
  rewrite Hc. cbn. now apply IH.
Qed.

Lemma command_free_strip (t : string) :
  command_free t = true -> command_free (strip t) = true.
Proof.
  intros H. unfold strip, strip_by.
  apply (command_free_rstrip (lstrip t)). now apply command_free_lstrip.
Qed.

Lemma strip_command (c : string) :
  _is_command c = true -> strip c = c.
Proof.
  intros H. apply is_command_inv in H. destruct H as [ch [-> H]].
  apply command_letter_not_space in H.
  unfold strip, strip_by. cbn. rewrite H. cbn. rewrite H. reflexivity.
Qed.

Lemma split_alternating (s : string) : alternating (COMMAND_PATTERN_split s).
Proof.
  induction s as [| c r IH]; cbn.
  - now apply alt_last.
  - destruct (is_command_letter c) eqn:Hc.
    + apply alt_more; [reflexivity | exact Hc | exact IH].
    + inversion IH as [t Ht Heq | t d l Ht Hd Hl Heq].
      * apply alt_last. cbn. now rewrite Hc, Ht.
      * apply alt_more; [cbn; now rewrite Hc, Ht | exact Hd | exact Hl].
Qed.

Lemma strip_segments_cons (t : string) (l : list string) :
  strip_segments (t :: l) =
  if truthy (strip t) then strip t :: strip_segments l else strip_segments l.
Proof.
  unfold strip_segments. cbn [List.filter].
  destruct (truthy (strip t)); reflexivity.
Qed.

Lemma strip_segments_command (c : string) (l : list string) :
  _is_command c = true -> strip_segments (c :: l) = c :: strip_segments l.
Proof.
  intros Hc. rewrite strip_segments_cons, (strip_command c Hc).
  apply is_command_inv in Hc. destruct Hc as [ch [-> _]]. reflexivity.
Qed.

(** Stripping and dropping blank texts keeps texts apart. *)
Lemma strip_segments_alternating (l : list string) :
  alternating l ->
  no_adjacent_text (strip_segments l) = true
  /\ (forall t rest, l = t :: rest -> truthy (strip t) = false ->
        starts_with_command (strip_segments l) = true).
Proof.
  induction 1 as [t Ht | t c l Ht Hc Hl [IH1 IH2]].
  - split.
    + rewrite strip_segments_cons. now destruct (truthy (strip t)).
    + intros t' rest [= <- <-] Hblank. rewrite strip_segments_cons.
      now rewrite Hblank.
  - assert (Hcl : no_adjacent_text (c :: strip_segments l) = true).
    { cbn [no_adjacent_text]. destruct (strip_segments l) eqn:E;
        [reflexivity |].
      rewrite Hc. cbn. exact IH1. }
    split.
    + rewrite strip_segments_cons, (strip_segments_command c l Hc).
      destruct (truthy (strip t)); [| exact Hcl].
      change (no_adjacent_text (strip t :: c :: strip_segments l))
        with ((_is_command (strip t) || _is_command c)
              && no_adjacent_text (c :: strip_segments l)).
      now rewrite Hc, orb_true_r, Hcl.
    + intros t' rest [= <- <-] Hblank.
      rewrite strip_segments_cons, Hblank, (strip_segments_command c l Hc).
      exact Hc.
Qed.

(** The handler of the loop lets only [ZeroDivisionError] through. *)
Lemma try_parse_command_outcome (c : string) (ps : list Q) (st : parse_state) :
  (exists st', try_parse_command c ps st = Ok st')
  \/ try_parse_command c ps st = Raise ZeroDivisionError.
Proof.
  unfold try_parse_command, _parse_command.
  destruct (SVGCommand_of_value c) as [cmd |]; [| left; eexists; reflexivity].
  destruct (_get_expected_param_count cmd) as [k |];
    [| left; eexists; reflexivity].
  destruct (negb (Z.of_nat (length ps) =? k)%Z); [| left; eexists; reflexivity].
  unfold py_mod. destruct (k =? 0)%Z; cbn; [right; reflexivity |].
  destruct (negb (Z.of_nat (length ps) mod k =? 0)%Z);
    left; eexists; reflexivity.
Qed.

Lemma no_adjacent_text_cons2 (a b : string) (l : list string) :
  no_adjacent_text (a :: b :: l) =
  (_is_command a || _is_command b) && no_adjacent_text (b :: l).
Proof. reflexivity. Qed.

(** On a segment list that starts with a command and keeps texts apart
    the loop never raises [ValueError]. *)
Lemma parse_loop_outcome (n : nat) :
  forall (segs : list string) (st : parse_state),
    (length segs <= n)%nat ->
    no_adjacent_text segs = true ->
    starts_with_command segs = true ->
    (exists st', parse_loop segs st = Ok st')
    \/ parse_loop segs st = Raise ZeroDivisionError.
Proof.
  induction n as [| n IH]; intros segs st Hlen Hadj Hstart.
  - destruct segs; [left; eexists; reflexivity | cbn in Hlen; lia].
  - destruct segs as [| seg rest]; [left; eexists; reflexivity |].
    cbn [starts_with_command] in Hstart.
    cbn [parse_loop]. rewrite Hstart. cbn [negb].
    destruct rest as [| p rest'].
    + apply try_parse_command_outcome.
    + rewrite no_adjacent_text_cons2 in Hadj. apply andb_prop in Hadj.
      destruct Hadj as [_ Hadj].
      destruct (_is_command p) eqn:Hp; cbn [negb].
      * destruct (try_parse_command_outcome seg [] st) as [[st' E] | E];
          rewrite E; [| right; reflexivity].
        apply IH; [cbn in *; lia | exact Hadj | exact Hp].
      * destruct (try_parse_command_outcome seg (_parse_numbers p) st)
          as [[st' E] | E]; rewrite E; [| right; reflexivity].
        destruct rest' as [| q rest''];
          [left; eexists; reflexivity |].
        rewrite no_adjacent_text_cons2 in Hadj. apply andb_prop in Hadj.
        destruct Hadj as [Hq Hadj]. rewrite Hp in Hq.
        apply IH; [cbn in *; lia | exact Hadj | exact Hq].
Qed.

Lemma lstrip_head (s : string) (c : ascii) (r : string) :
  lstrip s = String c r -> is_space c = false.
Proof.
  unfold lstrip. induction s as [| d t IH]; cbn; [discriminate |].
  destruct (is_space d) eqn:Hd; [exact IH |].
  intros [= <- <-]. exact Hd.
Qed.

Lemma strip_head (s : string) (c : ascii) (r : string) :
  strip s = String c r -> is_space c = false.
Proof.
  unfold strip, strip_by. fold (lstrip s).
  destruct (lstrip s) as [| d t] eqn:E; cbn; [discriminate |].
  pose proof (lstrip_head s d t E) as Hd. rewrite Hd, andb_false_r.
  intros [= <- _]. exact Hd.
Qed.

Lemma strip_keeps_head (c : ascii) (t : string) :
  is_space c = false -> exists t', strip (String c t) = String c t'.
Proof.
  intros Hc. unfold strip, strip_by. cbn. rewrite Hc. cbn.
  rewrite Hc, andb_false_r. eexists. reflexivity.
Qed.

Lemma value_is_command (c : string) (cmd : SVGCommand) :
  SVGCommand_of_value c = Some cmd -> _is_command c = true.
Proof.
  unfold SVGCommand_of_value. intros H. apply find_some in H.
  destruct H as [_ H]. apply String.eqb_eq in H. subst c.
  destruct cmd; reflexivity.
Qed.

Definition initial_state : parse_state := mkParseState [] [].

Lemma parse_logged_strip (s : string) (c : ascii) (rest : string) :
  strip s = String c rest ->
  parse_logged s = parse_loop (segments_of (String c rest)) initial_state.
Proof. intros H. unfold parse_logged. rewrite H. reflexivity. Qed.

(** A [Z] or [z] followed by at least one number leaves the loop with
    [ZeroDivisionError], whatever came before and whatever follows. *)
Lemma close_with_parameters (c seg : string) (rest : list string)
    (st : parse_state) :
  c = "Z" \/ c = "z" ->
  _is_command seg = false ->
  _parse_numbers seg <> [] ->
  parse_loop (c :: seg :: rest) st = Raise ZeroDivisionError.
Proof.
  intros Hc Hseg Hps.
  assert (E : try_parse_command c (_parse_numbers seg) st
              = Raise ZeroDivisionError).
  { destruct (_parse_numbers seg) as [| q qs]; [contradiction |].
    destruct Hc as [-> | ->]; reflexivity. }
  cbn [parse_loop]. rewrite Hseg.
  replace (_is_command c) with true by (destruct Hc as [-> | ->]; reflexivity).
  cbn [negb]. now rewrite E.
Qed.

(** C9.  The parser does not always end in a list or a [ValueError]: on
    ["M 0 0 Z 5"] the close command has expected count 0 and one
    parameter, the count check takes [1 % 0], and the
    [ZeroDivisionError] passes the [except ValueError] handler and leaves
    [parse]. *)
Theorem parse_close_with_parameter_raises_zero_division :
  _get_expected_param_count CLOSE = Some 0%Z
  /\ segments_of "M 0 0 Z 5" = ["M"; "0 0"; "Z"; "5"]
  /\ _parse_command "Z" [5%Q] = Raise ZeroDivisionError
  /\ try_parse_command "Z" [5%Q] initial_state = Raise ZeroDivisionError
  /\ parse "M 0 0 Z 5" = Raise ZeroDivisionError
  /\ parse "M 0 0 L 1 1 z 1 2" = Raise ZeroDivisionError.
Proof. repeat split; vm_compute; reflexivity. Qed.

(** C2, as the code has it.  A command with a non-zero expected count [k]
    followed by a parameter segment takes one round of the loop and the
    loop goes on with the rest: the command is appended when the number
    of parameters is a multiple of [k], and is left out with one logged
    warning when it is not.  The parse does not fail on the mismatch. *)
Theorem param_count_mismatch_skips_command (c seg : string)
    (cmd : SVGCommand) (k : Z) (rest : list string) (st : parse_state) :
  SVGCommand_of_value c = Some cmd ->
  _get_expected_param_count cmd = Some k ->
  k <> 0%Z ->
  _is_command seg = false ->
  exists w,
    parse_loop (c :: seg :: rest) st =
    parse_loop rest
      (if (Z.of_nat (length (_parse_numbers seg)) mod k =? 0)%Z
       then mkParseState
              (commands st ++ [mkPathCommand cmd (_parse_numbers seg)])
              (warnings st)
       else mkParseState (commands st) (warnings st ++ [w])).
Proof.
  intros Hc Hk Hk0 Hseg.
  pose proof (value_is_command c cmd Hc) as Hcmd.
  cbn [parse_loop]. rewrite Hcmd, Hseg. cbn [negb].
  unfold try_parse_command, _parse_command. rewrite Hc, Hk.
  unfold py_mod. apply Z.eqb_neq in Hk0. rewrite Hk0. cbn [bind].
  destruct (Z.of_nat (length (_parse_numbers seg)) mod k =? 0)%Z eqn:Hm;
    cbn [negb].
  - exists EmptyString.
    destruct (negb (Z.of_nat (length (_parse_numbers seg)) =? k)%Z);
      reflexivity.
  - destruct (Z.of_nat (length (_parse_numbers seg)) =? k)%Z eqn:Hn.
    + apply Z.eqb_eq in Hn. rewrite Hn, Z_mod_same_full in Hm. discriminate.
    + cbn [negb]. eexists. reflexivity.
Qed.

Lemma param_count_mismatch_skips_command_witness :
  exists w,
    parse_loop ["L"; "5"; "Z"] (mkParseState [mkPathCommand MOVE [10; 10]%Q] []) =
    parse_loop ["Z"]
      (if (Z.of_nat (length (_parse_numbers "5")) mod 2 =? 0)%Z
       then mkParseState
              ([mkPathCommand MOVE [10; 10]%Q]
               ++ [mkPathCommand LINE (_parse_numbers "5")]) []
       else mkParseState [mkPathCommand MOVE [10; 10]%Q] ([] ++ [w])).
Proof.
  apply (param_count_mismatch_skips_command "L" "5" LINE 2 ["Z"]
           (mkParseState [mkPathCommand MOVE [10; 10]%Q] []));
    [reflexivity | reflexivity | lia | reflexivity].
Defined.

(** C2, as stated, fails: in ["M 10 10 L 5 Z"] the command [L], which
    expects 2 parameters, is followed by 1, and the parse returns the
    list of the other commands and one warning. *)
Lemma parse_returns_despite_mismatch :
  segments_of "M 10 10 L 5 Z" = ["M"; "10 10"; "L"; "5"; "Z"]
  /\ _get_expected_param_count LINE = Some 2%Z
  /\ length (_parse_numbers "5") = 1%nat
  /\ parse_logged "M 10 10 L 5 Z" =
     Ok (mkParseState
           [mkPathCommand MOVE [10; 10]%Q; mkPathCommand CLOSE []]
           ["Skipping unsupported SVG command 'L': Command L expects 2 parameters, got 1"])
  /\ parse "M 10 10 L 5 Z" =
     Ok [mkPathCommand MOVE [10; 10]%Q; mkPathCommand CLOSE []].
Proof. repeat split; vm_compute; reflexivity. Qed.

(** What a letter outside [command_letters] does depends on where the
    stripped input starts.  When it starts with a command letter, no
    [ValueError] leaves [parse]: the result is a command list, or the
    [ZeroDivisionError] of a close command with parameters.  When it
    starts with any other character, the first segment is not a command
    and the whole parse is aborted. *)
Theorem parse_unknown_letter (s : string) (c : ascii) (rest : string) :
  strip s = String c rest ->
  if is_command_letter c
  then (exists cmds, parse s = Ok cmds) \/ parse s = Raise ZeroDivisionError
  else exists seg,
         parse s = Raise (ValueError ("Expected command, got: " ++ seg)).
Proof.
  intros Hs. unfold parse. rewrite (parse_logged_strip s c rest Hs).
  pose proof (strip_head s c rest Hs) as Hsp.
  pose proof (split_alternating (String c rest)) as Halt.
  destruct (strip_segments_alternating _ Halt) as [Hadj Hstart].
  unfold segments_of. cbn [COMMAND_PATTERN_split] in *.
  destruct (is_command_letter c) eqn:Hc.
  - specialize (Hstart _ _ eq_refl eq_refl).
    destruct (parse_loop_outcome _ _ initial_state (Nat.le_refl _) Hadj Hstart)
      as [[st' E] | E]; rewrite E; cbn [bind].
    + left. eexists. reflexivity.
    + right. reflexivity.
  - pose proof (split_alternating rest) as Hrest.
    destruct (COMMAND_PATTERN_split rest) as [| t l] eqn:E;
      [inversion Hrest |].
    assert (Hfree : command_free (String c t) = true)
      by (inversion Halt; assumption).
    destruct (strip_keeps_head c t Hsp) as [t' Ht'].
    rewrite strip_segments_cons, Ht'. cbn [truthy is_empty negb].
    rewrite <- Ht'. cbn [parse_loop].
    rewrite (command_free_not_command _ (command_free_strip _ Hfree)).
    cbn [negb bind]. eexists. reflexivity.
Qed.

Lemma parse_unknown_letter_witness :
  (exists cmds, parse "M 10 10 X 5 5 L 1 1" = Ok cmds)
  \/ parse "M 10 10 X 5 5 L 1 1" = Raise ZeroDivisionError.
Proof.
  exact (parse_unknown_letter "M 10 10 X 5 5 L 1 1" "M" " 10 10 X 5 5 L 1 1"
           eq_refl).
Defined.

(** C3.  The handler of [parse] is written to skip an unsupported
    command with a warning, and [_parse_command] raises
    ["Unknown SVG command"] for it, but no unsupported letter reaches
    either: [COMMAND_PATTERN] splits the input at the supported letters
    only.  ["B 1 2 M 0 0 L 5 5"] holds the unsupported letter [B]; the
    parse is aborted with [ValueError] and returns no list, although the
    handler, given [B], would skip it with a warning.  Further in, the
    letter is dropped without a warning and its numbers are counted for
    the command before it: in ["M 0 0 B 1 2 L 5 5"] the command [M] gets
    four parameters, and in ["M 10 10 X 5 L 1 1"] it gets three and is
    then the command left out, with one warning that names [M]. *)
Lemma parse_aborts_on_leading_unknown_letter :
  is_command_letter "B" = false
  /\ try_parse_command "B" [1; 2]%Q initial_state
     = Ok (mkParseState []
             ["Skipping unsupported SVG command 'B': Unknown SVG command: B"])
  /\ segments_of "B 1 2 M 0 0 L 5 5" = ["B 1 2"; "M"; "0 0"; "L"; "5 5"]
  /\ parse "B 1 2 M 0 0 L 5 5" =
     Raise (ValueError "Expected command, got: B 1 2")
  /\ parse_logged "M 0 0 B 1 2 L 5 5" =
     Ok (mkParseState
           [mkPathCommand MOVE [0; 0; 1; 2]%Q; mkPathCommand LINE [5; 5]%Q]
           [])
  /\ is_command_letter "X" = false
  /\ parse_logged "M 10 10 X 5 L 1 1" =
     Ok (mkParseState [mkPathCommand LINE [1; 1]%Q]
           ["Skipping unsupported SVG command 'M': Command M expects 2 parameters, got 3"]).
Proof. repeat split; vm_compute; reflexivity. Qed.

End SvgParserFacts.

(** ** Shrinking a line to a width *)

Module ShrinkFacts.

Import PyStr TextUtils.
Local Open Scope string_scope.
Local Open Scope Z_scope.

Lemma mid_between (low high : Z) :
  low <= high -> low <= (low + high) / 2 <= high.
Proof. intros H. Z.to_euclidean_division_equations. lia. Qed.

Lemma line_height_nonneg (size : Z) :
  0 <= size -> Qle_bool 0 (calculate_line_height size) = true.
Proof.
  intros H. apply Qle_bool_iff. unfold calculate_line_height.
  apply Qmult_le_0_compat; [| discriminate].
  unfold Qle. cbn. lia.
Qed.

Section SingleLine.

Variable stringWidth : string -> string -> Z -> Q.
Variables content font_name : string.

(** The test of the loop: the line is no wider than the box at [size]. *)
Definition fits (max_width : Q) (size : Z) : bool :=
  Qle_bool (stringWidth content font_name size) max_width.

(** A measure that grows with the font size. *)
Definition monotone_in_size : Prop :=
  forall s1 s2 : Z,
    s1 <= s2 ->
    (stringWidth content font_name s1 <= stringWidth content font_name s2)%Q.

(** A measure that is not negative at the sizes a font can have. *)
Definition nonnegative : Prop :=
  forall s : Z, 0 <= s -> (0 <= stringWidth content font_name s)%Q.

Lemma measure_single_fits (size : Z) (max_width : Q) (m : TextMetrics) :
  measure_text stringWidth content font_name size max_width None None = Ok m ->
  fits_within_bounds m = fits max_width size.
Proof.
  unfold measure_text, TextMetrics_new, fits.
  destruct (negb (Qle_bool 0 (stringWidth content font_name size)));
    [discriminate |].
  destruct (negb (Qle_bool 0 (calculate_line_height size))); [discriminate |].
  cbn. intros [= <-]. cbn. apply andb_true_r.
Qed.

Lemma measure_single_returns (size : Z) (max_width : Q) :
  nonnegative -> 0 <= size ->
  exists m,
    measure_text stringWidth content font_name size max_width None None = Ok m.
Proof.
  intros Hnn Hsize. unfold measure_text, TextMetrics_new.
  pose proof (Hnn size Hsize) as Hw. apply Qle_bool_iff in Hw. rewrite Hw.
  rewrite (line_height_nonneg size Hsize). cbn. eexists. reflexivity.
Qed.

Lemma fits_downward (max_width : Q) (s1 s2 : Z) :
  monotone_in_size -> s1 <= s2 ->
  fits max_width s2 = true -> fits max_width s1 = true.
Proof.
  unfold fits. intros Hmono Hle H. apply Qle_bool_iff in H.
  apply Qle_bool_iff. eapply Qle_trans; [apply Hmono, Hle | exact H].
Qed.

Lemma fits_wider (w1 w2 : Q) (s : Z) :
  (w1 <= w2)%Q -> fits w1 s = true -> fits w2 s = true.
Proof.
  unfold fits. intros Hle H. apply Qle_bool_iff in H.
  apply Qle_bool_iff. eapply Qle_trans; eassumption.
Qed.

(** One round of the loop, spelled out. *)
Lemma shrink_loop_round (max_width : Q) (fuel : nat) (low high best : Z) :
  low <= high ->
  shrink_loop stringWidth content font_name max_width (S fuel) low high best =
  match measure_text stringWidth content font_name ((low + high) / 2)
          max_width None None with
  | Ok m =>
      if fits max_width ((low + high) / 2)
      then shrink_loop stringWidth content font_name max_width fuel
             ((low + high) / 2 + 1) high ((low + high) / 2)
      else shrink_loop stringWidth content font_name max_width fuel
             low ((low + high) / 2 - 1) best
  | Raise e => Raise e
  end.
Proof.
  intros Hle. cbn [shrink_loop]. apply Z.leb_le in Hle. rewrite Hle.
  destruct (measure_text _ _ _ _ _ _ _) as [m | e] eqn:E; cbn [bind];
    [| reflexivity].
  now rewrite (measure_single_fits _ _ _ E).
Qed.

Lemma shrink_loop_exit (max_width : Q) (fuel : nat) (low high best : Z) :
  high < low ->
  shrink_loop stringWidth content font_name max_width fuel low high best
  = Ok best.
Proof.
  intros H. destruct fuel; cbn [shrink_loop]; [reflexivity |].
  apply Z.leb_gt in H. now rewrite H.
Qed.

(** The fuel [shrink_fuel low high] is enough: with that much or more the
    loop ends by its own exit test, so more fuel changes nothing. *)
Lemma shrink_loop_fuel (max_width : Q) (fuel : nat) :
  forall (extra : nat) (low high best : Z),
    (shrink_fuel low high <= fuel)%nat ->
    shrink_loop stringWidth content font_name max_width (fuel + extra)
      low high best
    = shrink_loop stringWidth content font_name max_width fuel low high best.
Proof.
  unfold shrink_fuel.
  induction fuel as [| fuel IH]; intros extra low high best Hfuel.
  - rewrite !shrink_loop_exit by lia. reflexivity.
  - destruct (Z_le_gt_dec low high) as [Hle | Hgt].
    + change (S fuel + extra)%nat with (S (fuel + extra)).
      rewrite !shrink_loop_round by exact Hle.
      pose proof (mid_between low high Hle) as Hmid.
      destruct (measure_text _ _ _ _ _ _ _); [| reflexivity].
      destruct (fits max_width ((low + high) / 2)); apply IH; lia.
    + rewrite !shrink_loop_exit by lia. reflexivity.
Qed.

(** The result is the starting [best] or one of the sizes searched. *)
Lemma shrink_loop_range (max_width : Q) (fuel : nat) :
  forall (low high best r : Z),
    shrink_loop stringWidth content font_name max_width fuel low high best
    = Ok r ->
    r = best \/ low <= r <= high.
Proof.
  induction fuel as [| fuel IH]; intros low high best r H.
  - cbn in H. injection H as <-. now left.
  - destruct (Z_le_gt_dec low high) as [Hle | Hgt].
    + rewrite shrink_loop_round in H by exact Hle.
      pose proof (mid_between low high Hle) as Hmid.
      destruct (measure_text _ _ _ _ _ _ _); [| discriminate].
      destruct (fits max_width ((low + high) / 2));
        apply IH in H; destruct H as [-> | H]; auto; right; lia.
    + rewrite shrink_loop_exit in H by lia. injection H as <-. now left.
Qed.

(** With a monotone measure the loop finds the largest size that fits:
    either nothing in [low .. high] fits and [best] comes back, or the
    result fits and nothing above it does. *)
Lemma shrink_loop_largest (max_width : Q) (fuel : nat) :
  monotone_in_size ->
  forall (low high best r : Z),
    (shrink_fuel low high <= fuel)%nat ->
    shrink_loop stringWidth content font_name max_width fuel low high best
    = Ok r ->
    (r = best /\ forall s, low <= s <= high -> fits max_width s = false)
    \/ (low <= r <= high /\ fits max_width r = true
        /\ forall s, r < s <= high -> fits max_width s = false).
Proof.
  intros Hmono. unfold shrink_fuel.
  induction fuel as [| fuel IH]; intros low high best r Hfuel H.
  - rewrite shrink_loop_exit in H by lia. injection H as <-.
    left. split; [reflexivity | intros s Hs; lia].
  - destruct (Z_le_gt_dec low high) as [Hle | Hgt].
    + rewrite shrink_loop_round in H by exact Hle.
      pose proof (mid_between low high Hle) as Hmid.
      destruct (measure_text _ _ _ _ _ _ _); [| discriminate].
      destruct (fits max_width ((low + high) / 2)) eqn:Hfit.
      * apply IH in H; [| lia].
        destruct H as [[-> Hnone] | [Hr [Hrfit Habove]]].
        -- right. split; [lia |]. split; [exact Hfit |].
           intros s Hs. apply Hnone. lia.
        -- right. split; [lia |]. split; [exact Hrfit | exact Habove].
      * assert (Hupper : forall s, (low + high) / 2 <= s ->
                                   fits max_width s = false).
        { intros s Hs. destruct (fits max_width s) eqn:E; [| reflexivity].
          rewrite (fits_downward max_width _ s Hmono Hs E) in Hfit.
          discriminate. }
        apply IH in H; [| lia].
        destruct H as [[-> Hnone] | [Hr [Hrfit Habove]]].
        -- left. split; [reflexivity |]. intros s Hs.
           destruct (Z_lt_le_dec s ((low + high) / 2));
             [apply Hnone; lia | now apply Hupper].
        -- right. split; [lia |]. split; [exact Hrfit |].
           intros s Hs.
           destruct (Z_lt_le_dec s ((low + high) / 2));
             [apply Habove; lia | now apply Hupper].
    + rewrite shrink_loop_exit in H by lia. injection H as <-.
      left. split; [reflexivity | intros s Hs; lia].
Qed.

(** With a non-negative measure and non-negative sizes no measurement
    fails validation, and the loop returns. *)
Lemma shrink_loop_returns (max_width : Q) (fuel : nat) :
  nonnegative ->
  forall (low high best : Z),
    0 <= low ->
    exists r,
      shrink_loop stringWidth content font_name max_width fuel low high best
      = Ok r.
Proof.
  intros Hnn.
  induction fuel as [| fuel IH]; intros low high best Hlow.
  - eexists. reflexivity.
  - destruct (Z_le_gt_dec low high) as [Hle | Hgt].
    + rewrite shrink_loop_round by exact Hle.
      pose proof (mid_between low high Hle) as Hmid.
      destruct (measure_single_returns ((low + high) / 2) max_width Hnn)
        as [m ->]; [lia |].
      destruct (fits max_width ((low + high) / 2)); apply IH; lia.
    + rewrite shrink_loop_exit by lia. eexists. reflexivity.
Qed.

Lemma shrink_to_fit_range (initial_size min_size r : Z) (max_width : Q) :
  shrink_to_fit stringWidth content font_name initial_size max_width min_size
  = Ok r ->
  min_size <= r /\ (min_size <= initial_size -> r <= initial_size).
Proof.
  unfold shrink_to_fit. intros H. apply shrink_loop_range in H. lia.
Qed.

Lemma shrink_to_fit_monotone (initial_size min_size r1 r2 : Z) (w1 w2 : Q) :
  monotone_in_size ->
  (w1 <= w2)%Q ->
  shrink_to_fit stringWidth content font_name initial_size w1 min_size = Ok r1 ->
  shrink_to_fit stringWidth content font_name initial_size w2 min_size = Ok r2 ->
  r1 <= r2.
Proof.
  intros Hmono Hw H1 H2.
  pose proof (shrink_to_fit_range _ _ _ _ H2) as [Hmin2 _].
  unfold shrink_to_fit in H1, H2.
  apply (shrink_loop_largest w1 _ Hmono) in H1; [| apply Nat.le_refl].
  apply (shrink_loop_largest w2 _ Hmono) in H2; [| apply Nat.le_refl].
  destruct H1 as [[-> _] | [Hr1 [Hfit1 _]]]; [exact Hmin2 |].
  pose proof (fits_wider w1 w2 r1 Hw Hfit1) as Hfit12.
  destruct H2 as [[-> Hnone] | [Hr2 [_ Habove]]].
  - rewrite (Hnone r1 Hr1) in Hfit12. discriminate.
  - destruct (Z_le_gt_dec r1 r2) as [Hle | Hgt]; [exact Hle |].
    rewrite (Habove r1) in Hfit12 by lia. discriminate.
Qed.

End SingleLine.

Lemma courier_width_monotone (content font_name : string) :
  monotone_in_size courier_width content font_name.
Proof.
  intros s1 s2 H. unfold courier_width.
  apply Qmult_le_compat_r; [| discriminate].
  rewrite !(Qmult_comm (inject_Z (Z.of_nat _))).
  apply Qmult_le_compat_r; [| unfold Qle; cbn; lia].
  unfold Qle. cbn. lia.
Qed.

Lemma courier_width_nonnegative (content font_name : string) :
  nonnegative courier_width content font_name.
Proof.
  intros s Hs. unfold courier_width.
  apply Qmult_le_0_compat; [| discriminate].
  apply Qmult_le_0_compat; unfold Qle; cbn; lia.
Qed.

(** C4, as the code has it.  For a measure that is non-negative and
    monotone in the font size, and a minimum size that is not negative,
    [shrink_to_fit] returns a size for every width; the size returned for
    the wider box is not smaller; each is at least [min_size], and at
    most [initial_size] when [min_size <= initial_size]. *)
Theorem shrink_to_fit_monotone_bounded
    (stringWidth : string -> string -> Z -> Q) (content font_name : string)
    (initial_size min_size : Z) (w1 w2 : Q) :
  monotone_in_size stringWidth content font_name ->
  nonnegative stringWidth content font_name ->
  0 <= min_size ->
  (w1 <= w2)%Q ->
  exists r1 r2,
    shrink_to_fit stringWidth content font_name initial_size w1 min_size = Ok r1
    /\ shrink_to_fit stringWidth content font_name initial_size w2 min_size
       = Ok r2
    /\ r1 <= r2
    /\ min_size <= r1 /\ min_size <= r2
    /\ (min_size <= initial_size -> r1 <= initial_size /\ r2 <= initial_size).
Proof.
  intros Hmono Hnn Hmin Hw.
  destruct (shrink_loop_returns stringWidth content font_name w1
              (shrink_fuel min_size initial_size) Hnn
              min_size initial_size min_size Hmin) as [r1 H1].
  destruct (shrink_loop_returns stringWidth content font_name w2
              (shrink_fuel min_size initial_size) Hnn
              min_size initial_size min_size Hmin) as [r2 H2].
  fold (shrink_to_fit stringWidth content font_name initial_size w1 min_size)
    in H1.
  fold (shrink_to_fit stringWidth content font_name initial_size w2 min_size)
    in H2.
  exists r1, r2.
  pose proof (shrink_to_fit_range _ _ _ _ _ _ _ H1) as [Ha1 Hb1].
  pose proof (shrink_to_fit_range _ _ _ _ _ _ _ H2) as [Ha2 Hb2].
  pose proof (shrink_to_fit_monotone _ _ _ _ _ _ _ _ _ Hmono Hw H1 H2) as Hle.
  repeat split; auto.
Qed.

Lemma shrink_to_fit_monotone_bounded_witness :
  exists r1 r2,
    shrink_to_fit courier_width "Hello World" "Courier" 72 (50 # 1) 8 = Ok r1
    /\ shrink_to_fit courier_width "Hello World" "Courier" 72 (100 # 1) 8
       = Ok r2
    /\ r1 <= r2
    /\ 8 <= r1 /\ 8 <= r2
    /\ (8 <= 72 -> r1 <= 72 /\ r2 <= 72).
Proof.
  apply (shrink_to_fit_monotone_bounded courier_width "Hello World" "Courier"
           72 8 (50 # 1) (100 # 1)).
  - apply courier_width_monotone.
  - apply courier_width_nonnegative.
  - lia.
  - discriminate.
Defined.

(** C4, as stated, fails where [initial_size < min_size]: the loop body
    never runs and [min_size] comes back, above [initial_size].  A
    [TextElement] with [font_size = 6] and the default
    [min_font_size = 8] gives these arguments. *)
Lemma shrink_to_fit_above_initial_size :
  shrink_to_fit courier_width "Hi" "Courier" 6 (500 # 1) 8 = Ok 8
  /\ ~ (8 <= 8 <= 6).
Proof. split; [vm_compute; reflexivity | lia]. Qed.

End ShrinkFacts.

(** ** Splitting into words and joining them back *)

Module WordFacts.

Import PyStr.
Local Open Scope string_scope.

#[local] Arguments is_space : simpl never.

Fixpoint space_free (s : string) : bool :=
  match s with
  | EmptyString => true
  | String c r => negb (is_space c) && space_free r
  end.

(** A word: not empty, no whitespace in it. *)
Definition is_word (w : string) : bool := truthy w && space_free w.

Lemma append_nil_r (s : string) : s ++ "" = s.
Proof.
  induction s as [| c r IH]; [reflexivity |].
  change (String c (r ++ "") = String c r). now f_equal.
Qed.

Lemma append_assoc (a b c : string) : (a ++ b) ++ c = a ++ (b ++ c).
Proof.
  induction a as [| x r IH]; [reflexivity |].
  change (String x ((r ++ b) ++ c) = String x (r ++ (b ++ c))). now f_equal.
Qed.

Lemma space_free_app (a b : string) :
  space_free (a ++ b) = space_free a && space_free b.
Proof.
  induction a as [| x r IH]; [reflexivity |].
  change (negb (is_space x) && space_free (r ++ b)
          = negb (is_space x) && space_free r && space_free b).
  now rewrite IH, andb_assoc.
Qed.

Lemma is_empty_app_char (cur : string) (c : ascii) :
  is_empty (cur ++ String c "") = false.
Proof. destruct cur; reflexivity. Qed.

(** Everything [split] returns is a word. *)
Lemma split_acc_words (s : string) :
  forall cur, space_free cur = true ->
    Forall (fun w => is_word w = true) (split_acc cur s).
Proof.
  induction s as [| c r IH]; intros cur Hcur; cbn [split_acc].
  - destruct (is_empty cur) eqn:E; constructor; [| constructor].
    unfold is_word, truthy. now rewrite E, Hcur.
  - destruct (is_space c) eqn:Hc.
    + destruct (is_empty cur) eqn:E; [now apply IH |].
      constructor; [| now apply IH].
      unfold is_word, truthy. now rewrite E, Hcur.
    + apply IH. rewrite space_free_app, Hcur. cbn. now rewrite Hc.
Qed.

Lemma split_words (s : string) :
  Forall (fun w => is_word w = true) (split s).
Proof. now apply split_acc_words. Qed.

(** Reading a run of non-blank characters extends the current word. *)
Lemma split_acc_run (w : string) :
  forall cur s, space_free w = true ->
    split_acc cur (w ++ s) = split_acc (cur ++ w) s.
Proof.
  induction w as [| c r IH]; intros cur s Hw.
  - now rewrite append_nil_r.
  - change (space_free (String c r))
      with (negb (is_space c) && space_free r) in Hw.
    apply andb_prop in Hw. destruct Hw as [Hc Hr].
    apply negb_true_iff in Hc.
    change (String c r ++ s) with (String c (r ++ s)).
    cbn [split_acc]. rewrite Hc, IH by exact Hr.
    now rewrite append_assoc.
Qed.

Lemma split_word (w : string) : is_word w = true -> split w = [w].
Proof.
  unfold is_word, truthy. intros H. apply andb_prop in H.
  destruct H as [Hne Hsf]. unfold split.
  rewrite <- (append_nil_r w) at 1. rewrite split_acc_run by exact Hsf.
  change ("" ++ w) with w. cbn [split_acc].
  apply negb_true_iff in Hne. now rewrite Hne.
Qed.

(** [split] undoes [" ".join] on words. *)
Lemma split_join (ws : list string) :
  Forall (fun w => is_word w = true) ws -> split (join " " ws) = ws.
Proof.
  induction 1 as [| w ws Hw Hws IH]; [reflexivity |].
  destruct ws as [| w2 ws']; [now apply split_word |].
  change (join " " (w :: w2 :: ws')) with (w ++ " " ++ join " " (w2 :: ws')).
  unfold is_word, truthy in Hw. apply andb_prop in Hw.
  destruct Hw as [Hne Hsf]. unfold split.
  rewrite split_acc_run by exact Hsf.
  change ("" ++ w) with w.
  change (" " ++ join " " (w2 :: ws'))
    with (String " " (join " " (w2 :: ws'))).
  cbn [split_acc]. change (is_space " ") with true. cbn iota.
  apply negb_true_iff in Hne. rewrite Hne.
  f_equal. exact IH.
Qed.

(** The words of a list of lines, in order. *)
Definition words_of (lines : list string) : list string :=
  List.concat (List.map split lines).

Lemma words_of_app (l1 l2 : list string) :
  words_of (l1 ++ l2) = (words_of l1 ++ words_of l2)%list.
Proof. unfold words_of. now rewrite map_app, concat_app. Qed.

Lemma words_of_line (cur : list string) :
  Forall (fun w => is_word w = true) cur ->
  words_of [join " " cur] = cur.
Proof.
  intros H. unfold words_of. cbn. rewrite split_join by exact H.
  apply app_nil_r.
Qed.

End WordFacts.

(** ** Wrapping *)

Module WrapFacts.

Import PyStr TextUtils WordFacts.
Local Open Scope string_scope.

Section Wrap.

Variable stringWidth : string -> string -> Z -> Q.
Variable font_name : string.
Variable font_size : Z.
Variable max_width : Q.
Variable max_lines : option Z.

(** The body of the loop before the line-limit test. *)
Definition wrap_step (word : string) (lines current_line : list string)
  : list string * list string :=
  if Qle_bool
       (stringWidth (join " " (current_line ++ [word])%list) font_name font_size)
       max_width
  then (lines, (current_line ++ [word])%list)
  else match current_line with
       | _ :: _ => ((lines ++ [join " " current_line])%list, [word])
       | [] => ((lines ++ [word])%list, current_line)
       end.

(** [max_lines and len(lines) >= max_lines]. *)
Definition limit_reached (lines : list string) : bool :=
  truthy_int max_lines
  && match max_lines with
     | Some n => (n <=? Z.of_nat (length lines))%Z
     | None => false
     end.

Lemma wrap_loop_cons (word : string) (rest lines current_line : list string) :
  wrap_loop stringWidth font_name font_size max_width max_lines
    (word :: rest) lines current_line =
  (if limit_reached (fst (wrap_step word lines current_line))
   then wrap_step word lines current_line
   else wrap_loop stringWidth font_name font_size max_width max_lines rest
          (fst (wrap_step word lines current_line))
          (snd (wrap_step word lines current_line))).
Proof.
  cbn [wrap_loop]. unfold wrap_step, limit_reached.
  destruct (Qle_bool _ max_width); [reflexivity |].
  destruct current_line; reflexivity.
Qed.

(** One step moves exactly the word read into the lines or the current
    line. *)
Lemma wrap_step_words (word : string) (lines current_line : list string) :
  is_word word = true ->
  Forall (fun w => is_word w = true) current_line ->
  (words_of (fst (wrap_step word lines current_line))
   ++ snd (wrap_step word lines current_line)
   = words_of lines ++ current_line ++ [word])%list
  /\ Forall (fun w => is_word w = true)
       (snd (wrap_step word lines current_line)).
Proof.
  intros Hw Hcur. unfold wrap_step.
  destruct (Qle_bool _ max_width); cbn [fst snd].
  - split; [reflexivity |]. apply Forall_app. split; [exact Hcur |].
    now constructor.
  - destruct current_line as [| c0 cur'] eqn:E; cbn [fst snd].
    + split; [| constructor].
      rewrite words_of_app. unfold words_of at 2. cbn.
      rewrite (split_word word Hw). cbn. now rewrite app_nil_r.
    + split; [| now repeat constructor].
      rewrite words_of_app, (words_of_line (c0 :: cur') Hcur).
      now rewrite <- app_assoc.
Qed.

(** The loop consumes a prefix [done] of the words; what it read is in
    the lines and the current line, in order.  Without a line limit it
    reads every word. *)
Lemma wrap_loop_words (words : list string) :
  forall lines current_line,
    Forall (fun w => is_word w = true) words ->
    Forall (fun w => is_word w = true) current_line ->
    exists done rest,
      words = (done ++ rest)%list
      /\ (words_of
            (fst (wrap_loop stringWidth font_name font_size max_width max_lines
                    words lines current_line))
          ++ snd (wrap_loop stringWidth font_name font_size max_width max_lines
                    words lines current_line)
          = words_of lines ++ current_line ++ done)%list
      /\ Forall (fun w => is_word w = true)
           (snd (wrap_loop stringWidth font_name font_size max_width max_lines
                   words lines current_line))
      /\ (truthy_int max_lines = false -> rest = []).
Proof.
  induction words as [| word rest0 IH]; intros lines cur Hwords Hcur.
  - exists [], []. cbn. rewrite !app_nil_r. auto.
  - inversion Hwords as [| ? ? Hw Hrest]; subst.
    destruct (wrap_step_words word lines cur Hw Hcur) as [Hstep Hcur'].
    rewrite wrap_loop_cons.
    destruct (limit_reached (fst (wrap_step word lines cur))) eqn:Hlim.
    + exists [word], rest0. repeat split; auto.
      intros Hno. unfold limit_reached in Hlim. rewrite Hno in Hlim.
      discriminate.
    + destruct (IH (fst (wrap_step word lines cur))
                  (snd (wrap_step word lines cur)) Hrest Hcur')
        as [done [rest [Heq [Hw' [Hc' Hr']]]]].
      exists (word :: done), rest. repeat split; auto.
      * cbn. now rewrite Heq.
      * rewrite Hw'. rewrite app_assoc, Hstep.
        now rewrite <- !app_assoc.
Qed.

(** A line is acceptable when it is no wider than the box or is one of
    the words on its own. *)
Definition line_ok (all_words : list string) (line : string) : Prop :=
  Qle_bool (stringWidth line font_name font_size) max_width = true
  \/ In line all_words.

Definition current_ok (all_words current_line : list string) : Prop :=
  current_line = []
  \/ (exists w, current_line = [w] /\ In w all_words)
  \/ Qle_bool (stringWidth (join " " current_line) font_name font_size)
       max_width = true.

Lemma current_line_ok (all_words current_line : list string) :
  current_ok all_words current_line ->
  current_line <> [] ->
  line_ok all_words (join " " current_line).
Proof.
  intros [-> | [[w [-> Hin]] | Hfit]] Hne.
  - contradiction.
  - right. exact Hin.
  - left. exact Hfit.
Qed.

Lemma wrap_step_widths (all_words : list string) (word : string)
    (lines current_line : list string) :
  In word all_words ->
  Forall (line_ok all_words) lines ->
  current_ok all_words current_line ->
  Forall (line_ok all_words) (fst (wrap_step word lines current_line))
  /\ current_ok all_words (snd (wrap_step word lines current_line)).
Proof.
  intros Hin Hlines Hcur. unfold wrap_step.
  destruct (Qle_bool _ max_width) eqn:Hfit; cbn [fst snd].
  - split; [exact Hlines |]. right. right. exact Hfit.
  - destruct current_line as [| c0 cur'] eqn:E; cbn [fst snd].
    + split; [| now left].
      apply Forall_app. split; [exact Hlines |].
      constructor; [| constructor]. now right.
    + split.
      * apply Forall_app. split; [exact Hlines |].
        constructor; [| constructor].
        apply current_line_ok; [exact Hcur | discriminate].
      * right. left. exists word. auto.
Qed.

Lemma wrap_loop_widths (all_words words : list string) :
  forall lines current_line,
    (forall w, In w words -> In w all_words) ->
    Forall (line_ok all_words) lines ->
    current_ok all_words current_line ->
    Forall (line_ok all_words)
      (fst (wrap_loop stringWidth font_name font_size max_width max_lines
              words lines current_line))
    /\ current_ok all_words
         (snd (wrap_loop stringWidth font_name font_size max_width max_lines
                 words lines current_line)).
Proof.
  induction words as [| word rest IH]; intros lines cur Hsub Hlines Hcur.
  - cbn. auto.
  - rewrite wrap_loop_cons.
    destruct (wrap_step_widths all_words word lines cur
                (Hsub word (or_introl eq_refl)) Hlines Hcur) as [Hl Hc].
    destruct (limit_reached (fst (wrap_step word lines cur))); [auto |].
    apply IH; auto. intros w Hw. apply Hsub. now right.
Qed.

End Wrap.

Lemma Forall_firstn {A : Type} (P : A -> Prop) (k : nat) (l : list A) :
  Forall P l -> Forall P (firstn k l).
Proof.
  intros H. revert k. induction H as [| a l Ha Hl IH]; intros [| k]; cbn;
    constructor; auto.
Qed.

Lemma Forall_slice_to {A : Type} (P : A -> Prop) (n : Z) (l : list A) :
  Forall P l -> Forall P (slice_to l n).
Proof. unfold slice_to. destruct (0 <=? n)%Z; apply Forall_firstn. Qed.

Lemma slice_to_split {A : Type} (n : Z) (l : list A) :
  exists rest, l = (slice_to l n ++ rest)%list.
Proof.
  unfold slice_to. destruct (0 <=? n)%Z; eexists; symmetry; apply firstn_skipn.
Qed.

Lemma slice_to_length {A : Type} (n : Z) (l : list A) :
  (1 <= n)%Z -> (Z.of_nat (length (slice_to l n)) <= n)%Z.
Proof.
  intros Hn. unfold slice_to.
  replace (0 <=? n)%Z with true by (symmetry; apply Z.leb_le; lia).
  rewrite length_firstn. lia.
Qed.

(** The lines before the final [lines[:max_lines]]. *)
Definition lines_before_trim (stringWidth : string -> string -> Z -> Q)
    (content font_name : string) (font_size : Z) (max_width : Q)
    (max_lines : option Z) : list string :=
  let loop :=
    wrap_loop stringWidth font_name font_size max_width max_lines
      (split content) [] [] in
  match snd loop with
  | _ :: _ =>
      if negb (truthy_int max_lines)
         || (match max_lines with
             | Some n => (Z.of_nat (length (fst loop)) <? n)%Z
             | None => false
             end)
      then (fst loop ++ [join " " (snd loop)])%list
      else fst loop
  | [] => fst loop
  end.

Lemma wrap_text_trim (stringWidth : string -> string -> Z -> Q)
    (content font_name : string) (font_size : Z) (max_width : Q)
    (max_lines : option Z) :
  wrap_text stringWidth content font_name font_size max_width max_lines =
  match max_lines with
  | Some n =>
      if (n =? 0)%Z
      then lines_before_trim stringWidth content font_name font_size
             max_width max_lines
      else slice_to
             (lines_before_trim stringWidth content font_name font_size
                max_width max_lines) n
  | None =>
      lines_before_trim stringWidth content font_name font_size max_width
        max_lines
  end.
Proof.
  unfold wrap_text, lines_before_trim.
  destruct (wrap_loop _ _ _ _ _ _ _ _) as [lines cur]. reflexivity.
Qed.

Lemma lines_before_trim_spec (stringWidth : string -> string -> Z -> Q)
    (content font_name : string) (font_size : Z) (max_width : Q)
    (max_lines : option Z) :
  Forall (line_ok stringWidth font_name font_size max_width (split content))
    (lines_before_trim stringWidth content font_name font_size max_width
       max_lines)
  /\ (exists rest,
        split content =
        (words_of (lines_before_trim stringWidth content font_name font_size
                     max_width max_lines) ++ rest)%list)
  /\ (truthy_int max_lines = false ->
      words_of (lines_before_trim stringWidth content font_name font_size
                  max_width max_lines) = split content).
Proof.
  unfold lines_before_trim.
  destruct (wrap_loop_words stringWidth font_name font_size max_width
              max_lines (split content) [] [] (split_words content)
              ltac:(constructor))
    as [done [rest [Heq [Hw [Hcur Hrest]]]]].
  destruct (wrap_loop_widths stringWidth font_name font_size max_width
              max_lines (split content) (split content) [] []
              (fun w H => H) ltac:(constructor) (or_introl eq_refl))
    as [Hlines Hcok].
  cbn [words_of map concat app] in Hw.
  set (loop := wrap_loop stringWidth font_name font_size max_width max_lines
                 (split content) [] []) in *.
  destruct (snd loop) as [| c0 cur'] eqn:Ecur.
  - rewrite app_nil_r in Hw. split; [exact Hlines |]. split.
    + exists rest. now rewrite Hw.
    + intros Hno. rewrite (Hrest Hno), app_nil_r in Heq. now rewrite Hw.
  - destruct (negb (truthy_int max_lines)
              || match max_lines with
                 | Some n => (Z.of_nat (length (fst loop)) <? n)%Z
                 | None => false
                 end) eqn:Hadd.
    + assert (Hwords : words_of (fst loop ++ [join " " (c0 :: cur')])
                       = done).
      { rewrite words_of_app, (words_of_line (c0 :: cur') Hcur). exact Hw. }
      split.
      * apply Forall_app. split; [exact Hlines |].
        constructor; [| constructor].
        apply current_line_ok; [exact Hcok | discriminate].
      * split.
        -- exists rest. now rewrite Hwords.
        -- intros Hno. rewrite (Hrest Hno), app_nil_r in Heq.
           now rewrite Hwords.
    + split; [exact Hlines |]. split.
      * exists ((c0 :: cur') ++ rest)%list.
        now rewrite Heq, <- Hw, <- app_assoc.
      * intros Hno. rewrite Hno in Hadd. discriminate.
Qed.

Lemma words_of_slice_to (lines : list string) (n : Z) :
  exists rest, words_of lines = (words_of (slice_to lines n) ++ rest)%list.
Proof.
  destruct (slice_to_split n lines) as [rest Hrest].
  exists (words_of rest). now rewrite <- words_of_app, <- Hrest.
Qed.

Section Limit.

Variable stringWidth : string -> string -> Z -> Q.
Variable font_name : string.
Variable font_size : Z.
Variable max_width : Q.

(** The lines only grow at their end. *)
Lemma wrap_step_extends (word : string) (lines current_line : list string) :
  exists more,
    fst (wrap_step stringWidth font_name font_size max_width word lines
           current_line) = (lines ++ more)%list.
Proof.
  unfold wrap_step. destruct (Qle_bool _ max_width); cbn [fst].
  - exists []. now rewrite List.app_nil_r.
  - destruct current_line; eexists; reflexivity.
Qed.

Lemma wrap_loop_extends (max_lines : option Z) (words : list string) :
  forall lines current_line,
    exists more,
      fst (wrap_loop stringWidth font_name font_size max_width max_lines
             words lines current_line) = (lines ++ more)%list.
Proof.
  induction words as [| word rest IH]; intros lines cur.
  - exists []. cbn. now rewrite List.app_nil_r.
  - rewrite wrap_loop_cons.
    destruct (wrap_step_extends word lines cur) as [more Hmore].
    destruct (limit_reached max_lines _); [now exists more |].
    destruct (IH (fst (wrap_step stringWidth font_name font_size max_width
                         word lines cur))
                (snd (wrap_step stringWidth font_name font_size max_width
                        word lines cur))) as [more' Hmore'].
    exists (more ++ more')%list. rewrite Hmore', Hmore.
    now rewrite List.app_assoc.
Qed.

(** The lines with the current line flushed, as after the loop without
    a limit. *)
Definition flushed (loop : list string * list string) : list string :=
  match snd loop with
  | _ :: _ => (fst loop ++ [join " " (snd loop)])%list
  | [] => fst loop
  end.

Lemma firstn_app_short {A : Type} (k : nat) (l more : list A) :
  (k <= length l)%nat -> firstn k (l ++ more) = firstn k l.
Proof.
  intros H. rewrite List.firstn_app.
  replace (k - length l)%nat with 0%nat by lia.
  cbn. apply List.app_nil_r.
Qed.

(** With a limit of [n >= 1] lines the loop and the two steps after it
    return the first [n] lines of what they return without a limit. *)
Lemma wrap_loop_limit (n : Z) (words : list string) :
  (1 <= n)%Z ->
  forall lines current_line,
    (Z.of_nat (length lines) < n)%Z ->
    let loop :=
      wrap_loop stringWidth font_name font_size max_width (Some n) words
        lines current_line in
    firstn (Z.to_nat n)
      (match snd loop with
       | _ :: _ =>
           if (Z.of_nat (length (fst loop)) <? n)%Z
           then (fst loop ++ [join " " (snd loop)])%list
           else fst loop
       | [] => fst loop
       end)
    = firstn (Z.to_nat n)
        (flushed (wrap_loop stringWidth font_name font_size max_width None
                    words lines current_line)).
Proof.
  intros Hn. induction words as [| word rest IH]; intros lines cur Hlen;
    cbv zeta.
  - cbn [wrap_loop fst snd]. unfold flushed. cbn [fst snd].
    destruct cur; [reflexivity |].
    replace (Z.of_nat (length lines) <? n)%Z with true
      by (symmetry; apply Z.ltb_lt; exact Hlen).
    reflexivity.
  - rewrite !wrap_loop_cons.
    set (step := wrap_step stringWidth font_name font_size max_width word
                   lines cur).
    replace (limit_reached None (fst step)) with false by reflexivity.
    unfold limit_reached. cbn [truthy_int].
    replace (n =? 0)%Z with false by (symmetry; apply Z.eqb_neq; lia).
    cbn [negb andb].
    destruct (n <=? Z.of_nat (length (fst step)))%Z eqn:Hlim.
    + apply Z.leb_le in Hlim.
      replace (Z.of_nat (length (fst step)) <? n)%Z with false
        by (symmetry; apply Z.ltb_ge; exact Hlim).
      destruct (wrap_loop_extends None rest (fst step) (snd step))
        as [more Hmore].
      unfold flushed. rewrite Hmore.
      assert (Hshort : (Z.to_nat n <= length (fst step))%nat) by lia.
      transitivity (firstn (Z.to_nat n) (fst step)).
      { now destruct (snd step). }
      symmetry.
      destruct (snd (wrap_loop _ _ _ _ None rest (fst step) (snd step))).
      * now apply firstn_app_short.
      * rewrite <- List.app_assoc. now apply firstn_app_short.
    + apply Z.leb_gt in Hlim. exact (IH (fst step) (snd step) Hlim).
Qed.

End Limit.

Lemma wrap_text_unlimited (stringWidth : string -> string -> Z -> Q)
    (content font_name : string) (font_size : Z) (max_width : Q) :
  wrap_text stringWidth content font_name font_size max_width None
  = flushed (wrap_loop stringWidth font_name font_size max_width None
               (split content) [] []).
Proof.
  unfold wrap_text, flushed.
  destruct (wrap_loop _ _ _ _ _ _ _ _) as [lines cur]. cbn [fst snd].
  now destruct cur.
Qed.

(** With a limit of at least one line, the lines returned are the first
    lines of the text wrapped without a limit. *)
Lemma wrap_text_limit (stringWidth : string -> string -> Z -> Q)
    (content font_name : string) (font_size : Z) (max_width : Q) (n : Z) :
  (1 <= n)%Z ->
  wrap_text stringWidth content font_name font_size max_width (Some n)
  = firstn (Z.to_nat n)
      (wrap_text stringWidth content font_name font_size max_width None).
Proof.
  intros Hn. rewrite wrap_text_unlimited.
  rewrite <- (wrap_loop_limit stringWidth font_name font_size max_width n
                (split content) Hn [] []) by (cbn; lia).
  cbv zeta. unfold wrap_text.
  destruct (wrap_loop _ _ _ _ _ _ _ _) as [lines cur]. cbn [fst snd].
  replace (n =? 0)%Z with false by (symmetry; apply Z.eqb_neq; lia).
  unfold slice_to.
  replace (0 <=? n)%Z with true by (symmetry; apply Z.leb_le; lia).
  cbn [truthy_int]. 
  replace (n =? 0)%Z with false by (symmetry; apply Z.eqb_neq; lia).
  cbn [negb orb].
  reflexivity.
Qed.

(** C5, as the code has it.  Each returned line is no wider than
    [max_width] unless it is one word of the content on its own, wider
    than [max_width]; the words of the returned lines are an initial
    part of the words of the content, and all of them when no line limit
    is in force ([max_lines] is [None] or 0).  With a limit of [n >= 1]
    the lines returned are the first [n] lines of the text wrapped
    without a limit: there are at most [n] of them, and they hold every
    word when the text wraps into at most [n] lines. *)
Theorem wrap_text_lines (stringWidth : string -> string -> Z -> Q)
    (content font_name : string) (font_size : Z) (max_width : Q)
    (max_lines : option Z) :
  Forall
    (fun line =>
       (stringWidth line font_name font_size <= max_width)%Q
       \/ (In line (split content)
           /\ ~ (stringWidth line font_name font_size <= max_width)%Q))
    (wrap_text stringWidth content font_name font_size max_width max_lines)
  /\ (exists rest,
        split content =
        (words_of (wrap_text stringWidth content font_name font_size
                     max_width max_lines) ++ rest)%list)
  /\ (truthy_int max_lines = false ->
      words_of (wrap_text stringWidth content font_name font_size max_width
                  max_lines) = split content)
  /\ (forall n : Z,
        max_lines = Some n -> (1 <= n)%Z ->
        (Z.of_nat (length (wrap_text stringWidth content font_name font_size
                             max_width max_lines)) <= n)%Z
        /\ wrap_text stringWidth content font_name font_size max_width
             max_lines
           = firstn (Z.to_nat n)
               (wrap_text stringWidth content font_name font_size max_width
                  None)
        /\ ((Z.of_nat (length (wrap_text stringWidth content font_name
                                 font_size max_width None)) <= n)%Z ->
            words_of (wrap_text stringWidth content font_name font_size
                        max_width max_lines) = split content)).
Proof.
  destruct (lines_before_trim_spec stringWidth content font_name font_size
              max_width max_lines) as [Hok [Hpre Hall]].
  assert (Hweak : forall l,
            Forall (line_ok stringWidth font_name font_size max_width
                      (split content)) l ->
            Forall
              (fun line =>
                 (stringWidth line font_name font_size <= max_width)%Q
                 \/ (In line (split content)
                     /\ ~ (stringWidth line font_name font_size
                           <= max_width)%Q)) l).
  { intros l Hl. eapply List.Forall_impl; [| exact Hl].
    intros line Hline. cbv beta.
    destruct (Qle_bool (stringWidth line font_name font_size) max_width)
      eqn:E.
    - left. now apply Qle_bool_iff.
    - right. destruct Hline as [Hfit | Hin]; [unfold line_ok in *; congruence |].
      split; [exact Hin |]. intros Hle. apply Qle_bool_iff in Hle.
      congruence. }
  assert (Hlimit : forall n : Z,
            max_lines = Some n -> (1 <= n)%Z ->
            wrap_text stringWidth content font_name font_size max_width
              max_lines
            = firstn (Z.to_nat n)
                (wrap_text stringWidth content font_name font_size max_width
                   None)
            /\ ((Z.of_nat (length (wrap_text stringWidth content font_name
                                     font_size max_width None)) <= n)%Z ->
                words_of (wrap_text stringWidth content font_name font_size
                            max_width max_lines) = split content)).
  { intros n -> Hn.
    pose proof (wrap_text_limit stringWidth content font_name font_size
                  max_width n Hn) as Hfirst.
    split; [exact Hfirst |]. intros Hshort. rewrite Hfirst.
    rewrite List.firstn_all2 by lia.
    rewrite wrap_text_trim.
    now apply (lines_before_trim_spec stringWidth content font_name
                 font_size max_width None). }
  assert (Hlength : forall n : Z,
            max_lines = Some n -> (1 <= n)%Z ->
            (Z.of_nat (length (wrap_text stringWidth content font_name
                                 font_size max_width max_lines)) <= n)%Z).
  { intros n -> Hn. rewrite wrap_text_trim.
    replace (n =? 0)%Z with false by (symmetry; apply Z.eqb_neq; lia).
    now apply slice_to_length. }
  split; [| split; [| split]].
  - rewrite wrap_text_trim. apply Hweak.
    destruct max_lines as [n |]; [| exact Hok].
    destruct (n =? 0)%Z; [exact Hok | now apply Forall_slice_to].
  - rewrite wrap_text_trim.
    destruct max_lines as [n |]; [| exact Hpre].
    destruct (n =? 0)%Z; [exact Hpre |].
    destruct Hpre as [rest Hrest].
    destruct (words_of_slice_to
                (lines_before_trim stringWidth content font_name
                   font_size max_width (Some n)) n) as [rest' Hrest'].
    exists (rest' ++ rest)%list.
    now rewrite Hrest, Hrest', <- app_assoc.
  - intros Hno. rewrite wrap_text_trim. specialize (Hall Hno).
    destruct max_lines as [n |]; [| exact Hall].
    cbn [truthy_int] in Hno. apply negb_false_iff in Hno. rewrite Hno.
    exact Hall.
  - intros n Hmax Hn. split; [now apply Hlength |]. now apply Hlimit.
Qed.

(** C5, as stated, fails for the words: with [max_lines = 2] the loop
    stops after two lines and the last four of the eight words are in no
    returned line. *)
Lemma wrap_text_drops_words_at_line_limit :
  split "The quick brown fox jumps over lazy dogs" =
  ["The"; "quick"; "brown"; "fox"; "jumps"; "over"; "lazy"; "dogs"]
  /\ wrap_text courier_width "The quick brown fox jumps over lazy dogs"
       "Courier" 10 (60 # 1) (Some 2%Z)
     = ["The quick"; "brown fox"]
  /\ words_of
       (wrap_text courier_width "The quick brown fox jumps over lazy dogs"
          "Courier" 10 (60 # 1) (Some 2%Z))
     <> split "The quick brown fox jumps over lazy dogs".
Proof.
  split; [vm_compute; reflexivity |].
  split; [vm_compute; reflexivity |].
  vm_compute. discriminate.
Qed.

(** *** Wrapping leaves at least one line *)

Lemma wrap_step_nonempty (stringWidth : string -> string -> Z -> Q)
    (font_name : string) (font_size : Z) (max_width : Q)
    (word : string) (lines current_line : list string) :
  fst (wrap_step stringWidth font_name font_size max_width word lines
         current_line) <> []
  \/ snd (wrap_step stringWidth font_name font_size max_width word lines
            current_line) <> [].
Proof.
  unfold wrap_step. destruct (Qle_bool _ max_width); cbn [fst snd].
  - right. now destruct current_line.
  - destruct current_line; left; now destruct lines.
Qed.

Lemma wrap_loop_nonempty (stringWidth : string -> string -> Z -> Q)
    (font_name : string) (font_size : Z) (max_width : Q)
    (max_lines : option Z) (words : list string) :
  forall lines current_line,
    lines <> [] \/ current_line <> [] ->
    fst (wrap_loop stringWidth font_name font_size max_width max_lines
           words lines current_line) <> []
    \/ snd (wrap_loop stringWidth font_name font_size max_width max_lines
              words lines current_line) <> [].
Proof.
  induction words as [| word rest IH]; intros lines cur H; [exact H |].
  rewrite wrap_loop_cons.
  pose proof (wrap_step_nonempty stringWidth font_name font_size max_width
                word lines cur) as Hstep.
  destruct (limit_reached max_lines _); [exact Hstep | now apply IH].
Qed.

(** A line limit as the model of [TextElement] admits it: absent, or at
    least 1. *)
Definition line_limit_ok (max_lines : option Z) : Prop :=
  match max_lines with
  | Some n => (1 <= n)%Z
  | None => True
  end.

Lemma wrap_text_nonempty (stringWidth : string -> string -> Z -> Q)
    (content font_name : string) (font_size : Z) (max_width : Q)
    (max_lines : option Z) :
  split content <> [] ->
  line_limit_ok max_lines ->
  wrap_text stringWidth content font_name font_size max_width max_lines <> [].
Proof.
  intros Hwords Hlimit.
  assert (Hbefore : lines_before_trim stringWidth content font_name font_size
                      max_width max_lines <> []).
  { unfold lines_before_trim.
    destruct (split content) as [| word rest] eqn:E; [contradiction |].
    rewrite wrap_loop_cons.
    pose proof (wrap_step_nonempty stringWidth font_name font_size max_width
                  word [] []) as Hstep.
    set (loop := if limit_reached max_lines _ then _ else _).
    assert (Hloop : fst loop <> [] \/ snd loop <> []).
    { unfold loop. destruct (limit_reached max_lines _); [exact Hstep |].
      now apply wrap_loop_nonempty. }
    destruct (snd loop) as [| c0 cur'] eqn:Ecur.
    - destruct Hloop; [assumption | contradiction].
    - destruct (fst loop) as [| l0 ls] eqn:Efst.
      + replace (negb (truthy_int max_lines)
                 || match max_lines with
                    | Some n => (Z.of_nat (length []) <? n)%Z
                    | None => false
                    end) with true; [discriminate |].
        destruct max_lines as [n |]; [| reflexivity].
        cbn in Hlimit. symmetry. apply orb_true_iff. right.
        apply Z.ltb_lt. cbn. lia.
      + destruct (negb _ || _); discriminate. }
  rewrite wrap_text_trim.
  destruct max_lines as [n |]; [| exact Hbefore].
  cbn in Hlimit. replace (n =? 0)%Z with false by (symmetry; lia).
  unfold slice_to. replace (0 <=? n)%Z with true by (symmetry; lia).
  destruct (lines_before_trim _ _ _ _ _ _); [contradiction |].
  destruct (Z.to_nat n) eqn:En; [lia | discriminate].
Qed.

End WrapFacts.

(** ** Colours and their hexadecimal form *)

Module ColorFacts.

Import PyStr Models.
Local Open Scope string_scope.

(** For one byte: [f"{n:02x}"] is two characters, the first is not [#],
    and [int(..., 16)] reads [n] back. *)
Definition byte_roundtrips (n : Z) : bool :=
  match format_02x n with
  | String a (String b0 EmptyString) =>
      negb (Ascii.eqb a "#")
      && match int_base16 (String a (String b0 EmptyString)) with
         | Ok m => (m =? n)%Z
         | Raise _ => false
         end
  | _ => false
  end.

Lemma all_bytes_roundtrip :
  forallb byte_roundtrips (List.map Z.of_nat (seq 0 256)) = true.
Proof. vm_compute. reflexivity. Qed.

Lemma byte_roundtrip (n : Z) :
  (0 <= n <= 255)%Z ->
  exists a b0,
    format_02x n = String a (String b0 EmptyString)
    /\ Ascii.eqb a "#" = false
    /\ int_base16 (String a (String b0 EmptyString)) = Ok n.
Proof.
  intros Hn.
  pose proof all_bytes_roundtrip as H.
  rewrite forallb_forall in H.
  specialize (H n).
  assert (Hin : In n (List.map Z.of_nat (seq 0 256))).
  { apply in_map_iff. exists (Z.to_nat n). split; [lia |].
    apply in_seq. lia. }
  apply H in Hin. unfold byte_roundtrips in Hin.
  destruct (format_02x n) as [| a [| b0 [| ? ?]]]; try discriminate.
  apply andb_prop in Hin. destruct Hin as [Ha Hp].
  exists a, b0. split; [reflexivity |]. split; [now apply negb_true_iff |].
  destruct (int_base16 (String a (String b0 ""))) as [m | e];
    [| discriminate].
  apply Z.eqb_eq in Hp. now subst m.
Qed.

(** [int(q * 255)] for a component [q] in the unit interval: a byte, and
    the floor of [q * 255]. *)
Lemma component_byte (q : Q) :
  in_unit q = true ->
  (0 <= int_of_float (q * 255) <= 255)%Z
  /\ (inject_Z (int_of_float (q * 255)) <= q * 255)%Q
  /\ (q * 255 < inject_Z (int_of_float (q * 255)) + 1)%Q.
Proof.
  unfold in_unit. intros H. apply andb_prop in H. destruct H as [H0 H1].
  apply Qle_bool_iff in H0, H1.
  destruct q as [num den]. unfold Qle in H0, H1. cbn in H0, H1.
  unfold int_of_float. cbn [Qmult Qnum Qden].
  rewrite Pos.mul_1_r.
  rewrite Z.quot_div_nonneg by lia.
  pose proof (Z.div_mod (num * 255) (Zpos den) ltac:(lia)) as Hdm.
  pose proof (Z.mod_pos_bound (num * 255) (Zpos den) ltac:(lia)) as Hmod.
  set (n := (num * 255 / Zpos den)%Z) in *.
  assert (Hn0 : (0 <= n)%Z) by (apply Z.div_pos; lia).
  assert (Hn255 : (n <= 255)%Z).
  { apply Z.div_le_upper_bound; lia. }
  split; [lia |].
  unfold Qle, Qlt. cbn. rewrite Pos.mul_1_r. split; nia.
Qed.

Lemma byte_in_unit (n : Z) :
  (0 <= n <= 255)%Z -> in_unit (inject_Z n / 255) = true.
Proof.
  intros Hn. unfold in_unit. apply andb_true_intro.
  split; apply Qle_bool_iff; unfold Qle; cbn; lia.
Qed.

Lemma from_hex_of_bytes (a1 b1 a2 b2 a3 b3 : ascii) (n1 n2 n3 : Z) :
  Ascii.eqb a1 "#" = false ->
  int_base16 (String a1 (String b1 EmptyString)) = Ok n1 ->
  int_base16 (String a2 (String b2 EmptyString)) = Ok n2 ->
  int_base16 (String a3 (String b3 EmptyString)) = Ok n3 ->
  Color_from_hex
    ("#" ++ String a1 (String b1 EmptyString)
         ++ String a2 (String b2 EmptyString)
         ++ String a3 (String b3 EmptyString))
  = Color_new (inject_Z n1 / 255) (inject_Z n2 / 255) (inject_Z n3 / 255).
Proof.
  intros Ha H1 H2 H3.
  assert (Hstrip : forall rest,
            lstrip_chars "#" ("#" ++ String a1 rest) = String a1 rest).
  { intros rest. unfold lstrip_chars.
    change ("#" ++ String a1 rest) with (String "#" (String a1 rest)).
    cbn [lstrip_by mem_char]. now rewrite Ascii.eqb_refl, Ha. }
  unfold Color_from_hex.
  change (String a1 (String b1 "") ++ String a2 (String b2 "")
          ++ String a3 (String b3 ""))
    with (String a1 (String b1 (String a2 (String b2
            (String a3 (String b3 "")))))).
  rewrite Hstrip.
  change (slice (String a1 (String b1 (String a2 (String b2
            (String a3 (String b3 "")))))) 0 2)
    with (String a1 (String b1 "")).
  change (slice (String a1 (String b1 (String a2 (String b2
            (String a3 (String b3 "")))))) 2 4)
    with (String a2 (String b2 "")).
  change (slice (String a1 (String b1 (String a2 (String b2
            (String a3 (String b3 "")))))) 4 6)
    with (String a3 (String b3 "")).
  rewrite H1, H2, H3. reflexivity.
Qed.

Lemma component_close (q : Q) (n : Z) :
  (inject_Z n <= q * 255)%Q ->
  (q * 255 < inject_Z n + 1)%Q ->
  (Qabs (inject_Z n / 255 - q) < 1 # 255)%Q.
Proof.
  intros Hlo Hhi. apply Qabs_Qlt_condition.
  unfold Qdiv. change (/ 255)%Q with (1 # 255)%Q.
  split; Lqa.lra.
Qed.

(** C6.  A valid colour survives [to_hex] then [from_hex] up to the
    truncation of each component to a byte: the result is a valid colour
    and each component is less than 1/255 away from the original. *)
Theorem color_hex_roundtrip (c : Color) :
  Color_valid c = true ->
  exists c',
    Color_from_hex (Color_to_hex c) = Ok c'
    /\ Color_valid c' = true
    /\ (Qabs (r c' - r c) < 1 # 255)%Q
    /\ (Qabs (g c' - g c) < 1 # 255)%Q
    /\ (Qabs (b c' - b c) < 1 # 255)%Q.
Proof.
  unfold Color_valid. intros H.
  apply andb_prop in H. destruct H as [H Hb].
  apply andb_prop in H. destruct H as [Hr Hg].
  destruct (component_byte _ Hr) as [Hnr [Hr1 Hr2]].
  destruct (component_byte _ Hg) as [Hng [Hg1 Hg2]].
  destruct (component_byte _ Hb) as [Hnb [Hb1 Hb2]].
  destruct (byte_roundtrip _ Hnr) as [a1 [b1 [Ef1 [Ea1 Ep1]]]].
  destruct (byte_roundtrip _ Hng) as [a2 [b2 [Ef2 [_ Ep2]]]].
  destruct (byte_roundtrip _ Hnb) as [a3 [b3 [Ef3 [_ Ep3]]]].
  unfold Color_to_hex. rewrite Ef1, Ef2, Ef3.
  rewrite (from_hex_of_bytes _ _ _ _ _ _ _ _ _ Ea1 Ep1 Ep2 Ep3).
  unfold Color_new.
  rewrite (byte_in_unit _ Hnr), (byte_in_unit _ Hng), (byte_in_unit _ Hnb).
  cbn [negb]. eexists. split; [reflexivity |].
  cbn [Models.r Models.g Models.b].
  rewrite (byte_in_unit _ Hnr), (byte_in_unit _ Hng), (byte_in_unit _ Hnb).
  split; [reflexivity |].
  repeat split; apply component_close; assumption.
Qed.

Lemma color_hex_roundtrip_witness :
  exists c',
    Color_from_hex (Color_to_hex (mkColor (8 # 10) (1 # 10) (1 # 10))) = Ok c'
    /\ Color_valid c' = true
    /\ (Qabs (r c' - r (mkColor (8 # 10) (1 # 10) (1 # 10))) < 1 # 255)%Q
    /\ (Qabs (g c' - g (mkColor (8 # 10) (1 # 10) (1 # 10))) < 1 # 255)%Q
    /\ (Qabs (b c' - b (mkColor (8 # 10) (1 # 10) (1 # 10))) < 1 # 255)%Q.
Proof.
  apply (color_hex_roundtrip (mkColor (8 # 10) (1 # 10) (1 # 10))).
  reflexivity.
Defined.

End ColorFacts.

(** ** Fitting and rendering a text element *)

Module RendererFacts.

Import PyStr Models TextUtils Measurements Renderer.
Import ShrinkFacts.
Local Open Scope string_scope.

(** The element with its private adjustment record replaced. *)
Definition with_adjustment (t : TextElement) (adj : option AdjustmentResult)
  : TextElement :=
  mkTextElement t.(id) t.(content) t.(x) t.(y) t.(width) t.(font_family)
    t.(font_size) t.(font_style) t.(color) t.(alignment) t.(rotation)
    t.(z_index) t.(overflow_strategy) t.(max_lines) t.(min_font_size) adj.

(** A long greeting in a box one inch wide, at most two lines. *)
Definition greeting : TextElement :=
  mkTextElement "greeting" "Season's greetings to one and all of you"
    0 0 (Some 1%Q) "Courier" 12 NORMAL None LEFT 0 100 WRAP (Some 2%Z) 8 None.

Definition front_panel : Panel := mkPanel 0 0 4 5.

Section Canvas.

Variable stringWidth : string -> string -> Z -> Q.

Lemma strategy_resolved (text : TextElement) :
  (if OverflowStrategy_eqb text.(overflow_strategy) AUTO
   then _select_auto_strategy text
   else text.(overflow_strategy))
  = resolved_strategy text.
Proof. unfold resolved_strategy. now destruct (overflow_strategy text). Qed.

Lemma with_adjustment_same (text : TextElement) :
  with_adjustment text (_adjustment_applied text) = text.
Proof. now destruct text. Qed.

Lemma wrap_shrink_loop_ignores_adjustment (text : TextElement)
    (adj : option AdjustmentResult) (font_name : string)
    (max_width_pts max_height_pts : Q) (fuel : nat) :
  forall (low high best_size : Z) (best_lines : list string),
    wrap_shrink_loop stringWidth (with_adjustment text adj) font_name
      max_width_pts max_height_pts fuel low high best_size best_lines
    = wrap_shrink_loop stringWidth text font_name
        max_width_pts max_height_pts fuel low high best_size best_lines.
Proof.
  induction fuel as [| fuel IH]; intros low high best_size best_lines;
    [reflexivity |].
  cbn [wrap_shrink_loop]. destruct (low <=? high)%Z; [| reflexivity].
  replace (content (with_adjustment text adj)) with (content text)
    by now destruct text.
  replace (max_lines (with_adjustment text adj)) with (max_lines text)
    by now destruct text.
  destruct (measure_text _ _ _ _ _ _ _) as [m | e]; cbn [bind];
    [| reflexivity].
  destruct (fits_within_bounds m); apply IH.
Qed.

Lemma apply_wrap_ignores_adjustment (text : TextElement)
    (adj : option AdjustmentResult) (panel : Panel) :
  _apply_wrap_strategy stringWidth (with_adjustment text adj) panel
  = _apply_wrap_strategy stringWidth text panel.
Proof.
  unfold _apply_wrap_strategy.
  cbn [with_adjustment Models.content Models.width Models.font_family
         Models.font_size Models.font_style Models.max_lines
         Models.min_font_size].
  destruct (width text) as [w |]; [| reflexivity].
  destruct (truthy_float (Some w)); [| reflexivity].
  destruct (negb (Qeq_bool (panel_height panel) 0)); [| reflexivity].
  destruct (truthy_float _); [| reflexivity].
  destruct (measure_text _ _ _ _ _ _ _) as [m | e]; cbn [bind];
    [| reflexivity].
  destruct (_ && _); [| reflexivity].
  apply wrap_shrink_loop_ignores_adjustment.
Qed.

(** The fitting step reads nothing of the recorded adjustment. *)
Lemma fit_ignores_adjustment (text : TextElement)
    (adj : option AdjustmentResult) (panel : Panel) :
  _fit_text_element stringWidth (with_adjustment text adj) panel
  = _fit_text_element stringWidth text panel.
Proof.
  unfold _fit_text_element.
  rewrite apply_wrap_ignores_adjustment.
  reflexivity.
Qed.

(** *** The fitting step returns for a valid element *)

(** A measure that is not negative at the sizes a font can have. *)
Definition measure_nonnegative : Prop :=
  forall (s f : string) (z : Z), (0 <= z)%Z -> (0 <= stringWidth s f z)%Q.

Lemma max_of_nonneg (others : list Q) :
  forall first, (0 <= first)%Q -> (0 <= max_of first others)%Q.
Proof.
  unfold max_of. induction others as [| v vs IH]; intros first H;
    [exact H |].
  cbn [fold_left]. apply IH.
  destruct (Qle_bool v first) eqn:E; [exact H |].
  apply Qlt_le_weak. eapply Qle_lt_trans; [exact H |].
  apply Qnot_le_lt. intros Hc. apply Qle_bool_iff in Hc. congruence.
Qed.

Lemma measure_lines_returns (content font_name : string) (size : Z)
    (max_width max_height : Q) (lines : list string) :
  measure_nonnegative -> (0 <= size)%Z -> lines <> [] ->
  exists m,
    measure_text stringWidth content font_name size max_width
      (Some max_height) (Some lines) = Ok m.
Proof.
  intros Hnn Hsize Hlines. unfold measure_text, TextMetrics_new.
  destruct lines as [| l ls]; [contradiction |]. cbn [List.map].
  assert (Hw : Qle_bool 0
                 (max_of (stringWidth l font_name size)
                    (List.map (fun line => stringWidth line font_name size)
                       ls)) = true).
  { apply Qle_bool_iff, max_of_nonneg, Hnn, Hsize. }
  assert (Hh : Qle_bool 0
                 (calculate_line_height size
                  * inject_Z (Z.of_nat (length (l :: ls)))) = true).
  { apply Qle_bool_iff. apply Qmult_le_0_compat.
    - apply Qle_bool_iff. now apply ShrinkFacts.line_height_nonneg.
    - unfold Qle. cbn. lia. }
  rewrite Hw, Hh. cbn [negb].
  replace (1 <=? Z.of_nat (length (l :: ls)))%Z with true
    by (symmetry; apply Z.leb_le; cbn [length]; lia).
  cbn [negb]. eexists. reflexivity.
Qed.

Lemma wrap_shrink_loop_exit (text : TextElement) (font_name : string)
    (max_width_pts max_height_pts : Q) (fuel : nat) (low high best : Z)
    (best_lines : list string) :
  (high < low)%Z ->
  wrap_shrink_loop stringWidth text font_name max_width_pts max_height_pts
    fuel low high best best_lines = Ok (best, best_lines).
Proof.
  intros H. destruct fuel; cbn [wrap_shrink_loop]; [reflexivity |].
  apply Z.leb_gt in H. now rewrite H.
Qed.

(** [shrink_fuel low high] is enough for the re-wrapping search as well:
    more fuel changes nothing. *)
Lemma wrap_shrink_loop_fuel (text : TextElement) (font_name : string)
    (max_width_pts max_height_pts : Q) (fuel : nat) :
  forall (extra : nat) (low high best : Z) (best_lines : list string),
    (shrink_fuel low high <= fuel)%nat ->
    wrap_shrink_loop stringWidth text font_name max_width_pts max_height_pts
      (fuel + extra) low high best best_lines
    = wrap_shrink_loop stringWidth text font_name max_width_pts
        max_height_pts fuel low high best best_lines.
Proof.
  unfold shrink_fuel.
  induction fuel as [| fuel IH]; intros extra low high best best_lines Hfuel.
  - rewrite !wrap_shrink_loop_exit by lia. reflexivity.
  - destruct (Z_le_gt_dec low high) as [Hle | Hgt].
    + change (S fuel + extra)%nat with (S (fuel + extra)).
      cbn [wrap_shrink_loop].
      replace (low <=? high)%Z with true by (symmetry; now apply Z.leb_le).
      pose proof (ShrinkFacts.mid_between low high Hle) as Hmid.
      destruct (measure_text _ _ _ _ _ _ _) as [m | e]; cbn [bind];
        [| reflexivity].
      destruct (fits_within_bounds m); apply IH; lia.
    + rewrite !wrap_shrink_loop_exit by lia. reflexivity.
Qed.

Lemma wrap_shrink_loop_returns (text : TextElement) (font_name : string)
    (max_width_pts max_height_pts : Q) (fuel : nat) :
  measure_nonnegative ->
  split (content text) <> [] ->
  WrapFacts.line_limit_ok (max_lines text) ->
  forall (low high best : Z) (best_lines : list string),
    (0 <= low)%Z -> best_lines <> [] ->
    exists sz ls,
      wrap_shrink_loop stringWidth text font_name max_width_pts
        max_height_pts fuel low high best best_lines = Ok (sz, ls)
      /\ ls <> []
      /\ (sz = best \/ (low <= sz <= high)%Z).
Proof.
  intros Hnn Hwords Hlimit.
  induction fuel as [| fuel IH]; intros low high best best_lines Hlow Hbest.
  - exists best, best_lines. cbn. auto.
  - destruct (Z_le_gt_dec low high) as [Hle | Hgt].
    + cbn [wrap_shrink_loop].
      replace (low <=? high)%Z with true by (symmetry; now apply Z.leb_le).
      pose proof (ShrinkFacts.mid_between low high Hle) as Hmid.
      set (mid := ((low + high) / 2)%Z) in *.
      pose proof (WrapFacts.wrap_text_nonempty stringWidth (content text)
                    font_name mid max_width_pts (max_lines text)
                    Hwords Hlimit) as Htest.
      destruct (measure_lines_returns (content text) font_name mid
                  max_width_pts max_height_pts _ Hnn ltac:(lia) Htest)
        as [m ->].
      cbn [bind]. destruct (fits_within_bounds m).
      * destruct (IH (mid + 1)%Z high mid _ ltac:(lia) Htest)
          as [sz [ls [E [Hls Hsz]]]].
        exists sz, ls. split; [exact E |]. split; [exact Hls |]. lia.
      * destruct (IH low (mid - 1)%Z best best_lines Hlow Hbest)
          as [sz [ls [E [Hls Hsz]]]].
        exists sz, ls. split; [exact E |]. split; [exact Hls |]. lia.
    + rewrite wrap_shrink_loop_exit by lia.
      exists best, best_lines. auto.
Qed.

Lemma valid_sizes (text : TextElement) :
  TextElement_valid text = true ->
  (6 <= font_size text <= 144)%Z
  /\ (6 <= min_font_size text <= 72)%Z
  /\ WrapFacts.line_limit_ok (max_lines text).
Proof.
  unfold TextElement_valid. intros H.
  repeat (apply andb_prop in H; destruct H as [H ?]).
  unfold WrapFacts.line_limit_ok.
  destruct (max_lines text); repeat split; lia.
Qed.

Lemma apply_wrap_returns (text : TextElement) (panel : Panel) :
  TextElement_valid text = true ->
  measure_nonnegative ->
  split (content text) <> [] ->
  exists sz ls,
    _apply_wrap_strategy stringWidth text panel = Ok (sz, ls)
    /\ ls <> []
    /\ (6 <= sz <= 144)%Z.
Proof.
  intros Hvalid Hnn Hwords.
  destruct (valid_sizes text Hvalid) as [Hfont [Hmin Hlimit]].
  unfold _apply_wrap_strategy.
  destruct (width text) as [w |];
    [| exists (font_size text), [content text]; repeat split;
       [discriminate | lia | lia]].
  set (font_name := _get_font_name _ _).
  pose proof (WrapFacts.wrap_text_nonempty stringWidth (content text)
                font_name (font_size text) (inches_to_points w)
                (max_lines text) Hwords Hlimit) as Hlines.
  set (lines := wrap_text _ _ _ _ _ _) in *.
  assert (Hplain : exists sz ls,
            Ok (font_size text, lines) = Ok (sz, ls)
            /\ ls <> [] /\ (6 <= sz <= 144)%Z).
  { exists (font_size text), lines. auto. }
  destruct (truthy_float (Some w)); [| exact Hplain].
  destruct (negb (Qeq_bool (panel_height panel) 0)); [| exact Hplain].
  destruct (truthy_float _); [| exact Hplain].
  destruct (measure_lines_returns (content text) font_name (font_size text)
              (inches_to_points w) (inches_to_points (panel_height panel))
              lines Hnn ltac:(lia) Hlines) as [m ->].
  cbn [bind]. destruct (_ && _); [| exact Hplain].
  destruct (wrap_shrink_loop_returns text font_name (inches_to_points w)
              (inches_to_points (panel_height panel))
              (shrink_fuel (min_font_size text) (font_size text))
              Hnn Hwords Hlimit (min_font_size text) (font_size text)
              (min_font_size text) lines ltac:(lia) Hlines)
    as [sz [ls [E [Hls Hsz]]]].
  exists sz, ls. split; [exact E |]. split; [exact Hls |]. lia.
Qed.

(** For a valid element under [WRAP] whose content has a word, and a
    measure that is not negative, the fitting step returns. *)
Lemma fit_wrap_returns (text : TextElement) (panel : Panel) :
  resolved_strategy text = WRAP ->
  TextElement_valid text = true ->
  measure_nonnegative ->
  split (content text) <> [] ->
  exists out, _fit_text_element stringWidth text panel = Ok out.
Proof.
  intros Hwrap Hvalid Hnn Hwords.
  destruct (valid_sizes text Hvalid) as [Hfont _].
  destruct (apply_wrap_returns text panel Hvalid Hnn Hwords)
    as [sz [ls [E [Hls Hsz]]]].
  unfold _fit_text_element. rewrite strategy_resolved, Hwrap, E.
  cbn [bind]. unfold AdjustmentResult_new.
  replace ((6 <=? font_size text)%Z && (font_size text <=? 144)%Z)
    with true by (symmetry; apply andb_true_intro; split; lia).
  replace ((6 <=? sz)%Z && (sz <=? 144)%Z)
    with true by (symmetry; apply andb_true_intro; split; lia).
  replace (1 <=? Z.of_nat (length ls))%Z with true
    by (symmetry; apply Z.leb_le; destruct ls;
        [congruence | cbn [length]; lia]).
  cbn [negb bind]. eexists. reflexivity.
Qed.

End Canvas.

Lemma fit_wrap_result
    (stringWidth : string -> string -> Z -> Q) (text : TextElement)
    (panel : Panel) (final_size : Z) (lines : list string)
    (res : AdjustmentResult) :
  resolved_strategy text = WRAP ->
  _fit_text_element stringWidth text panel = Ok (final_size, lines, res) ->
  content_truncated res = false
  /\ strategy_applied res = WRAP
  /\ lines_used res = Z.of_nat (length lines)
  /\ final_font_size res = final_size.
Proof.
  intros Hwrap. unfold _fit_text_element.
  rewrite strategy_resolved, Hwrap.
  destruct (_apply_wrap_strategy stringWidth text panel) as [[sz ls] | e];
    cbn [bind]; [| discriminate].
  unfold AdjustmentResult_new.
  destruct (negb _); [discriminate |].
  destruct (negb _); [discriminate |].
  destruct (negb _); [discriminate |].
  cbn [bind]. intros [= <- <- <-]. cbn. auto.
Qed.

(** C10.  When the strategy applied is [WRAP], every result the fitting
    step returns says [content_truncated = False], names [WRAP] and
    counts the lines returned, whatever [wrap_text] did with the words
    beyond [max_lines]; and for a valid element whose content has a word,
    under a measure that is not negative, the step does return such a
    result. *)
Theorem fit_wrap_reports_no_truncation
    (stringWidth : string -> string -> Z -> Q) (text : TextElement)
    (panel : Panel) :
  resolved_strategy text = WRAP ->
  (forall final_size lines res,
     _fit_text_element stringWidth text panel = Ok (final_size, lines, res) ->
     content_truncated res = false
     /\ strategy_applied res = WRAP
     /\ lines_used res = Z.of_nat (length lines)
     /\ final_font_size res = final_size)
  /\ (TextElement_valid text = true ->
      measure_nonnegative stringWidth ->
      split (content text) <> [] ->
      exists final_size lines res,
        _fit_text_element stringWidth text panel
        = Ok (final_size, lines, res)
        /\ content_truncated res = false).
Proof.
  intros Hwrap. split.
  - intros final_size lines res. now apply fit_wrap_result.
  - intros Hvalid Hnn Hwords.
    destruct (fit_wrap_returns stringWidth text panel Hwrap Hvalid Hnn Hwords)
      as [[[final_size lines] res] E].
    exists final_size, lines, res. split; [exact E |].
    now destruct (fit_wrap_result _ _ _ _ _ _ Hwrap E).
Qed.

Lemma fit_wrap_reports_no_truncation_witness :
  (forall final_size lines res,
     _fit_text_element courier_width greeting front_panel
     = Ok (final_size, lines, res) ->
     content_truncated res = false
     /\ strategy_applied res = WRAP
     /\ lines_used res = Z.of_nat (length lines)
     /\ final_font_size res = final_size)
  /\ (TextElement_valid greeting = true ->
      measure_nonnegative courier_width ->
      split (content greeting) <> [] ->
      exists final_size lines res,
        _fit_text_element courier_width greeting front_panel
        = Ok (final_size, lines, res)
        /\ content_truncated res = false).
Proof.
  apply (fit_wrap_reports_no_truncation courier_width greeting front_panel).
  reflexivity.
Defined.

(** The greeting has eight words; wrapped into two lines only the first
    two are drawn, and the result still says nothing was truncated. *)
Lemma wrap_drops_words_unreported :
  split (content greeting)
  = ["Season's"; "greetings"; "to"; "one"; "and"; "all"; "of"; "you"]
  /\ _fit_text_element courier_width greeting front_panel
     = Ok (12%Z, ["Season's"; "greetings"],
           mkAdjustmentResult true WRAP 12 12 2 false).
Proof. split; vm_compute; reflexivity. Qed.

(** C1, as the code has it.  [render_text] leaves every field of the
    element as it was except the private adjustment record; that record
    becomes the result of the fitting step when the element has a
    non-zero width and the step returns, and stays as it was otherwise.
    The fitting step and the drawing calls do not depend on what was
    recorded before. *)
Theorem render_text_records_adjustment_only
    (stringWidth : string -> string -> Z -> Q) (text : TextElement)
    (panel : Panel) :
  fst (render_text stringWidth text panel)
  = with_adjustment text
      (_adjustment_applied (fst (render_text stringWidth text panel)))
  /\ _adjustment_applied (fst (render_text stringWidth text panel))
     = (if truthy_float text.(width)
        then match _fit_text_element stringWidth text panel with
             | Ok (_, _, res) => Some res
             | Raise _ => _adjustment_applied text
             end
        else _adjustment_applied text)
  /\ (forall adj,
        _fit_text_element stringWidth (with_adjustment text adj) panel
        = _fit_text_element stringWidth text panel)
  /\ (forall adj,
        snd (render_text stringWidth (with_adjustment text adj) panel)
        = snd (render_text stringWidth text panel)).
Proof.
  split; [| split; [| split]].
  - unfold render_text. destruct (truthy_float (width text)).
    + destruct (_fit_text_element stringWidth text panel)
        as [[[sz ls] res] | e]; cbn [fst].
      * reflexivity.
      * symmetry. apply with_adjustment_same.
    + cbn [fst]. symmetry. apply with_adjustment_same.
  - unfold render_text. destruct (truthy_float (width text)).
    + destruct (_fit_text_element stringWidth text panel)
        as [[[sz ls] res] | e]; reflexivity.
    + reflexivity.
  - intros adj. apply fit_ignores_adjustment.
  - intros adj. unfold render_text.
    rewrite (fit_ignores_adjustment stringWidth text adj panel).
    destruct text. cbn.
    match goal with
    | |- context [truthy_float ?w] => destruct (truthy_float w)
    end; [| reflexivity].
    match goal with
    | |- context [_fit_text_element ?f ?t ?p] =>
        destruct (_fit_text_element f t p) as [[[sz ls] res] | e]
    end; reflexivity.
Qed.

(** C1, as stated, fails: the greeting has a width and no recorded
    adjustment; after [render_text] it holds one, so the element is not
    what it was before the call. *)
Lemma render_text_changes_element :
  truthy_float (width greeting) = true
  /\ get_adjustment_result greeting = None
  /\ get_adjustment_result
       (fst (render_text courier_width greeting front_panel))
     = Some (mkAdjustmentResult true WRAP 12 12 2 false)
  /\ fst (render_text courier_width greeting front_panel) <> greeting.
Proof.
  split; [reflexivity |].
  split; [reflexivity |].
  split; [vm_compute; reflexivity |].
  vm_compute. discriminate.
Qed.

End RendererFacts.

(** ** Gradient endpoints *)

Module GradientFacts.

Import GradientUtils.
Local Open Scope R_scope.






End GradientFacts.

(** ** Floats *)

Module PyFloatFacts.

Import PyFloat.
Local Open Scope Q_scope.









End PyFloatFacts.

(** ** Decorative expansion *)

Module DecorativeFacts.

Import PyStr PyFloat PyFloatFacts Decorative.
Local Open Scope string_scope.

(** What the expansion does with a field: move it along x, move it along
    y, or only scale it. *)
Inductive field_kind : Type := PosX | PosY | Size.

(** The shape-specific field sets, as the specification lists them:
    rectangle x, y, width, height; circle and star centre and radii;
    triangle three vertices; line start and end. *)
Definition field_set (ty : string) : list (string * field_kind) :=
  if String.eqb ty "rectangle" then
    [("x", PosX); ("y", PosY); ("width", Size); ("height", Size)]
  else if String.eqb ty "circle" then
    [("center_x", PosX); ("center_y", PosY); ("radius", Size)]
  else if String.eqb ty "triangle" then
    [("x1", PosX); ("y1", PosY); ("x2", PosX); ("y2", PosY);
     ("x3", PosX); ("y3", PosY)]
  else if String.eqb ty "star" then
    [("center_x", PosX); ("center_y", PosY);
     ("outer_radius", Size); ("inner_radius", Size)]
  else if String.eqb ty "line" then
    [("start_x", PosX); ("start_y", PosY); ("end_x", PosX); ("end_y", PosY)]
  else [].

Definition field_set_of (ty : pyval) : list (string * field_kind) :=
  match ty with
  | VStr s => field_set s
  | VNum _ => []
  end.


(** The specification's value of a field: [p * scale + anchor] for a
    position, [size * scale] for a size. *)
Definition moved (element : DecorativeElement) (kind : field_kind) (p : Q)
  : Q :=
  match kind with
  | PosX => p * element.(scale) + element.(x)
  | PosY => p * element.(scale) + element.(y)
  | Size => p * element.(scale)
  end.

Definition apply_field (element : DecorativeElement)
    (f : string * field_kind) (d : shape_dict) : result shape_dict :=
  let* p := get_num d (fst f) in
  Ok (<[fst f := VNum (moved element (snd f) p)]> d).

Fixpoint apply_fields (element : DecorativeElement)
    (fs : list (string * field_kind)) (d : shape_dict) : result shape_dict :=
  match fs with
  | [] => Ok d
  | f :: rest =>
      let* d' := apply_field element f d in apply_fields element rest d'
  end.

Lemma bind_ext {A B : Type} (r : result A) (k1 k2 : A -> result B) :
  (forall a, k1 a = k2 a) -> bind r k1 = bind r k2.
Proof. intros H. destruct r; cbn; auto. Qed.

Lemma bind_Ok {A : Type} (r : result A) : bind r Ok = r.
Proof. now destruct r. Qed.

(** The chain of assignments in the code is the field set of the
    specification, applied in order. *)
Lemma scale_fields_by_set (element : DecorativeElement) (d : shape_dict) :
  scale_fields element d =
  match d !! "type" with
  | None => Raise (KeyError "type")
  | Some ty => apply_fields element (field_set_of ty) d
  end.
Proof.
  unfold scale_fields. destruct (d !! "type") as [[q | s] |];
    [reflexivity | | reflexivity].
  unfold is_type, field_set_of, field_set.
  repeat (match goal with
          | |- context [String.eqb s ?t] => destruct (String.eqb s t)
          end);
    try reflexivity;
    cbn [apply_fields]; unfold apply_field, scale_offset, scale_size;
    cbn [fst snd moved];
    repeat (apply bind_ext; intros ?);
    symmetry; apply bind_Ok.
Qed.

Lemma get_num_Ok (d : shape_dict) (k : string) (p : Q) :
  get_num d k = Ok p <-> d !! k = Some (VNum p).
Proof.
  unfold get_num. destruct (d !! k) as [[q | s] |]; split; intros H;
    try discriminate; congruence.
Qed.

(** Applied to distinct fields, the chain gives each field of the set
    its moved value, computed from the value the shape came with, and
    leaves every other field alone. *)
Lemma apply_fields_lookup (element : DecorativeElement)
    (fs : list (string * field_kind)) :
  NoDup (List.map fst fs) ->
  forall d d' : shape_dict,
    apply_fields element fs d = Ok d' ->
    (forall k kind, In (k, kind) fs ->
       exists p, d !! k = Some (VNum p)
                 /\ d' !! k = Some (VNum (moved element kind p)))
    /\ (forall k, ~ In k (List.map fst fs) -> d' !! k = d !! k).
Proof.
  induction fs as [| [k0 kind0] rest IH]; intros Hnd d d' H.
  - cbn in H. injection H as <-. split; [intros k kind [] | reflexivity].
  - cbn [List.map fst] in Hnd. apply NoDup_cons in Hnd.
    destruct Hnd as [Hk0 Hnd].
    cbn [apply_fields] in H. unfold apply_field in H. cbn [fst snd] in H.
    destruct (get_num d k0) as [p0 | e] eqn:E; cbn [bind] in H;
      [| discriminate].
    apply get_num_Ok in E.
    destruct (IH Hnd _ _ H) as [Hin Hout].
    assert (Hk0' : ~ In k0 (List.map fst rest)).
    { intros Hc. apply Hk0. now apply list_elem_of_In. }
    split.
    + intros k kind [[= <- <-] | Hrest].
      * exists p0. split; [exact E |].
        rewrite (Hout k0 Hk0'). apply lookup_insert_eq.
      * destruct (Hin k kind Hrest) as [p [Hp Hp']].
        exists p. split; [| exact Hp'].
        rewrite lookup_insert_ne in Hp; [exact Hp |].
        intros <-. apply Hk0'. apply in_map_iff. now exists (k0, kind).
    + intros k Hk. cbn [List.map fst] in Hk.
      rewrite Hout by (intros Hc; apply Hk; now right).
      apply lookup_insert_ne. intros <-. apply Hk. now left.
Qed.

Lemma field_set_NoDup (ty : pyval) : NoDup (List.map fst (field_set_of ty)).
Proof.
  destruct ty as [q | s]; [constructor |].
  unfold field_set_of, field_set.
  repeat (match goal with
          | |- context [String.eqb s ?t] => destruct (String.eqb s t)
          end);
    apply (bool_decide_unpack _); vm_compute; reflexivity.
Qed.

(** No field set holds the rotation, the layer, the type or a colour. *)
Lemma field_set_names (ty : pyval) (k : string) :
  In k (List.map fst (field_set_of ty)) ->
  k <> "rotation" /\ k <> "z_index" /\ k <> "type"
  /\ k <> "fill_color" /\ k <> "stroke_color".
Proof.
  destruct ty as [q | s]; [intros [] |].
  unfold field_set_of, field_set.
  repeat (match goal with
          | |- context [String.eqb s ?t] => destruct (String.eqb s t)
          end);
    cbn; intros H;
    repeat (destruct H as [<- | H]; [repeat split; discriminate |]);
    contradiction.
Qed.

Section Rotation.

Local Open Scope Q_scope.




End Rotation.

(** The two colour fields of a shape. *)
Definition colors_of (d : shape_dict) : option pyval * option pyval :=
  (d !! "fill_color", d !! "stroke_color").

(** The shape with both colour fields resolved. *)
Definition resolved (palette : gmap string string) (d : shape_dict)
  : shape_dict :=
  resolve_color_field "stroke_color" palette
    (resolve_color_field "fill_color" palette d).


Lemma resolve_color_field_other (key : string) (palette : gmap string string)
    (d : shape_dict) (k : string) :
  k <> key -> resolve_color_field key palette d !! k = d !! k.
Proof.
  intros Hk. unfold resolve_color_field.
  destruct (d !! key) as [[q | fill] |]; try reflexivity.
  destruct (startswith fill "{" && endswith fill "}"); [| reflexivity].
  apply lookup_insert_ne. congruence.
Qed.


Lemma transform_shape_spec (element : DecorativeElement)
    (s s' : shape_dict) :
  transform_shape element s = Ok s' ->
  exists ty rot,
    s !! "type" = Some ty
    /\ (forall k kind, In (k, kind) (field_set_of ty) ->
          exists p, s !! k = Some (VNum p)
                    /\ s' !! k = Some (VNum (moved element kind p)))
    /\ (s !! "rotation" = Some (VNum rot)
        \/ (s !! "rotation" = None /\ rot = 0%Q))
    /\ s' !! "rotation"
       = Some (VNum (py_fmod (float_add rot element.(rotation)) 360))
    /\ s' !! "z_index"
       = Some (default (VNum (inject_Z element.(z_index))) (s !! "z_index"))
    /\ (forall k, ~ In k (List.map fst (field_set_of ty)) ->
          k <> "rotation" -> k <> "z_index" -> s' !! k = s !! k).
Proof.
  unfold transform_shape. rewrite scale_fields_by_set.
  destruct (s !! "type") as [ty |] eqn:Ety; [| discriminate].
  destruct (apply_fields element (field_set_of ty) s) as [d1 | e] eqn:E1;
    cbn [bind]; [| discriminate].
  destruct (apply_fields_lookup element _ (field_set_NoDup ty) _ _ E1)
    as [Hin Hout].
  assert (Hnames : forall k, k = "rotation" \/ k = "z_index" ->
                             ~ In k (List.map fst (field_set_of ty))).
  { intros k Hk Hc. apply field_set_names in Hc. intuition congruence. }
  rewrite (Hout "rotation" (Hnames _ (or_introl eq_refl))).
  assert (Hrest :
    forall rot,
      (s !! "rotation" = Some (VNum rot)
       \/ (s !! "rotation" = None /\ rot = 0%Q)) ->
      Ok (match
            <["rotation" :=
                VNum (py_fmod (float_add rot element.(rotation)) 360)]> d1
              !! "z_index"
          with
          | Some _ =>
              <["rotation" :=
                  VNum (py_fmod (float_add rot element.(rotation)) 360)]> d1
          | None =>
              <["z_index" := VNum (inject_Z element.(z_index))]>
                (<["rotation" :=
                     VNum (py_fmod (float_add rot element.(rotation)) 360)]> d1)
          end) = Ok s' ->
      exists ty0 rot0,
        Some ty = Some ty0
        /\ (forall k kind, In (k, kind) (field_set_of ty0) ->
              exists p, s !! k = Some (VNum p)
                        /\ s' !! k = Some (VNum (moved element kind p)))
        /\ (s !! "rotation" = Some (VNum rot0)
            \/ (s !! "rotation" = None /\ rot0 = 0%Q))
        /\ s' !! "rotation"
           = Some (VNum (py_fmod (float_add rot0 element.(rotation)) 360))
        /\ s' !! "z_index"
           = Some (default (VNum (inject_Z element.(z_index)))
                     (s !! "z_index"))
        /\ (forall k, ~ In k (List.map fst (field_set_of ty0)) ->
              k <> "rotation" -> k <> "z_index" -> s' !! k = s !! k)).
  { intros rot Hrot H. exists ty, rot. split; [reflexivity |].
    rewrite lookup_insert_ne in H by discriminate.
    rewrite (Hout "z_index" (Hnames _ (or_intror eq_refl))) in H.
    destruct (s !! "z_index") as [z |] eqn:Ez; injection H as <-.
    - split.
      { intros k kind Hk. destruct (Hin k kind Hk) as [p [Hp Hp']].
        exists p. split; [exact Hp |].
        rewrite lookup_insert_ne; [exact Hp' |].
        intros <-. apply (Hnames "rotation" (or_introl eq_refl)).
        apply in_map_iff. now exists ("rotation", kind). }
      split; [exact Hrot |].
      split; [apply lookup_insert_eq |].
      split.
      { rewrite lookup_insert_ne by discriminate.
        rewrite (Hout "z_index" (Hnames _ (or_intror eq_refl))).
        now rewrite Ez. }
      intros k Hk Hr Hz. rewrite lookup_insert_ne by congruence.
      now apply Hout.
    - split.
      { intros k kind Hk. destruct (Hin k kind Hk) as [p [Hp Hp']].
        exists p. split; [exact Hp |].
        assert (Hkin : In k (List.map fst (field_set_of ty)))
          by (apply in_map_iff; now exists (k, kind)).
        rewrite !lookup_insert_ne; [exact Hp' | |].
        - intros <-. now apply (Hnames "rotation" (or_introl eq_refl)).
        - intros <-. now apply (Hnames "z_index" (or_intror eq_refl)). }
      split; [exact Hrot |].
      split.
      { rewrite lookup_insert_ne by discriminate. apply lookup_insert_eq. }
      split; [apply lookup_insert_eq |].
      intros k Hk Hr Hz. rewrite !lookup_insert_ne by congruence.
      now apply Hout. }
  destruct (s !! "rotation") as [[rot | str] |] eqn:Erot; cbn [bind].
  - apply Hrest. now left.
  - discriminate.
  - apply Hrest. now right.
Qed.






(** A small tree: a trunk and a bauble, coloured by role. *)
Definition tree_trunk : shape_dict :=
  <["type" := VStr "rectangle"]>
    (<["x" := VNum (1 # 2)]>
       (<["y" := VNum 0]>
          (<["width" := VNum (1 # 4)]>
             (<["height" := VNum (1 # 2)]>
                (<["fill_color" := VStr "{trunk}"]> ∅))))).

Definition tree_bauble : shape_dict :=
  <["type" := VStr "circle"]>
    (<["center_x" := VNum (1 # 2)]>
       (<["center_y" := VNum 1]>
          (<["radius" := VNum (1 # 8)]>
             (<["rotation" := VNum 300]>
                (<["z_index" := VNum 9]>
                   (<["stroke_color" := VStr "{accent}"]> ∅)))))).

Definition tree : DecorativeElementDefinition :=
  mkDefinition "tree" "A small tree" 1 2
    (<["trunk" := "#8b4513"]> (<["accent" := "#ff0000"]> ∅))
    [tree_trunk; tree_bauble].

Definition tree_instance : DecorativeElement :=
  mkDecorativeElement "e1" "tree" 3 4 2 90 None 5.

Definition tree_expanded : list shape_dict :=
  Eval vm_compute in
    match expand_shapes tree tree_instance with
    | Ok out => out
    | Raise _ => []
    end.






(** The expanded tree, read field by field. *)
Lemma tree_expanded_fields :
  List.map (fun d => (d !! "x", d !! "width", d !! "center_y", d !! "radius",
                      d !! "rotation", d !! "z_index", colors_of d))
    tree_expanded
  = [(Some (VNum (8 # 2)), Some (VNum (2 # 4)), None, None,
      Some (VNum (90 # 1)), Some (VNum 5), (Some (VStr "#8b4513"), None));
     (None, None, Some (VNum (6 # 1)), Some (VNum (2 # 8)),
      Some (VNum (30 # 1)), Some (VNum 9), (None, Some (VStr "#ff0000")))].
Proof. vm_compute. reflexivity. Qed.

End DecorativeFacts.

(** ** More on the path parser *)

Module ParserMore.

Import PyStr SvgParser SvgParserFacts.
Local Open Scope string_scope.

#[local] Arguments is_command_letter : simpl never.
#[local] Arguments is_space : simpl never.

(** The parameter count of a command agrees with its letter: none for a
    close command, a multiple of the expected count otherwise. *)
Definition well_formed (c : PathCommand) : bool :=
  match _get_expected_param_count (command c) with
  | Some k =>
      if (k =? 0)%Z then (length (params c) =? 0)%nat
      else (Z.of_nat (length (params c)) mod k =? 0)%Z
  | None => true
  end.

(** The command letters of a string. *)
Fixpoint count_letters (s : string) : nat :=
  match s with
  | EmptyString => 0
  | String c r =>
      (if is_command_letter c then 1 else 0) + count_letters r
  end.

Definition count_commands (segs : list string) : nat :=
  length (List.filter _is_command segs).

Lemma parse_command_well_formed (c : string) (ps : list Q) (cmd : PathCommand) :
  _parse_command c ps = Ok cmd -> well_formed cmd = true.
Proof.
  unfold _parse_command, well_formed.
  destruct (SVGCommand_of_value c) as [k0 |]; [| discriminate].
  destruct (_get_expected_param_count k0) as [k |] eqn:Ek.
  - destruct (Z.of_nat (length ps) =? k)%Z eqn:Elen; cbn [negb].
    + intros [= <-]. cbn [command params]. rewrite Ek.
      apply Z.eqb_eq in Elen.
      destruct (k =? 0)%Z eqn:Ek0.
      * apply Nat.eqb_eq. lia.
      * rewrite Elen. apply Z.eqb_eq. apply Z_mod_same_full.
    + unfold py_mod. destruct (k =? 0)%Z eqn:Ek0; cbn [bind];
        [discriminate |].
      destruct (Z.of_nat (length ps) mod k =? 0)%Z eqn:Em; cbn [negb];
        [| discriminate].
      intros [= <-]. cbn [command params]. now rewrite Ek, Ek0.
  - intros [= <-]. cbn [command]. now rewrite Ek.
Qed.

(** One pass of the handler adds one command or one warning, and a
    command it adds is well formed. *)
Lemma try_parse_command_step (c : string) (ps : list Q) (st st' : parse_state) :
  try_parse_command c ps st = Ok st' ->
  (length (commands st') + length (warnings st')
   = S (length (commands st) + length (warnings st)))%nat
  /\ (Forall (fun cmd => well_formed cmd = true) (commands st) ->
      Forall (fun cmd => well_formed cmd = true) (commands st')).
Proof.
  unfold try_parse_command.
  destruct (_parse_command c ps) as [cmd | e] eqn:E.
  - intros [= <-]. cbn [commands warnings]. rewrite length_app. cbn.
    split; [lia |]. intros H. apply Forall_app. split; [exact H |].
    constructor; [| constructor]. now apply (parse_command_well_formed c ps).
  - destruct e; try discriminate. intros [= <-]. cbn [commands warnings].
    rewrite length_app. cbn. split; [lia | auto].
Qed.

Lemma count_commands_cons (seg : string) (rest : list string) :
  count_commands (seg :: rest)
  = ((if _is_command seg then 1 else 0) + count_commands rest)%nat.
Proof.
  unfold count_commands. cbn [List.filter].
  now destruct (_is_command seg).
Qed.

Lemma parse_loop_accounts (n : nat) :
  forall (segs : list string) (st st' : parse_state),
    (length segs <= n)%nat ->
    parse_loop segs st = Ok st' ->
    (length (commands st') + length (warnings st')
     = length (commands st) + length (warnings st) + count_commands segs)%nat
    /\ (Forall (fun cmd => well_formed cmd = true) (commands st) ->
        Forall (fun cmd => well_formed cmd = true) (commands st')).
Proof.
  induction n as [| n IH]; intros segs st st' Hlen H.
  - destruct segs; [| cbn in Hlen; lia]. cbn in H. injection H as <-.
    unfold count_commands. cbn. split; [lia | auto].
  - destruct segs as [| seg rest].
    { cbn in H. injection H as <-. unfold count_commands. cbn.
      split; [lia | auto]. }
    cbn [parse_loop] in H. rewrite count_commands_cons.
    destruct (_is_command seg) eqn:Hseg; cbn [negb] in H; [| discriminate].
    destruct rest as [| p rest'].
    + apply try_parse_command_step in H. destruct H as [Hc Hw].
      unfold count_commands. cbn. split; [lia | exact Hw].
    + destruct (_is_command p) eqn:Hp; cbn [negb] in H.
      * destruct (try_parse_command seg [] st) as [st1 | e] eqn:E1;
          [| discriminate].
        apply try_parse_command_step in E1. destruct E1 as [Hc1 Hw1].
        apply IH in H; [| cbn in *; lia]. destruct H as [Hc Hw].
        split; [lia | auto].
      * destruct (try_parse_command seg (_parse_numbers p) st)
          as [st1 | e] eqn:E1; [| discriminate].
        apply try_parse_command_step in E1. destruct E1 as [Hc1 Hw1].
        apply IH in H; [| cbn in *; lia]. destruct H as [Hc Hw].
        rewrite count_commands_cons, Hp. split; [lia | auto].
Qed.

Lemma count_commands_split (s : string) :
  count_commands (COMMAND_PATTERN_split s) = count_letters s.
Proof.
  induction s as [| c r IH]; [reflexivity |].
  cbn [COMMAND_PATTERN_split count_letters].
  pose proof (split_alternating r) as Halt.
  destruct (is_command_letter c) eqn:Hc.
  - rewrite !count_commands_cons. cbn [_is_command]. rewrite Hc, IH.
    reflexivity.
  - destruct (COMMAND_PATTERN_split r) as [| t l] eqn:E; [inversion Halt |].
    rewrite count_commands_cons in *.
    assert (Ht : command_free t = true) by (inversion Halt; assumption).
    rewrite (command_free_not_command t Ht) in IH.
    assert (Hct : command_free (String c t) = true)
      by (cbn; now rewrite Hc, Ht).
    now rewrite (command_free_not_command _ Hct).
Qed.

Lemma count_commands_strip (l : list string) :
  alternating l -> count_commands (strip_segments l) = count_commands l.
Proof.
  induction 1 as [t Ht | t c l Ht Hc Hl IH].
  - rewrite strip_segments_cons, count_commands_cons,
      (command_free_not_command t Ht).
    destruct (truthy (strip t)); [| reflexivity].
    rewrite count_commands_cons.
    now rewrite (command_free_not_command _ (command_free_strip t Ht)).
  - rewrite strip_segments_cons, (strip_segments_command c l Hc).
    rewrite !count_commands_cons, (command_free_not_command t Ht), Hc.
    destruct (truthy (strip t)).
    + rewrite !count_commands_cons, IH, Hc.
      now rewrite (command_free_not_command _ (command_free_strip t Ht)).
    + now rewrite count_commands_cons, IH, Hc.
Qed.

(** Every command letter of the input is accounted for, and what comes
    back is well formed: when [parse] returns, the commands returned and
    the warnings logged are together as many as the command letters of
    the stripped input, and each returned command has no parameter (for
    [Z], [z]) or a multiple of its expected count. *)
Theorem parse_accounts_for_every_letter (s : string) (st : parse_state) :
  parse_logged s = Ok st ->
  (length (commands st) + length (warnings st) = count_letters (strip s))%nat
  /\ Forall (fun cmd => well_formed cmd = true) (commands st).
Proof.
  unfold parse_logged. destruct (negb (truthy (strip s))); [discriminate |].
  intros H. apply (parse_loop_accounts _ _ _ _ (Nat.le_refl _)) in H.
  destruct H as [Hc Hw]. cbn [commands warnings length] in Hc.
  unfold segments_of in Hc.
  rewrite (count_commands_strip _ (split_alternating _)) in Hc.
  rewrite count_commands_split in Hc.
  split; [exact Hc |]. apply Hw. constructor.
Qed.

Lemma parse_accounts_for_every_letter_witness :
  (length
     (commands
        (mkParseState [mkPathCommand MOVE [10; 10]%Q; mkPathCommand CLOSE []]
           ["Skipping unsupported SVG command 'L': Command L expects 2 parameters, got 1"]))
   + length
       (warnings
          (mkParseState
             [mkPathCommand MOVE [10; 10]%Q; mkPathCommand CLOSE []]
             ["Skipping unsupported SVG command 'L': Command L expects 2 parameters, got 1"]))
   = count_letters (strip "M 10 10 L 5 Z"))%nat
  /\ Forall (fun cmd => well_formed cmd = true)
       (commands
          (mkParseState
             [mkPathCommand MOVE [10; 10]%Q; mkPathCommand CLOSE []]
             ["Skipping unsupported SVG command 'L': Command L expects 2 parameters, got 1"])).
Proof.
  apply (parse_accounts_for_every_letter "M 10 10 L 5 Z").
  vm_compute. reflexivity.
Defined.

End ParserMore.

(** ** Path validators and the parser *)

Module PathValidatorFacts.

Import PyStr SvgParser SvgParserFacts FillModels.
Local Open Scope string_scope.

#[local] Arguments is_command_letter : simpl never.
#[local] Arguments is_space : simpl never.

Lemma rstrip_by_idempotent (p : ascii -> bool) (s : string) :
  rstrip_by p (rstrip_by p s) = rstrip_by p s.
Proof.
  induction s as [| c r IH]; [reflexivity |].
  cbn [rstrip_by].
  destruct (is_empty (rstrip_by p r) && p c) eqn:E; [reflexivity |].
  cbn [rstrip_by]. now rewrite IH, E.
Qed.

Lemma lstrip_nonspace_head (c : ascii) (r : string) :
  is_space c = false -> lstrip (String c r) = String c r.
Proof. intros H. unfold lstrip. cbn. now rewrite H. Qed.

Lemma strip_idempotent (s : string) : strip (strip s) = strip s.
Proof.
  destruct (strip s) as [| c r] eqn:E; [reflexivity |].
  pose proof (strip_head s c r E) as Hc.
  unfold strip, strip_by in *. fold (lstrip s) in E.
  fold (lstrip (String c r)). rewrite (lstrip_nonspace_head c r Hc).
  rewrite <- E. apply rstrip_by_idempotent.
Qed.

Lemma has_command_lstrip (s : string) :
  has_command (lstrip s) = has_command s.
Proof.
  unfold lstrip. induction s as [| c r IH]; [reflexivity |].
  cbn [lstrip_by has_command]. destruct (is_space c) eqn:Hc; [| reflexivity].
  rewrite IH. destruct (is_command_letter c) eqn:Hl; [| reflexivity].
  apply command_letter_not_space in Hl. congruence.
Qed.

Lemma has_command_empty (s : string) :
  is_empty s = true -> has_command s = false.
Proof. now destruct s. Qed.

Lemma has_command_rstrip (s : string) :
  has_command (rstrip s) = has_command s.
Proof.
  unfold rstrip. induction s as [| c r IH]; [reflexivity |].
  cbn [rstrip_by has_command].
  destruct (is_empty (rstrip_by is_space r) && is_space c) eqn:E.
  - apply andb_prop in E. destruct E as [Hr Hc].
    rewrite <- IH, (has_command_empty _ Hr), orb_false_r. cbn.
    destruct (is_command_letter c) eqn:Hl; [| reflexivity].
    apply command_letter_not_space in Hl. congruence.
  - cbn [has_command]. now rewrite IH.
Qed.

Lemma has_command_strip (s : string) : has_command (strip s) = has_command s.
Proof.
  unfold strip, strip_by. fold (lstrip s). fold (rstrip (lstrip s)).
  now rewrite has_command_rstrip, has_command_lstrip.
Qed.

(** The model validator returns its argument stripped and accepts its own
    result; the validator of [core/validators.py] says valid for exactly
    the strings the model validator accepts; and the parser never
    rejects an accepted path as empty. *)
Theorem path_validators_agree (v : string) :
  fst (fst (validate_svg_path_data v)) = is_Ok (validate_path_syntax v)
  /\ (forall v', validate_path_syntax v = Ok v' ->
        v' = strip v
        /\ validate_path_syntax v' = Ok v'
        /\ exists c rest, strip v' = String c rest).
Proof.
  split.
  - unfold validate_svg_path_data, validate_path_syntax.
    rewrite has_command_strip.
    destruct (truthy v) eqn:Hv; cbn [negb orb].
    + destruct (truthy (strip v)) eqn:Hs; cbn [negb]; [| reflexivity].
      destruct (has_command v); cbn [negb]; [| reflexivity].
      destruct (strip v) as [| c r]; [reflexivity |].
      destruct (negb (mem_char c "Mm")); reflexivity.
    + destruct v; [reflexivity | discriminate].
  - intros v'. unfold validate_path_syntax.
    destruct (truthy (strip v)) eqn:Hs; cbn [negb]; [| discriminate].
    destruct (has_command (strip v)) eqn:Hc; cbn [negb]; [| discriminate].
    intros [= <-]. split; [reflexivity |].
    rewrite strip_idempotent, Hs, Hc. cbn [negb]. split; [reflexivity |].
    destruct (strip v) as [| c r]; [discriminate |]. eauto.
Qed.

Lemma endswith_app (s : string) (c : ascii) :
  endswith s c = true -> exists s0, s = s0 ++ String c EmptyString.
Proof.
  induction s as [| d r IH]; [discriminate |].
  cbn [endswith]. destruct r as [| e r'].
  - intros H. apply Ascii.eqb_eq in H. subst d. now exists EmptyString.
  - intros H. destruct (IH H) as [s0 Hs0]. exists (String d s0).
    change (String d s0 ++ String c "") with (String d (s0 ++ String c "")).
    now rewrite <- Hs0.
Qed.

Lemma split_app_letter (s : string) (z : ascii) :
  is_command_letter z = true ->
  COMMAND_PATTERN_split (s ++ String z EmptyString)
  = (COMMAND_PATTERN_split s ++ [String z EmptyString; EmptyString])%list.
Proof.
  intros Hz. induction s as [| c r IH].
  - change ("" ++ String z "") with (String z "").
    cbn [COMMAND_PATTERN_split]. now rewrite Hz.
  - change (String c r ++ String z "") with (String c (r ++ String z "")).
    cbn [COMMAND_PATTERN_split]. rewrite IH.
    destruct (is_command_letter c); [reflexivity |].
    pose proof (split_alternating r) as Halt.
    destruct (COMMAND_PATTERN_split r); [inversion Halt | reflexivity].
Qed.

Lemma strip_segments_app (l1 l2 : list string) :
  strip_segments (l1 ++ l2) = (strip_segments l1 ++ strip_segments l2)%list.
Proof. unfold strip_segments. now rewrite List.filter_app, List.map_app. Qed.

Definition close_of (z : ascii) : SVGCommand :=
  if Ascii.eqb z "Z" then CLOSE else CLOSE_REL.

(** A segment list that ends with a close letter ends, when the loop
    returns, with the close command. *)
Lemma parse_loop_ends_closed (z : ascii) (n : nat) :
  z = "Z"%char \/ z = "z"%char ->
  forall (l : list string) (st st' : parse_state),
    (length l <= n)%nat ->
    parse_loop (l ++ [String z EmptyString]) st = Ok st' ->
    exists front,
      commands st' = (front ++ [mkPathCommand (close_of z) []])%list.
Proof.
  intros Hz.
  assert (Hcmd : _is_command (String z "") = true)
    by (destruct Hz as [-> | ->]; reflexivity).
  assert (Hlast : forall st st',
            parse_loop [String z ""] st = Ok st' ->
            exists front,
              commands st' = (front ++ [mkPathCommand (close_of z) []])%list).
  { intros st st' H. cbn [parse_loop] in H. rewrite Hcmd in H.
    cbn [negb] in H. exists (commands st).
    destruct Hz as [-> | ->]; cbn in H; injection H as <-; reflexivity. }
  induction n as [| n IH]; intros l st st' Hlen H.
  - destruct l; [| cbn in Hlen; lia]. now apply (Hlast st).
  - destruct l as [| seg rest]; [now apply (Hlast st) |].
    cbn [app parse_loop] in H.
    destruct (_is_command seg); cbn [negb] in H; [| discriminate].
    destruct rest as [| p rest']; cbn [app] in H.
    + rewrite Hcmd in H. cbn [negb] in H.
      destruct (try_parse_command seg [] st) as [st1 | e]; [| discriminate].
      now apply (Hlast st1).
    + destruct (_is_command p) eqn:Hp; cbn [negb] in H.
      * destruct (try_parse_command seg [] st) as [st1 | e];
          [| discriminate].
        apply (IH (p :: rest') st1 st'); [cbn in *; lia | exact H].
      * destruct (try_parse_command seg (_parse_numbers p) st)
          as [st1 | e]; [| discriminate].
        apply (IH rest' st1 st'); [cbn in *; lia | exact H].
Qed.

(** A stripped path that ends in [Z] or [z] parses, when it parses, to a
    list that ends with the close command. *)
Lemma parse_ends_closed (s : string) (cmds : list PathCommand) :
  endswith (strip s) "Z" || endswith (strip s) "z" = true ->
  parse (strip s) = Ok cmds ->
  exists front z,
    (z = "Z"%char \/ z = "z"%char)
    /\ cmds = (front ++ [mkPathCommand (close_of z) []])%list.
Proof.
  intros E Hparse.
  assert (Hz : exists z s0,
            (z = "Z"%char \/ z = "z"%char)
            /\ strip s = s0 ++ String z "").
  { apply orb_prop in E. destruct E as [E | E];
      apply endswith_app in E; destruct E as [s0 Hs0]; eauto. }
  destruct Hz as [z [s0 [Hz Hs0]]].
  assert (Hletter : is_command_letter z = true)
    by (destruct Hz as [-> | ->]; reflexivity).
  unfold parse, parse_logged in Hparse.
  rewrite strip_idempotent in Hparse.
  destruct (negb (truthy (strip s))); [discriminate |].
  unfold segments_of in Hparse.
  rewrite Hs0, (split_app_letter s0 z Hletter), strip_segments_app in Hparse.
  assert (Htail : strip_segments [String z ""; ""] = [String z ""]).
  { destruct Hz as [-> | ->]; reflexivity. }
  rewrite Htail in Hparse.
  destruct (parse_loop _ _) as [st' |] eqn:Eloop; cbn [bind] in Hparse;
    [| discriminate].
  injection Hparse as <-.
  destruct (parse_loop_ends_closed z _ Hz _ _ _ (Nat.le_refl _) Eloop)
    as [front Hfront].
  exists front, z. split; [exact Hz | exact Hfront].
Qed.

(** A clip path the validator accepts is stripped and ends in [Z] or
    [z]; whenever the parser returns a list for it, the list is not
    empty and its last command is the close command without
    parameters. *)
Theorem closed_path_parses_to_close (v v' : string)
    (cmds : list PathCommand) :
  validate_closed_path v = Ok v' ->
  parse v' = Ok cmds ->
  v' = strip v
  /\ exists front last,
       cmds = (front ++ [last])%list
       /\ params last = []
       /\ (command last = CLOSE \/ command last = CLOSE_REL).
Proof.
  unfold validate_closed_path.
  destruct (endswith (strip v) "Z" || endswith (strip v) "z") eqn:E;
    cbn [negb]; [| discriminate].
  intros [= <-] Hparse. split; [reflexivity |].
  destruct (parse_ends_closed v cmds E Hparse) as [front [z [Hz Hcmds]]].
  exists front, (mkPathCommand (close_of z) []).
  split; [exact Hcmds |]. split; [reflexivity |].
  destruct Hz as [-> | ->]; cbn; auto.
Qed.

Lemma closed_path_parses_to_close_witness :
  "M 0 0 L 1 0 L 1 1 z" = strip "  M 0 0 L 1 0 L 1 1 z "
  /\ exists front last,
       [mkPathCommand MOVE [0; 0]%Q; mkPathCommand LINE [1; 0]%Q;
        mkPathCommand LINE [1; 1]%Q; mkPathCommand CLOSE_REL []]
       = (front ++ [last])%list
       /\ params last = []
       /\ (command last = CLOSE \/ command last = CLOSE_REL).
Proof.
  apply (closed_path_parses_to_close "  M 0 0 L 1 0 L 1 1 z ").
  - vm_compute. reflexivity.
  - vm_compute. reflexivity.
Defined.

End PathValidatorFacts.

(** ** Hexadecimal colours and gradient stops *)

Module FillFacts.

Import PyStr Models FillModels ColorFacts.
Local Open Scope string_scope.

Definition is_hex_char (c : ascii) : bool :=
  match hex_value c with Some _ => true | None => false end.

Fixpoint all_hex (s : string) : bool :=
  match s with
  | EmptyString => true
  | String c r => is_hex_char c && all_hex r
  end.

Definition all_ascii : list ascii := List.map ascii_of_nat (seq 0 256).

Lemma in_all_ascii (c : ascii) : In c all_ascii.
Proof.
  unfold all_ascii. apply in_map_iff. exists (nat_of_ascii c).
  split; [apply ascii_nat_embedding |].
  apply in_seq. pose proof (nat_ascii_bounded c). lia.
Qed.

(** What a hexadecimal digit is not. *)
Definition hex_char_plain (c : ascii) : bool :=
  negb (is_hex_char c)
  || (negb (is_space c) && negb (Ascii.eqb c "_") && negb (Ascii.eqb c "#")
      && negb (Ascii.eqb c "-") && negb (Ascii.eqb c "+")
      && negb (Ascii.eqb c "x") && negb (Ascii.eqb c "X")).

Lemma hex_chars_plain : forallb hex_char_plain all_ascii = true.
Proof. vm_compute. reflexivity. Qed.

Lemma hex_char_facts (c : ascii) :
  is_hex_char c = true ->
  is_space c = false /\ Ascii.eqb c "_" = false /\ Ascii.eqb c "#" = false
  /\ Ascii.eqb c "-" = false /\ Ascii.eqb c "+" = false
  /\ Ascii.eqb c "x" = false /\ Ascii.eqb c "X" = false.
Proof.
  intros H. pose proof hex_chars_plain as Hall.
  rewrite forallb_forall in Hall. specialize (Hall c (in_all_ascii c)).
  unfold hex_char_plain in Hall. rewrite H in Hall. cbn [negb orb] in Hall.
  repeat (apply andb_prop in Hall; destruct Hall as [Hall ?]).
  repeat split; now apply negb_true_iff.
Qed.

Lemma parse_hex_digits_all_hex (s : string) :
  forall acc sep_ok,
    all_hex s = true -> (sep_ok = true \/ s <> EmptyString) ->
    exists n, parse_hex_digits acc sep_ok s = Some n.
Proof.
  induction s as [| c r IH]; intros acc sep_ok Hs Hne.
  - destruct Hne as [-> | Hne]; [eexists; reflexivity | congruence].
  - cbn [all_hex] in Hs. apply andb_prop in Hs. destruct Hs as [Hc Hr].
    destruct (hex_char_facts c Hc) as [_ [Hu _]].
    cbn [parse_hex_digits]. rewrite Hu.
    unfold is_hex_char in Hc. destruct (hex_value c) as [d |];
      [| discriminate].
    apply IH; [exact Hr | now left].
Qed.

Lemma rstrip_all_hex (s : string) : all_hex s = true -> rstrip s = s.
Proof.
  unfold rstrip. induction s as [| c r IH]; [reflexivity |].
  cbn [all_hex]. intros H. apply andb_prop in H. destruct H as [Hc Hr].
  destruct (hex_char_facts c Hc) as [Hsp _].
  cbn [rstrip_by]. now rewrite (IH Hr), Hsp, andb_false_r.
Qed.

Lemma strip_all_hex (s : string) : all_hex s = true -> strip s = s.
Proof.
  intros H. unfold strip, strip_by.
  assert (Hl : lstrip_by is_space s = s).
  { destruct s as [| c r]; [reflexivity |]. cbn [all_hex] in H.
    apply andb_prop in H. destruct H as [Hc _].
    destruct (hex_char_facts c Hc) as [Hsp _]. cbn. now rewrite Hsp. }
  rewrite Hl. now apply rstrip_all_hex.
Qed.

(** [int(s, 16)] reads every non-empty string of hexadecimal digits. *)
Lemma int_base16_all_hex (s : string) :
  all_hex s = true -> s <> EmptyString -> exists n, int_base16 s = Ok n.
Proof.
  intros Hs Hne. unfold int_base16. rewrite (strip_all_hex s Hs).
  destruct s as [| c r]; [congruence |].
  pose proof Hs as Hs'. cbn [all_hex] in Hs'. apply andb_prop in Hs'.
  destruct Hs' as [Hc Hr].
  destruct (hex_char_facts c Hc) as [_ [_ [_ [Hm [Hp _]]]]].
  cbn [SvgParser.match_sign]. rewrite Hm, Hp. cbn [orb].
  assert (Hpre : has_hex_prefix (String c r) = false).
  { destruct r as [| c1 r1]; [reflexivity |]. cbn [has_hex_prefix].
    cbn [all_hex] in Hr. apply andb_prop in Hr. destruct Hr as [Hc1 _].
    destruct (hex_char_facts c1 Hc1) as [_ [_ [_ [_ [_ [Hx HX]]]]]].
    now rewrite Hx, HX, andb_false_r. }
  rewrite Hpre. cbn [is_empty].
  destruct (parse_hex_digits_all_hex (String c r) 0 false Hs
              (or_intror Hne)) as [n ->].
  eexists. reflexivity.
Qed.

(** The colour validator of the fill and shape models: what it accepts
    is seven characters long, starts with [#] and is accepted again
    unchanged; it accepts every six hexadecimal digits, with or without
    the [#], and returns them with it. *)
Theorem validate_hex_color_normalises (v : string) :
  (forall v', validate_hex_color v = Ok v' ->
     String.length v' = 7%nat /\ startswith v' "#" = true
     /\ (v' = v \/ v' = "#" ++ v)
     /\ validate_hex_color v' = Ok v')
  /\ (String.length v = 6%nat -> all_hex v = true ->
      validate_hex_color v = Ok ("#" ++ v)
      /\ validate_hex_color ("#" ++ v) = Ok ("#" ++ v)).
Proof.
  split.
  - intros v'. unfold validate_hex_color.
    set (w := if negb (startswith v "#") then "#" ++ v else v).
    assert (Hw : startswith w "#" = true /\ (w = v \/ w = "#" ++ v)).
    { unfold w. destruct (startswith v "#") eqn:E; cbn [negb]; auto. }
    destruct Hw as [Hw1 Hw2]. clearbody w.
    destruct (String.length w =? 7)%nat eqn:Hlen; cbn [negb];
      [| discriminate].
    destruct (int_base16 (slice w 1 (String.length w))) as [n | e] eqn:Hint;
      [| discriminate].
    intros [= <-].
    split; [now apply Nat.eqb_eq |]. split; [exact Hw1 |].
    split; [exact Hw2 |].
    rewrite Hw1. cbn [negb]. rewrite Hlen. cbn [negb].
    now rewrite Hint.
  - intros Hlen Hhex.
    assert (Hslice : slice ("#" ++ v) 1 (String.length ("#" ++ v)) = v).
    { do 7 (destruct v as [| ? v]; try discriminate). reflexivity. }
    assert (Hne : v <> "") by (intros ->; discriminate).
    destruct (int_base16_all_hex v Hhex Hne) as [n Hn].
    assert (Hlen7 : (String.length ("#" ++ v) =? 7)%nat = true).
    { change ((S (String.length v) =? 7)%nat = true). now rewrite Hlen. }
    assert (Hprefixed : validate_hex_color ("#" ++ v) = Ok ("#" ++ v)).
    { unfold validate_hex_color.
      change (startswith ("#" ++ v) "#") with (Ascii.eqb "#" "#").
      rewrite Ascii.eqb_refl. cbn [negb].
      rewrite Hlen7. cbn [negb]. now rewrite Hslice, Hn. }
    split; [| exact Hprefixed].
    unfold validate_hex_color at 1.
    assert (Hstart : startswith v "#" = false).
    { destruct v as [| c r]; [reflexivity |]. cbn [all_hex] in Hhex.
      apply andb_prop in Hhex. destruct Hhex as [Hc _].
      destruct (hex_char_facts c Hc) as [_ [_ [Hh _]]].
      cbn [startswith]. rewrite Ascii.eqb_sym. exact Hh. }
    rewrite Hstart. cbn [negb].
    rewrite Hlen7. cbn [negb]. now rewrite Hslice, Hn.
Qed.

(** *** From hexadecimal and back *)

Definition pair_roundtrips (a b0 : ascii) : bool :=
  negb (is_hex_char a && is_hex_char b0)
  || match int_base16 (String a (String b0 EmptyString)) with
     | Ok n =>
         (0 <=? n)%Z && (n <=? 255)%Z
         && String.eqb
              (format_02x (int_of_float (inject_Z n / 255 * 255)))
              (String (lower_char a) (String (lower_char b0) EmptyString))
     | Raise _ => false
     end.

Lemma all_pairs_roundtrip :
  forallb (fun a => forallb (pair_roundtrips a) all_ascii) all_ascii = true.
Proof. vm_compute. reflexivity. Qed.

Lemma pair_roundtrip (a b0 : ascii) :
  is_hex_char a = true -> is_hex_char b0 = true ->
  exists n,
    int_base16 (String a (String b0 EmptyString)) = Ok n
    /\ (0 <= n <= 255)%Z
    /\ format_02x (int_of_float (inject_Z n / 255 * 255))
       = String (lower_char a) (String (lower_char b0) EmptyString).
Proof.
  intros Ha Hb. pose proof all_pairs_roundtrip as H.
  rewrite forallb_forall in H. specialize (H a (in_all_ascii a)).
  rewrite forallb_forall in H. specialize (H b0 (in_all_ascii b0)).
  unfold pair_roundtrips in H. rewrite Ha, Hb in H. cbn [andb negb orb] in H.
  destruct (int_base16 (String a (String b0 ""))) as [n | e];
    [| discriminate].
  apply andb_prop in H. destruct H as [H Hfmt].
  apply andb_prop in H. destruct H as [H0 H255].
  exists n. split; [reflexivity |]. split; [lia |].
  now apply String.eqb_eq.
Qed.

(** Six hexadecimal digits read by [from_hex] and written by [to_hex]
    come back in lower case behind a [#]. *)
Theorem color_from_hex_to_hex (s : string) :
  String.length s = 6%nat ->
  all_hex s = true ->
  exists c,
    Color_from_hex ("#" ++ s) = Ok c
    /\ Color_valid c = true
    /\ Color_to_hex c = "#" ++ lower s.
Proof.
  intros Hlen Hhex.
  do 7 (destruct s as [| ? s]; try discriminate).
  cbn [all_hex] in Hhex.
  repeat (apply andb_prop in Hhex; destruct Hhex as [? Hhex]).
  destruct (pair_roundtrip a a0) as [n1 [E1 [B1 F1]]]; try assumption.
  destruct (pair_roundtrip a1 a2) as [n2 [E2 [B2 F2]]]; try assumption.
  destruct (pair_roundtrip a3 a4) as [n3 [E3 [B3 F3]]]; try assumption.
  assert (Ha : Ascii.eqb a "#" = false).
  { now destruct (hex_char_facts a) as [_ [_ [Hh _]]]. }
  change ("#" ++ String a (String a0 (String a1 (String a2
            (String a3 (String a4 ""))))))
    with ("#" ++ String a (String a0 "") ++ String a1 (String a2 "")
              ++ String a3 (String a4 "")).
  rewrite (from_hex_of_bytes _ _ _ _ _ _ _ _ _ Ha E1 E2 E3).
  unfold Color_new.
  rewrite (byte_in_unit _ B1), (byte_in_unit _ B2), (byte_in_unit _ B3).
  cbn [negb]. eexists. split; [reflexivity |]. split.
  - unfold Color_valid. cbn [Models.r Models.g Models.b].
    now rewrite (byte_in_unit _ B1), (byte_in_unit _ B2),
      (byte_in_unit _ B3).
  - unfold Color_to_hex. cbn [Models.r Models.g Models.b].
    rewrite F1, F2, F3. reflexivity.
Qed.

Lemma color_from_hex_to_hex_witness :
  exists c,
    Color_from_hex ("#" ++ "FF8000") = Ok c
    /\ Color_valid c = true
    /\ Color_to_hex c = "#" ++ lower "FF8000".
Proof.
  apply (color_from_hex_to_hex "FF8000"); reflexivity.
Defined.

(** *** Stops in ascending order *)

(** Neighbours never decrease. *)
Fixpoint ascending (l : list Q) : bool :=
  match l with
  | p :: rest =>
      match rest with
      | q :: _ => Qle_bool p q && ascending rest
      | [] => true
      end
  | [] => true
  end.

Lemma ascending_cons (p : Q) (l : list Q) :
  ascending (p :: l)
  = match l with
    | q :: _ => Qle_bool p q && ascending l
    | [] => true
    end.
Proof. reflexivity. Qed.

Lemma sorted_insert_ascending (p : Q) (l : list Q) :
  ascending l = true -> ascending (sorted_insert p l) = true.
Proof.
  induction l as [| q rest IH]; intros Hl; [reflexivity |].
  cbn [sorted_insert]. destruct (Qle_bool p q) eqn:E.
  - rewrite ascending_cons. now rewrite E, Hl.
  - rewrite ascending_cons in Hl.
    assert (Hqp : Qle_bool q p = true).
    { apply Qle_bool_iff. apply Qlt_le_weak, Qnot_le_lt.
      intros Hc. apply Qle_bool_iff in Hc. congruence. }
    destruct rest as [| q2 rest'].
    + cbn. now rewrite Hqp.
    + apply andb_prop in Hl. destruct Hl as [Hq Hrest].
      specialize (IH Hrest). cbn [sorted_insert] in *.
      destruct (Qle_bool p q2); rewrite ascending_cons;
        [now rewrite Hqp, IH | now rewrite Hq, IH].
Qed.

Lemma sorted_ascending (l : list Q) : ascending (sorted l) = true.
Proof.
  induction l as [| p rest IH]; [reflexivity |].
  cbn [sorted]. now apply sorted_insert_ascending.
Qed.

Lemma sorted_of_ascending (l : list Q) : ascending l = true -> sorted l = l.
Proof.
  induction l as [| p rest IH]; [reflexivity |].
  rewrite ascending_cons. cbn [sorted]. destruct rest as [| q rest'].
  - reflexivity.
  - intros H. apply andb_prop in H. destruct H as [Hpq Hrest].
    rewrite (IH Hrest). cbn [sorted_insert]. now rewrite Hpq.
Qed.

Lemma list_float_eqb_refl (l : list Q) : list_float_eqb l l = true.
Proof.
  induction l as [| p rest IH]; [reflexivity |].
  cbn. rewrite IH, andb_true_r. apply Qeq_bool_iff. reflexivity.
Qed.

Lemma ascending_of_equal (l1 : list Q) :
  forall l2, list_float_eqb l1 l2 = true -> ascending l2 = true ->
             ascending l1 = true.
Proof.
  induction l1 as [| p r1 IH]; intros [| q r2] Heq Hasc;
    try reflexivity; try discriminate.
  cbn [list_float_eqb] in Heq. apply andb_prop in Heq.
  destruct Heq as [Hpq Hr]. rewrite ascending_cons in *.
  destruct r1 as [| p2 r1']; [reflexivity |].
  destruct r2 as [| q2 r2']; [discriminate |].
  apply andb_prop in Hasc. destruct Hasc as [Hq Hasc2].
  rewrite (IH _ Hr Hasc2), andb_true_r.
  cbn [list_float_eqb] in Hr. apply andb_prop in Hr. destruct Hr as [Hp2 _].
  apply Qeq_bool_iff in Hpq, Hp2. apply Qle_bool_iff in Hq.
  apply Qle_bool_iff. now rewrite Hpq, Hp2.
Qed.

(** The gradient validator accepts a list of stops exactly when no stop
    has a smaller position than the stop before it, and returns the list
    unchanged. *)
Theorem validate_stops_ascending_accepts (v : list ColorStop) :
  is_Ok (validate_stops_ascending v) = ascending (List.map position v)
  /\ (forall v', validate_stops_ascending v = Ok v' -> v' = v).
Proof.
  unfold validate_stops_ascending.
  set (positions := List.map position v).
  split.
  - destruct (ascending positions) eqn:Hasc.
    + rewrite (sorted_of_ascending _ Hasc), list_float_eqb_refl.
      reflexivity.
    + destruct (list_float_eqb positions (sorted positions)) eqn:Heq;
        [| reflexivity].
      rewrite (ascending_of_equal _ _ Heq (sorted_ascending _)) in Hasc.
      discriminate.
  - intros v'. destruct (negb _); [discriminate | now intros [= <-]].
Qed.

End FillFacts.

(** ** More on fitting text ([core/text_utils.py],
    [renderers/reportlab_renderer.py]) *)

Module FittingFacts.

Import PyStr Models TextUtils Measurements Renderer.
Import ShrinkFacts.
Local Open Scope string_scope.
Local Open Scope Z_scope.

(** *** The size [shrink_to_fit] picks *)

(** With a measure that grows with the font size, [shrink_to_fit]
    returns the largest size of [min_size .. initial_size] at which the
    text is no wider than [max_width]; when no size of that range fits
    (or the range is empty) it returns [min_size]. *)
Theorem shrink_to_fit_largest
    (stringWidth : string -> string -> Z -> Q) (content font_name : string)
    (initial_size min_size r : Z) (max_width : Q) :
  monotone_in_size stringWidth content font_name ->
  shrink_to_fit stringWidth content font_name initial_size max_width min_size
  = Ok r ->
  ((stringWidth content font_name r <= max_width)%Q
   /\ min_size <= r <= initial_size
   /\ forall s, r < s <= initial_size ->
                ~ (stringWidth content font_name s <= max_width)%Q)
  \/ (r = min_size
      /\ forall s, min_size <= s <= initial_size ->
                   ~ (stringWidth content font_name s <= max_width)%Q).
Proof.
  intros Hmono H. unfold shrink_to_fit in H.
  apply (shrink_loop_largest stringWidth content font_name max_width _ Hmono)
    in H; [| apply Nat.le_refl].
  assert (Hno : forall s,
            fits stringWidth content font_name max_width s = false ->
            ~ (stringWidth content font_name s <= max_width)%Q).
  { intros s Hs Hc. apply Qle_bool_iff in Hc. unfold fits in Hs.
    congruence. }
  destruct H as [[-> Hnone] | [Hr [Hfit Habove]]].
  - right. split; [reflexivity |]. intros s Hs. now apply Hno, Hnone.
  - left. split; [now apply Qle_bool_iff |]. split; [exact Hr |].
    intros s Hs. now apply Hno, Habove.
Qed.

Lemma shrink_to_fit_largest_witness :
  ((courier_width "Hello World" "Courier" 15 <= 100 # 1)%Q
   /\ 8 <= 15 <= 72
   /\ forall s, 15 < s <= 72 ->
                ~ (courier_width "Hello World" "Courier" s <= 100 # 1)%Q)
  \/ (15 = 8
      /\ forall s, 8 <= s <= 72 ->
                   ~ (courier_width "Hello World" "Courier" s <= 100 # 1)%Q).
Proof.
  apply (shrink_to_fit_largest courier_width "Hello World" "Courier"
           72 8 15 (100 # 1)).
  - apply courier_width_monotone.
  - vm_compute. reflexivity.
Defined.

(** *** Truncation with an ellipsis *)

Lemma length_app (a b0 : string) :
  String.length (a ++ b0) = (String.length a + String.length b0)%nat.
Proof.
  induction a as [| c a IH]; [reflexivity |].
  change (String c a ++ b0) with (String c (a ++ b0)).
  cbn [String.length]. now rewrite IH.
Qed.

Lemma drop_last_snoc (t : string) :
  t <> "" -> exists c, t = drop_last t ++ String c "".
Proof.
  induction t as [| a t IH]; [congruence |]. intros _.
  destruct t as [| a' t'].
  - exists a. reflexivity.
  - destruct IH as [c Hc]; [discriminate |]. exists c.
    change (drop_last (String a (String a' t')))
      with (String a (drop_last (String a' t'))).
    change (String a (drop_last (String a' t')) ++ String c "")
      with (String a (drop_last (String a' t') ++ String c "")).
    now rewrite <- Hc.
Qed.

Lemma length_drop_last (t : string) :
  String.length (drop_last t) = Nat.pred (String.length t).
Proof.
  induction t as [| a t IH]; [reflexivity |].
  destruct t as [| a' t']; [reflexivity |].
  change (drop_last (String a (String a' t')))
    with (String a (drop_last (String a' t'))).
  cbn [String.length] in *. now rewrite IH.
Qed.

(** A proper initial part of [t] is an initial part of [t[:-1]]. *)
Lemma prefix_drop_last (q : string) :
  forall t rest,
    t = q ++ rest -> rest <> "" ->
    exists rest', drop_last t = q ++ rest'.
Proof.
  induction q as [| a q IH]; intros t rest Ht Hrest.
  - exists (drop_last t). reflexivity.
  - change (String a q ++ rest) with (String a (q ++ rest)) in Ht.
    subst t.
    destruct (q ++ rest) as [| a' t'] eqn:E.
    + destruct q; [| discriminate].
      change ("" ++ rest) with rest in E. congruence.
    + destruct (IH (String a' t') rest (eq_sym E) Hrest) as [rest' Hr].
      exists rest'.
      change (drop_last (String a (String a' t')))
        with (String a (drop_last (String a' t'))).
      now rewrite Hr.
Qed.

Section Truncate.

Variable stringWidth : string -> string -> Z -> Q.
Variable font_name : string.
Variable font_size : Z.
Variable available_width : Q.

(** The loop stops at the longest initial part that is narrow enough,
    or at the empty string. *)
Lemma truncate_loop_longest (fuel : nat) :
  forall t,
    (String.length t <= fuel)%nat ->
    exists dropped,
      t = truncate_loop stringWidth font_name font_size available_width
            fuel t ++ dropped
      /\ (truncate_loop stringWidth font_name font_size available_width
            fuel t = ""
          \/ (stringWidth
                (truncate_loop stringWidth font_name font_size
                   available_width fuel t) font_name font_size
              <= available_width)%Q)
      /\ forall q rest,
           t = q ++ rest ->
           (String.length
              (truncate_loop stringWidth font_name font_size
                 available_width fuel t) < String.length q)%nat ->
           ~ (stringWidth q font_name font_size <= available_width)%Q.
Proof.
  induction fuel as [| fuel IH]; intros t Hlen.
  - destruct t; [| cbn in Hlen; lia]. exists "". cbn [truncate_loop].
    split; [reflexivity |]. split; [now left |].
    intros q rest Hq Hlt. destruct q; [cbn in Hlt; lia | discriminate].
  - cbn [truncate_loop].
    destruct (Qle_bool (stringWidth t font_name font_size) available_width)
      eqn:Hfit; cbn [negb andb].
    + exists "". split; [now rewrite WordFacts.append_nil_r |].
      split; [right; now apply Qle_bool_iff |].
      intros q rest Hq Hlt. rewrite Hq, length_app in Hlt. lia.
    + destruct (0 <? String.length t)%nat eqn:Hpos.
      * apply Nat.ltb_lt in Hpos.
        assert (Hne : t <> "") by (intros ->; cbn in Hpos; lia).
        destruct (drop_last_snoc t Hne) as [c Hc].
        destruct (IH (drop_last t)) as [dropped [Hd [Hk Hlong]]].
        { rewrite length_drop_last. lia. }
        exists (dropped ++ String c "").
        split; [rewrite <- WordFacts.append_assoc, <- Hd; exact Hc |].
        split; [exact Hk |].
        intros q rest Hq Hlt.
        destruct rest as [| a rest'].
        -- rewrite WordFacts.append_nil_r in Hq. subst q.
           intros Hc'. apply Qle_bool_iff in Hc'. congruence.
        -- destruct (prefix_drop_last q t (String a rest') Hq
                       ltac:(discriminate)) as [r2 Hr2].
           now apply (Hlong q r2).
      * apply Nat.ltb_ge in Hpos.
        destruct t; [| cbn in Hpos; lia].
        exists "". split; [reflexivity |]. split; [now left |].
        intros q rest Hq Hlt.
        destruct q; [cbn in Hlt; lia | discriminate].
Qed.

End Truncate.

(** [_handle_text_overflow] returns the content itself when it is no
    wider than [max_width].  Otherwise it cuts the content after its
    longest initial part that leaves room for the ellipsis (the empty
    part when none does), strips trailing whitespace from what it keeps
    and appends ["..."]. *)
Theorem handle_text_overflow_result
    (stringWidth : string -> string -> Z -> Q) (content font_name : string)
    (font_size : Z) (max_width : Q) :
  ((stringWidth content font_name font_size <= max_width)%Q ->
   _handle_text_overflow stringWidth content font_name font_size max_width
   = content)
  /\ (~ (stringWidth content font_name font_size <= max_width)%Q ->
      exists kept dropped,
        content = kept ++ dropped
        /\ _handle_text_overflow stringWidth content font_name font_size
             max_width = rstrip kept ++ "..."
        /\ (kept = ""
            \/ (stringWidth kept font_name font_size
                <= max_width - stringWidth "..." font_name font_size)%Q)
        /\ forall q rest,
             content = q ++ rest ->
             (String.length kept < String.length q)%nat ->
             ~ (stringWidth q font_name font_size
                <= max_width - stringWidth "..." font_name font_size)%Q).
Proof.
  unfold _handle_text_overflow. split.
  - intros H. apply Qle_bool_iff in H. now rewrite H.
  - intros H.
    destruct (Qle_bool (stringWidth content font_name font_size) max_width)
      eqn:E; [apply Qle_bool_iff in E; contradiction |].
    destruct (truncate_loop_longest stringWidth font_name font_size
                (max_width - stringWidth "..." font_name font_size)
                (String.length content) content (Nat.le_refl _))
      as [dropped [Hd [Hk Hlong]]].
    exists (truncate_loop stringWidth font_name font_size
              (max_width - stringWidth "..." font_name font_size)
              (String.length content) content), dropped.
    split; [exact Hd |]. split; [reflexivity |].
    split; [exact Hk | exact Hlong].
Qed.

(** *** What the fitting step reports *)

Lemma resolved_not_auto (text : TextElement) :
  resolved_strategy text <> AUTO.
Proof.
  unfold resolved_strategy, _select_auto_strategy.
  destruct (overflow_strategy text); try discriminate.
  destruct (_ <? _)%nat; [discriminate |].
  destruct (_ && _); discriminate.
Qed.

(** The end of [_fit_text_element], once size, lines and the truncation
    flag are known. *)
Lemma fit_tail (text : TextElement) (strategy : OverflowStrategy)
    (sz : Z) (ls : list string) (tr : bool)
    (size : Z) (lines : list string) (res : AdjustmentResult) :
  (let* res0 :=
     AdjustmentResult_new
       (negb (sz =? font_size text) || tr || (1 <? length ls)%nat)
       strategy (font_size text) sz (Z.of_nat (length ls)) tr in
   Ok (sz, ls, res0)) = Ok (size, lines, res) ->
  size = sz /\ lines = ls
  /\ res = mkAdjustmentResult
             (negb (sz =? font_size text) || tr || (1 <? length ls)%nat)
             strategy (font_size text) sz (Z.of_nat (length ls)) tr
  /\ 6 <= font_size text <= 144 /\ 6 <= sz <= 144 /\ ls <> [].
Proof.
  unfold AdjustmentResult_new.
  destruct ((6 <=? font_size text) && (font_size text <=? 144)) eqn:E1;
    cbn [negb bind]; [| discriminate].
  destruct ((6 <=? sz) && (sz <=? 144)) eqn:E2; cbn [negb bind];
    [| discriminate].
  destruct (1 <=? Z.of_nat (length ls)) eqn:E3; cbn [negb bind];
    [| discriminate].
  intros [= <- <- <-]. apply andb_prop in E1, E2.
  repeat split; try lia.
  intros ->. cbn in E3. discriminate.
Qed.

(** Every result of [_fit_text_element] names the strategy that was
    applied, which is never [AUTO]; it records the element's font size
    as the original size, the returned size as the final one and the
    number of returned lines; there is at least one line, and both sizes
    lie in 6..144.  [was_adjusted] says exactly that the size changed,
    the content was truncated or more than one line came back.  Outside
    [WRAP] there is one line, [TRUNCATE] keeps the font size, and an
    element without a width comes back as it is. *)
Theorem fit_text_element_result
    (stringWidth : string -> string -> Z -> Q) (text : TextElement)
    (panel : Panel) (size : Z) (lines : list string)
    (res : AdjustmentResult) :
  _fit_text_element stringWidth text panel = Ok (size, lines, res) ->
  strategy_applied res = resolved_strategy text
  /\ strategy_applied res <> AUTO
  /\ original_font_size res = font_size text
  /\ final_font_size res = size
  /\ lines_used res = Z.of_nat (length lines)
  /\ lines <> []
  /\ 6 <= font_size text <= 144
  /\ 6 <= size <= 144
  /\ was_adjusted res
     = negb (size =? font_size text) || content_truncated res
       || (1 <? length lines)%nat
  /\ (strategy_applied res <> WRAP -> length lines = 1%nat)
  /\ (strategy_applied res = TRUNCATE -> size = font_size text)
  /\ (width text = None ->
      size = font_size text /\ lines = [content text]
      /\ was_adjusted res = false).
Proof.
  unfold _fit_text_element.
  rewrite RendererFacts.strategy_resolved.
  pose proof (resolved_not_auto text) as Hauto.
  destruct (resolved_strategy text) eqn:Hs; [congruence | | |].
  - destruct (_apply_shrink_strategy stringWidth text panel)
      as [[sz c] | e] eqn:E; cbn [bind]; [| discriminate].
    intros H. apply fit_tail in H.
    destruct H as [-> [-> [-> [Ho [Hf Hne]]]]].
    split; [reflexivity |]. split; [discriminate |].
    do 3 (split; [reflexivity |]). split; [exact Hne |].
    split; [exact Ho |]. split; [exact Hf |]. split; [reflexivity |].
    split; [intros _; reflexivity |]. split; [discriminate |].
    intros Hw. unfold _apply_shrink_strategy in E. rewrite Hw in E.
    injection E as <- <-. cbn [was_adjusted length].
    rewrite Z.eqb_refl, String.eqb_refl. auto.
  - destruct (_apply_wrap_strategy stringWidth text panel)
      as [[sz ls] | e] eqn:E; cbn [bind]; [| discriminate].
    intros H. apply fit_tail in H.
    destruct H as [-> [-> [-> [Ho [Hf Hne]]]]].
    split; [reflexivity |]. split; [discriminate |].
    do 3 (split; [reflexivity |]). split; [exact Hne |].
    split; [exact Ho |]. split; [exact Hf |]. split; [reflexivity |].
    split; [intros Hc; now contradiction Hc |]. split; [discriminate |].
    intros Hw. unfold _apply_wrap_strategy in E. rewrite Hw in E.
    injection E as <- <-. cbn [was_adjusted length].
    rewrite Z.eqb_refl. auto.
  - destruct (_apply_truncate_strategy stringWidth text panel)
      as [sz c] eqn:E; cbn [bind].
    intros H. apply fit_tail in H.
    destruct H as [-> [-> [-> [Ho [Hf Hne]]]]].
    split; [reflexivity |]. split; [discriminate |].
    do 3 (split; [reflexivity |]). split; [exact Hne |].
    split; [exact Ho |]. split; [exact Hf |]. split; [reflexivity |].
    split; [intros _; reflexivity |].
    split.
    + intros _. unfold _apply_truncate_strategy in E.
      destruct (width text); now injection E as <- _.
    + intros Hw. unfold _apply_truncate_strategy in E. rewrite Hw in E.
      injection E as <- <-. cbn [was_adjusted length].
      rewrite Z.eqb_refl, String.eqb_refl. auto.
Qed.

(** A title in a box one inch wide, shrunk to the minimum size. *)
Definition title : TextElement :=
  mkTextElement "title" "Merry Christmas" 0 0 (Some 1%Q) "Courier" 24
    NORMAL None LEFT 0 100 AUTO None 8 None.

Lemma fit_text_element_result_witness :
  strategy_applied (mkAdjustmentResult true SHRINK 24 8 1 false)
  = resolved_strategy title
  /\ strategy_applied (mkAdjustmentResult true SHRINK 24 8 1 false) <> AUTO
  /\ original_font_size (mkAdjustmentResult true SHRINK 24 8 1 false)
     = font_size title
  /\ final_font_size (mkAdjustmentResult true SHRINK 24 8 1 false) = 8
  /\ lines_used (mkAdjustmentResult true SHRINK 24 8 1 false)
     = Z.of_nat (length ["Merry Christmas"])
  /\ ["Merry Christmas"] <> []
  /\ 6 <= font_size title <= 144
  /\ 6 <= 8 <= 144
  /\ was_adjusted (mkAdjustmentResult true SHRINK 24 8 1 false)
     = negb (8 =? font_size title)
       || content_truncated (mkAdjustmentResult true SHRINK 24 8 1 false)
       || (1 <? length ["Merry Christmas"])%nat
  /\ (strategy_applied (mkAdjustmentResult true SHRINK 24 8 1 false) <> WRAP ->
      length ["Merry Christmas"] = 1%nat)
  /\ (strategy_applied (mkAdjustmentResult true SHRINK 24 8 1 false)
      = TRUNCATE -> 8 = font_size title)
  /\ (width title = None ->
      8 = font_size title /\ ["Merry Christmas"] = [content title]
      /\ was_adjusted (mkAdjustmentResult true SHRINK 24 8 1 false) = false).
Proof.
  apply (fit_text_element_result courier_width title
           RendererFacts.front_panel 8 ["Merry Christmas"]
           (mkAdjustmentResult true SHRINK 24 8 1 false)).
  vm_compute. reflexivity.
Defined.

(** *** Wrapping a content without words *)

Lemma wrap_text_no_words
    (stringWidth : string -> string -> Z -> Q) (content font_name : string)
    (font_size : Z) (max_width : Q) (max_lines : option Z) :
  split content = [] ->
  wrap_text stringWidth content font_name font_size max_width max_lines = [].
Proof.
  intros H. unfold wrap_text. rewrite H. cbn [wrap_loop].
  destruct max_lines as [n |]; [| reflexivity].
  destruct (n =? 0); [reflexivity |].
  unfold slice_to. destruct (0 <=? n); apply List.firstn_nil.
Qed.

Lemma measure_no_lines
    (stringWidth : string -> string -> Z -> Q) (content font_name : string)
    (font_size : Z) (max_width : Q) (max_height : option Q) :
  exists field,
    measure_text stringWidth content font_name font_size max_width
      max_height (Some []) = Raise (ValidationError field).
Proof.
  unfold measure_text, TextMetrics_new. cbn [List.map length Z.of_nat].
  destruct (negb (Qle_bool 0 0)); [eexists; reflexivity |].
  destruct (negb (Qle_bool 0 _)); [eexists; reflexivity |].
  cbn. eexists. reflexivity.
Qed.

(** A content without a word (blank, as [" "], which the model of
    [TextElement] admits) cannot be wrapped: when the element has a
    width and the strategy applied is [WRAP], [wrap_text] returns no
    line and the fitting step ends in a validation error, that of
    [TextMetrics] ([line_count >= 1]) or that of [AdjustmentResult]
    ([lines_used >= 1]); [render_text] passes the error on and leaves
    the element as it was. *)
Theorem wrap_without_words_raises
    (stringWidth : string -> string -> Z -> Q) (text : TextElement)
    (panel : Panel) (w : Q) :
  split (content text) = [] ->
  width text = Some w ->
  resolved_strategy text = WRAP ->
  (exists field,
     _fit_text_element stringWidth text panel
     = Raise (ValidationError field))
  /\ (truthy_float (width text) = true ->
      exists field,
        render_text stringWidth text panel
        = (text, Raise (ValidationError field))).
Proof.
  intros Hwords Hwidth Hwrap.
  assert (Hfit : exists field,
            _fit_text_element stringWidth text panel
            = Raise (ValidationError field)).
  { unfold _fit_text_element.
    rewrite RendererFacts.strategy_resolved, Hwrap.
    unfold _apply_wrap_strategy. rewrite Hwidth.
    rewrite wrap_text_no_words by exact Hwords.
    assert (Hplain : exists field,
              (let* res :=
                 AdjustmentResult_new
                   (negb (font_size text =? font_size text) || false
                    || (1 <? @length string [])%nat)
                   WRAP (font_size text) (font_size text)
                   (Z.of_nat (@length string [])) false in
               Ok (font_size text, @nil string, res))
              = Raise (ValidationError field)).
    { unfold AdjustmentResult_new.
      destruct (negb ((6 <=? font_size text) && (font_size text <=? 144)));
        [eexists; reflexivity |].
      cbn. eexists. reflexivity. }
    destruct (truthy_float (Some w)); cbn [bind]; [| exact Hplain].
    destruct (negb (Qeq_bool (panel_height panel) 0)); cbn [bind];
      [| exact Hplain].
    destruct (truthy_float _); cbn [bind]; [| exact Hplain].
    destruct (measure_no_lines stringWidth (content text)
                (_get_font_name (font_family text)
                   (FontStyle_value (font_style text)))
                (font_size text) (inches_to_points w)
                (Some (inches_to_points (panel_height panel))))
      as [field ->].
    cbn [bind]. eexists. reflexivity. }
  split; [exact Hfit |].
  intros Htruthy. destruct Hfit as [field Hfit]. exists field.
  unfold render_text. now rewrite Htruthy, Hfit.
Qed.

(** A blank text to be wrapped. *)
Definition blank : TextElement :=
  mkTextElement "blank" " " 0 0 (Some 1%Q) "Courier" 12
    NORMAL None LEFT 0 100 WRAP None 8 None.

Lemma wrap_without_words_raises_witness :
  TextElement_valid blank = true
  /\ (exists field,
        _fit_text_element courier_width blank RendererFacts.front_panel
        = Raise (ValidationError field))
  /\ (truthy_float (width blank) = true ->
      exists field,
        render_text courier_width blank RendererFacts.front_panel
        = (blank, Raise (ValidationError field))).
Proof.
  split; [reflexivity |].
  apply (wrap_without_words_raises courier_width blank
           RendererFacts.front_panel 1%Q); reflexivity.
Defined.

End FittingFacts.

(** ** More on decorative elements ([core/decorative.py]) *)

Module DecorativeMore.

Import PyStr PyFloat PyFloatFacts Decorative DecorativeFacts.
Local Open Scope string_scope.

(** *** Rotation and layer of the expanded shapes *)




(** *** Which colour a placeholder gets *)

Lemma rstrip_by_snoc (p : ascii -> bool) (z : ascii) (s : string) :
  p z = true -> rstrip_by p (s ++ String z "") = rstrip_by p s.
Proof.
  intros Hz. induction s as [| c s IH].
  - change ("" ++ String z "") with (String z ""). cbn [rstrip_by is_empty].
    now rewrite Hz.
  - change (String c s ++ String z "") with (String c (s ++ String z "")).
    cbn [rstrip_by]. now rewrite IH.
Qed.

Lemma lstrip_by_snoc (p : ascii -> bool) (z : ascii) (s : string) :
  p z = true ->
  rstrip_by p (lstrip_by p (s ++ String z "")) = rstrip_by p (lstrip_by p s).
Proof.
  intros Hz. induction s as [| c s IH].
  - change ("" ++ String z "") with (String z "").
    cbn [lstrip_by]. now rewrite Hz.
  - change (String c s ++ String z "") with (String c (s ++ String z "")).
    cbn [lstrip_by]. destruct (p c); [exact IH |].
    change (String c (s ++ String z "")) with (String c s ++ String z "").
    now apply rstrip_by_snoc.
Qed.

(** The role named by a placeholder: the braces around it are dropped. *)
Lemma placeholder_role (name : string) :
  strip_chars "{}" ("{" ++ name ++ "}") = strip_chars "{}" name.
Proof.
  unfold strip_chars, strip_by.
  change ("{" ++ name ++ "}") with (String "{" (name ++ String "}" "")).
  cbn [lstrip_by mem_char]. rewrite Ascii.eqb_refl. cbn [orb].
  now apply lstrip_by_snoc.
Qed.

(** The colour a role stands for: the instance's override when it has
    one, else the definition's default, else the text of the placeholder
    itself. *)
Definition role_color (definition : DecorativeElementDefinition)
    (color_palette : option (gmap string string)) (role fill : string)
  : string :=
  match color_palette with
  | Some overrides =>
      match overrides !! role with
      | Some c => c
      | None => default fill (definition.(color_roles) !! role)
      end
  | None => default fill (definition.(color_roles) !! role)
  end.

Lemma build_palette_lookup (definition : DecorativeElementDefinition)
    (color_palette : option (gmap string string)) (role fill : string) :
  default fill (build_palette definition color_palette !! role)
  = role_color definition color_palette role fill.
Proof.
  unfold build_palette, role_color.
  destruct color_palette as [overrides |]; [| reflexivity].
  destruct (bool_decide (overrides = ∅)) eqn:E.
  - apply bool_decide_eq_true in E. subst overrides.
    now rewrite lookup_empty.
  - rewrite lookup_union.
    destruct (overrides !! role), (color_roles definition !! role);
      reflexivity.
Qed.

Lemma resolve_color_field_same (key : string) (palette : gmap string string)
    (d : shape_dict) :
  resolve_color_field key palette d !! key
  = match d !! key with
    | Some (VStr fill) =>
        if startswith fill "{" && endswith fill "}"
        then Some (VStr (default fill (palette !! strip_chars "{}" fill)))
        else Some (VStr fill)
    | other => other
    end.
Proof.
  unfold resolve_color_field.
  destruct (d !! key) as [[q | fill] |] eqn:E; try exact E.
  destruct (startswith fill "{" && endswith fill "}"); [| exact E].
  apply lookup_insert_eq.
Qed.

(** [resolve_colors] handles each shape on its own, and in each of the
    two colour fields: a string that starts with an opening and ends
    with a closing brace is replaced by the colour of its role, which is
    the instance's override if there is one, else the definition's
    default, else the string itself; any other value is left as it is.
    The role is the string without the braces at its two ends. *)
Theorem resolve_colors_precedence (definition : DecorativeElementDefinition)
    (color_palette : option (gmap string string)) :
  resolve_colors definition color_palette
  = List.map (resolved (build_palette definition color_palette))
      definition.(shapes)
  /\ (forall (shape : shape_dict) (key : string),
        key = "fill_color" \/ key = "stroke_color" ->
        resolved (build_palette definition color_palette) shape !! key
        = match shape !! key with
          | Some (VStr fill) =>
              if startswith fill "{" && endswith fill "}"
              then Some (VStr (role_color definition color_palette
                                 (strip_chars "{}" fill) fill))
              else Some (VStr fill)
          | other => other
          end)
  /\ (forall name, strip_chars "{}" ("{" ++ name ++ "}")
                   = strip_chars "{}" name).
Proof.
  split; [reflexivity |]. split; [| exact placeholder_role].
  intros shape key [-> | ->]; unfold resolved.
  - rewrite resolve_color_field_other by discriminate.
    rewrite resolve_color_field_same.
    destruct (shape !! "fill_color") as [[q | fill] |]; try reflexivity.
    destruct (startswith fill "{" && endswith fill "}"); [| reflexivity].
    now rewrite build_palette_lookup.
  - rewrite resolve_color_field_same.
    rewrite resolve_color_field_other by discriminate.
    destruct (shape !! "stroke_color") as [[q | fill] |]; try reflexivity.
    destruct (startswith fill "{" && endswith fill "}"); [| reflexivity].
    now rewrite build_palette_lookup.
Qed.

(** *** When the transforms return *)

Lemma apply_fields_returns (element : DecorativeElement)
    (fs : list (string * field_kind)) :
  NoDup (List.map fst fs) ->
  forall d : shape_dict,
    (forall k kind, In (k, kind) fs -> exists p, d !! k = Some (VNum p)) ->
    exists d', apply_fields element fs d = Ok d'.
Proof.
  induction fs as [| [k0 kind0] rest IH]; intros Hnd d Hnum.
  - eexists. reflexivity.
  - cbn [List.map fst] in Hnd. apply NoDup_cons in Hnd.
    destruct Hnd as [Hk0 Hnd].
    destruct (Hnum k0 kind0 (or_introl eq_refl)) as [p0 Hp0].
    cbn [apply_fields]. unfold apply_field. cbn [fst snd].
    apply get_num_Ok in Hp0. rewrite Hp0. cbn [bind].
    apply (IH Hnd). intros k kind Hin.
    destruct (Hnum k kind (or_intror Hin)) as [p Hp].
    exists p. rewrite lookup_insert_ne; [exact Hp |].
    intros <-. apply Hk0. apply list_elem_of_In.
    apply in_map_iff. now exists (k0, kind).
Qed.

(** The transform of one shape returns exactly when the shape has a
    [type], every field of the field set of that type holds a number,
    and the rotation is a number or absent.  A shape without a [type]
    ends the whole expansion with [KeyError]. *)
Theorem transform_shape_returns_iff (element : DecorativeElement)
    (s : shape_dict) :
  ((exists s', transform_shape element s = Ok s')
   <-> (exists ty,
          s !! "type" = Some ty
          /\ (forall k kind, In (k, kind) (field_set_of ty) ->
                exists p, s !! k = Some (VNum p))
          /\ (s !! "rotation" = None
              \/ exists r, s !! "rotation" = Some (VNum r))))
  /\ (s !! "type" = None ->
      forall before after,
        apply_transforms (before ++ s :: after)%list element
        = Raise (KeyError "type")
        \/ exists e, apply_transforms before element = Raise e).
Proof.
  split.
  - split.
    + intros [s' H]. apply transform_shape_spec in H.
      destruct H as [ty [rot [Hty [Hf [Hrot _]]]]].
      exists ty. split; [exact Hty |]. split.
      * intros k kind Hk. destruct (Hf k kind Hk) as [p [Hp _]]. eauto.
      * destruct Hrot as [Hr | [Hr _]]; eauto.
    + intros [ty [Hty [Hf Hrot]]].
      unfold transform_shape. rewrite scale_fields_by_set, Hty.
      destruct (apply_fields_returns element _ (field_set_NoDup ty) s Hf)
        as [d1 Hd1].
      rewrite Hd1. cbn [bind].
      destruct (apply_fields_lookup element _ (field_set_NoDup ty) _ _ Hd1)
        as [_ Hout].
      rewrite Hout.
      * destruct Hrot as [-> | [r ->]]; cbn [bind]; eexists; reflexivity.
      * intros Hc. apply field_set_names in Hc. tauto.
  - intros Hty before after.
    induction before as [| b before IH].
    + left. cbn [app apply_transforms].
      unfold transform_shape, scale_fields. now rewrite Hty.
    + cbn [app apply_transforms].
      destruct (transform_shape element b) as [b' | e];
        [| right; eexists; reflexivity].
      cbn [bind].
      destruct IH as [-> | [e ->]]; [left | right; eexists]; reflexivity.
Qed.

End DecorativeMore.

(** ** Image size and placement ([renderers/reportlab_renderer.py]) *)

Module ImageFacts.

Import Measurements PageBounds ImageSize.
Local Open Scope Q_scope.

Lemma Qlt_bool_iff (a b0 : Q) : Qlt_bool a b0 = true <-> a < b0.
Proof.
  unfold Qlt_bool. split; intros H.
  - apply Qnot_le_lt. intros Hc. apply Qle_bool_iff in Hc.
    rewrite Hc in H. discriminate.
  - destruct (Qle_bool b0 a) eqn:E; [| reflexivity].
    apply Qle_bool_iff in E. exfalso. now apply (Qlt_not_le a b0).
Qed.

Lemma Qlt_bool_false (a b0 : Q) : Qlt_bool a b0 = false <-> b0 <= a.
Proof.
  unfold Qlt_bool. rewrite negb_false_iff. apply Qle_bool_iff.
Qed.

Lemma fdiv_Ok (a b0 : Q) : ~ b0 == 0 -> fdiv a b0 = Ok (a / b0).
Proof.
  intros H. unfold fdiv. destruct (Qeq_bool b0 0) eqn:E; [| reflexivity].
  apply Qeq_bool_iff in E. contradiction.
Qed.

Lemma fdiv_zero (a b0 : Q) : b0 == 0 -> fdiv a b0 = Raise ZeroDivisionError.
Proof.
  intros H. unfold fdiv. apply Qeq_bool_iff in H. now rewrite H.
Qed.

Lemma py_min_spec (a b0 : Q) :
  py_min a b0 <= a /\ py_min a b0 <= b0
  /\ (py_min a b0 = a \/ py_min a b0 = b0).
Proof.
  unfold py_min. destruct (Qlt_bool b0 a) eqn:E.
  - apply Qlt_bool_iff in E. repeat split; auto; lra.
  - apply Qlt_bool_false in E. repeat split; auto; lra.
Qed.

Lemma py_max_spec (a b0 : Q) :
  a <= py_max a b0 /\ b0 <= py_max a b0
  /\ (py_max a b0 = a \/ py_max a b0 = b0).
Proof.
  unfold py_max. destruct (Qlt_bool a b0) eqn:E.
  - apply Qlt_bool_iff in E. repeat split; auto; lra.
  - apply Qlt_bool_false in E. repeat split; auto; lra.
Qed.

(** The quotient of two positive numbers, by what it multiplies to. *)
Lemma quotient_spec (a b0 : Q) :
  0 < b0 -> (a / b0) * b0 == a.
Proof. intros H. field. lra. Qed.

Lemma quotient_pos (a b0 : Q) : 0 < a -> 0 < b0 -> 0 < a / b0.
Proof.
  intros Ha Hb. pose proof (quotient_spec a b0 Hb) as H.
  set (q := a / b0) in *. nra.
Qed.

(** What the caller asked for, as a bound on the result. *)
Definition within_request (natural_width natural_height : Q)
    (target_width target_height : option Q) (max_width max_height w h : Q)
  : Prop :=
  match target_width, target_height with
  | Some tw, Some th => w <= tw /\ h <= th /\ (w == tw \/ h == th)
  | Some tw, None => w == tw
  | None, Some th => h == th
  | None, None =>
      w <= natural_width /\ h <= natural_height
      /\ w <= max_width /\ h <= max_height
      /\ (w == py_min natural_width max_width
          \/ h == py_min natural_height max_height)
  end.

Definition positive_if_set (v : option Q) : Prop :=
  match v with
  | Some q => 0 < q
  | None => True
  end.

(** With [preserve_aspect] and positive sizes the result has the aspect
    ratio of the image.  When width and height are both requested the
    result fits in the requested box and touches it in one direction;
    when one is requested it is met exactly; when none is, the image is
    never enlarged, fits in the panel and touches the smaller of natural
    size and panel in one direction. *)
Theorem image_size_keeps_aspect (natural_width natural_height : Q)
    (target_width target_height : option Q) (max_width max_height : Q) :
  0 < natural_width -> 0 < natural_height ->
  positive_if_set target_width -> positive_if_set target_height ->
  0 < max_width -> 0 < max_height ->
  exists w h,
    _calculate_image_size natural_width natural_height target_width
      target_height true max_width max_height = Ok (w, h)
    /\ 0 < w /\ 0 < h
    /\ w * natural_height == h * natural_width
    /\ within_request natural_width natural_height target_width
         target_height max_width max_height w h.
Proof.
  intros Hnw Hnh Htw Hth Hmw Hmh.
  unfold _calculate_image_size.
  replace (Qlt_bool 0 natural_height) with true
    by (symmetry; now apply Qlt_bool_iff).
  rewrite fdiv_Ok by lra. cbn [bind].
  pose proof (quotient_spec natural_width natural_height Hnh) as Har.
  pose proof (quotient_pos natural_width natural_height Hnw Hnh) as Harp.
  set (ar := natural_width / natural_height) in *.
  destruct target_width as [tw |], target_height as [th |];
    cbn [positive_if_set] in Htw, Hth; unfold within_request.
  - rewrite (fdiv_Ok tw th) by lra. cbn [bind].
    pose proof (quotient_spec tw th Hth) as Hr.
    set (ratio := tw / th) in *.
    destruct (Qlt_bool ar ratio) eqn:E.
    + apply Qlt_bool_iff in E.
      exists (th * ar), th. split; [reflexivity |].
      repeat split; first [nra | right; reflexivity].
    + apply Qlt_bool_false in E.
      rewrite (fdiv_Ok tw ar) by lra. cbn [bind].
      pose proof (quotient_spec tw ar Harp) as Hh.
      pose proof (quotient_pos tw ar Htw Harp) as Hhp.
      set (h := tw / ar) in *.
      exists tw, h. split; [reflexivity |].
      repeat split; first [nra | left; reflexivity].
  - rewrite (fdiv_Ok tw ar) by lra. cbn [bind].
    pose proof (quotient_spec tw ar Harp) as Hh.
    pose proof (quotient_pos tw ar Htw Harp) as Hhp.
    set (h := tw / ar) in *.
    exists tw, h. split; [reflexivity |].
    repeat split; first [nra | reflexivity].
  - exists (th * ar), th. split; [reflexivity |].
    repeat split; first [nra | reflexivity].
  - destruct (py_min_spec natural_width max_width) as [Hw1 [Hw2 Hw3]].
    destruct (py_min_spec natural_height max_height) as [Hh1 [Hh2 Hh3]].
    set (fw := py_min natural_width max_width) in *.
    set (fh := py_min natural_height max_height) in *.
    assert (Hfw : 0 < fw) by (destruct Hw3 as [-> | ->]; assumption).
    assert (Hfh : 0 < fh) by (destruct Hh3 as [-> | ->]; assumption).
    rewrite (fdiv_Ok fw natural_width) by lra.
    rewrite (fdiv_Ok fh natural_height) by lra. cbn [bind].
    pose proof (quotient_spec fw natural_width Hnw) as Hsx.
    pose proof (quotient_spec fh natural_height Hnh) as Hsy.
    pose proof (quotient_pos fw natural_width Hfw Hnw) as Hsxp.
    pose proof (quotient_pos fh natural_height Hfh Hnh) as Hsyp.
    set (sx := fw / natural_width) in *.
    set (sy := fh / natural_height) in *.
    destruct (py_min_spec sx sy) as [Hs1 [Hs2 Hs3]].
    set (sc := py_min sx sy) in *.
    assert (Hsc : 0 < sc) by (destruct Hs3 as [-> | ->]; assumption).
    exists (natural_width * sc), (natural_height * sc).
    split; [reflexivity |].
    repeat split;
      first [nra | destruct Hs3 as [-> | ->]; [left | right]; nra].
Qed.

Lemma image_size_keeps_aspect_witness :
  exists w h,
    _calculate_image_size 4 3 (Some 2) (Some 2) true 5 7 = Ok (w, h)
    /\ 0 < w /\ 0 < h
    /\ w * 3 == h * 4
    /\ within_request 4 3 (Some 2) (Some 2) 5 7 w h.
Proof.
  apply (image_size_keeps_aspect 4 3 (Some 2) (Some 2) 5 7);
    reflexivity.
Defined.

(** [ImageElement] admits a height of 0.  With [preserve_aspect] and
    both sizes requested, a requested height of 0 ends the computation
    with [ZeroDivisionError], whatever the image and the other
    arguments. *)
Theorem image_size_zero_height_raises (natural_width natural_height : Q)
    (target_width target_height max_width max_height : Q) :
  target_height == 0 ->
  _calculate_image_size natural_width natural_height (Some target_width)
    (Some target_height) true max_width max_height
  = Raise ZeroDivisionError.
Proof.
  intros H. unfold _calculate_image_size.
  assert (Hth : fdiv target_width target_height = Raise ZeroDivisionError)
    by now apply fdiv_zero.
  destruct (Qlt_bool 0 natural_height) eqn:E.
  - apply Qlt_bool_iff in E. rewrite fdiv_Ok by lra. cbn [bind].
    now rewrite Hth.
  - cbn [bind]. now rewrite Hth.
Qed.

Lemma image_size_zero_height_raises_witness :
  _calculate_image_size 4 3 (Some 2) (Some 0) true 5 7
  = Raise ZeroDivisionError.
Proof.
  apply (image_size_zero_height_raises 4 3 2 0 5 7). reflexivity.
Defined.

(** *** Placement in the safe area *)

(** An image never starts left of or below the safe margin (18 points),
    and never right of or above the position asked for, unless that lies
    before the margin.  An image wider than the safe area of the page
    starts at the left margin and runs over the right one, and likewise
    upwards for one higher than the safe area: the clamp moves such an
    image and does not make it fit. *)
Theorem image_position_margin (panel_x panel_y image_x image_y
    final_width final_height : Q) :
  let p := image_position panel_x panel_y image_x image_y final_width
             final_height in
  18 <= fst p /\ 18 <= snd p
  /\ fst p <= py_max 18 (inches_to_points (panel_x + image_x))
  /\ snd p <= py_max 18 (inches_to_points (panel_y + image_y))
  /\ (PAGE_WIDTH - 2 * SAFE_MARGIN < final_width ->
      fst p == 18
      /\ inches_to_points PAGE_WIDTH - 18
         < fst p + inches_to_points final_width)
  /\ (PAGE_HEIGHT - 2 * SAFE_MARGIN < final_height ->
      snd p == 18
      /\ inches_to_points PAGE_HEIGHT - 18
         < snd p + inches_to_points final_height).
Proof.
  unfold image_position. cbv zeta. cbn [fst snd].
  unfold inches_to_points, POINTS_PER_INCH, PAGE_WIDTH, PAGE_HEIGHT,
    SAFE_MARGIN.
  set (ax := (panel_x + image_x) * 72).
  set (ay := (panel_y + image_y) * 72).
  set (bx := (85 # 10) * 72 - (25 # 100) * 72 - final_width * 72).
  set (by_ := 11 * 72 - (25 # 100) * 72 - final_height * 72).
  destruct (py_min_spec ax bx) as [Hx1 [Hx2 Hx3]].
  destruct (py_min_spec ay by_) as [Hy1 [Hy2 Hy3]].
  set (mx := py_min ax bx) in *. set (my := py_min ay by_) in *.
  destruct (py_max_spec ((25 # 100) * 72) mx) as [Px1 [Px2 Px3]].
  destruct (py_max_spec ((25 # 100) * 72) my) as [Py1 [Py2 Py3]].
  destruct (py_max_spec 18 ax) as [Ax1 [Ax2 _]].
  destruct (py_max_spec 18 ay) as [Ay1 [Ay2 _]].
  set (cx := py_max ((25 # 100) * 72) mx) in *.
  set (cy := py_max ((25 # 100) * 72) my) in *.
  assert (Hcx : cx == (25 # 100) * 72 \/ cx == mx)
    by (destruct Px3 as [-> | ->]; [left | right]; reflexivity).
  assert (Hcy : cy == (25 # 100) * 72 \/ cy == my)
    by (destruct Py3 as [-> | ->]; [left | right]; reflexivity).
  split; [lra |]. split; [lra |].
  split; [destruct Hcx as [-> | ->]; lra |].
  split; [destruct Hcy as [-> | ->]; lra |].
  split.
  - intros Hw. assert (Hb : bx < 18) by (unfold bx; lra).
    assert (Hpin : cx == 18) by (destruct Hcx as [Hc | Hc]; lra).
    split; [exact Hpin | lra].
  - intros Hh. assert (Hb : by_ < 18) by (unfold by_; lra).
    assert (Hpin : cy == 18) by (destruct Hcy as [Hc | Hc]; lra).
    split; [exact Hpin | lra].
Qed.

End ImageFacts.

(** ** Radial gradients and colour stops ([utils/gradient_utils.py]) *)

Module GradientStopFacts.

Import Models ImageSize ImageFacts GradientStops.
Local Open Scope string_scope.
Local Open Scope Q_scope.

Section Hex.

Variable HexColor : string -> result (Q * Q * Q).

(** The clamped position lies in the unit interval. *)
Lemma clamp_unit (position : Q) :
  0 <= py_max 0 (py_min 1 position) <= 1.
Proof.
  destruct (py_min_spec 1 position) as [H1 [H2 H3]].
  destruct (py_max_spec 0 (py_min 1 position)) as [M1 [M2 M3]].
  split; [exact M1 |].
  destruct M3 as [-> | ->]; [lra | exact H1].
Qed.

Lemma last_default {A : Type} (d1 d2 : A) (l : list A) :
  l <> [] -> List.last l d1 = List.last l d2.
Proof.
  induction l as [| x l IH]; [congruence |]. intros _.
  destruct l as [| y l]; [reflexivity |].
  change (List.last (y :: l) d1 = List.last (y :: l) d2).
  apply IH. discriminate.
Qed.

(** Between the first and the last stop the loop finds two neighbouring
    stops that enclose the position, whatever the order of the stops. *)
Lemma find_segment_found (position : Q) :
  forall (stops : list (Q * string)) (first : Q * string),
    hd_error stops = Some first ->
    fst first < position ->
    position < fst (List.last stops first) ->
    exists front pos1 color1 pos2 color2 back,
      stops = (front ++ (pos1, color1) :: (pos2, color2) :: back)%list
      /\ pos1 <= position <= pos2
      /\ find_segment HexColor stops position
         = segment_color HexColor pos1 color1 pos2 color2 position.
Proof.
  induction stops as [| [pos1 color1] rest IH]; intros first Hhd Hlo Hhi;
    [discriminate |].
  injection Hhd as <-. cbn [fst] in Hlo.
  destruct rest as [| [pos2 color2] rest'].
  - cbn [List.last fst] in Hhi. lra.
  - cbn [find_segment].
    replace (Qle_bool pos1 position) with true
      by (symmetry; apply Qle_bool_iff; lra).
    cbn [andb].
    destruct (Qle_bool position pos2) eqn:E.
    + apply Qle_bool_iff in E.
      exists [], pos1, color1, pos2, color2, rest'.
      split; [reflexivity |]. split; [lra | reflexivity].
    + assert (Hlo2 : pos2 < position).
      { apply Qnot_le_lt. intros Hc. apply Qle_bool_iff in Hc. congruence. }
      destruct (IH (pos2, color2) eq_refl Hlo2) as
        [front [p1 [c1 [p2 [c2 [back [Hst [Hp Hf]]]]]]]].
      { change (List.last ((pos1, color1) :: (pos2, color2) :: rest')
                  (pos1, color1))
          with (List.last ((pos2, color2) :: rest') (pos1, color1)) in Hhi.
        rewrite (last_default (pos1, color1) (pos2, color2)) in Hhi
          by discriminate.
        exact Hhi. }
      exists ((pos1, color1) :: front), p1, c1, p2, c2, back.
      split; [now rewrite Hst |]. split; [exact Hp | exact Hf].
Qed.

(** For a list of stops that is not empty, [find_color_at_position]
    clamps the position to [0, 1] and then returns the colour of the
    first stop when the position is at or before it, the colour of the
    last stop when it is at or after it, and otherwise the colour
    computed between two neighbouring stops that enclose the position:
    the final [return "#000000"] is never reached, whatever the order of
    the stops. *)
Theorem find_color_between_stops (stops : list (Q * string))
    (position : Q) (first : Q * string) :
  hd_error stops = Some first ->
  0 <= py_max 0 (py_min 1 position) <= 1
  /\ ((py_max 0 (py_min 1 position) <= fst first
       /\ find_color_at_position HexColor stops position = Ok (snd first))
      \/ (fst first < py_max 0 (py_min 1 position)
          /\ fst (List.last stops first) <= py_max 0 (py_min 1 position)
          /\ find_color_at_position HexColor stops position
             = Ok (snd (List.last stops first)))
      \/ (exists front pos1 color1 pos2 color2 back,
            stops = (front ++ (pos1, color1) :: (pos2, color2) :: back)%list
            /\ pos1 <= py_max 0 (py_min 1 position) <= pos2
            /\ find_color_at_position HexColor stops position
               = segment_color HexColor pos1 color1 pos2 color2
                   (py_max 0 (py_min 1 position)))).
Proof.
  intros Hhd. split; [apply clamp_unit |].
  set (p := py_max 0 (py_min 1 position)).
  destruct stops as [| s0 rest]; [discriminate |].
  injection Hhd as ->.
  unfold find_color_at_position. fold p.
  destruct (Qle_bool p (fst first)) eqn:E1.
  - left. apply Qle_bool_iff in E1. auto.
  - assert (Hlo : fst first < p).
    { apply Qnot_le_lt. intros Hc. apply Qle_bool_iff in Hc. congruence. }
    right.
    destruct (Qle_bool (fst (List.last (first :: rest) first)) p) eqn:E2.
    + left. apply Qle_bool_iff in E2. auto.
    + right.
      assert (Hhi : p < fst (List.last (first :: rest) first)).
      { apply Qnot_le_lt. intros Hc. apply Qle_bool_iff in Hc. congruence. }
      exact (find_segment_found p (first :: rest) first eq_refl Hlo Hhi).
Qed.

End Hex.

(** [HexColor] on six hexadecimal digits, as [Color.from_hex] reads
    them. *)
Definition hex_rgb (s : string) : result (Q * Q * Q) :=
  let* c := Color_from_hex s in Ok (r c, g c, b c).

Lemma find_color_between_stops_witness :
  0 <= py_max 0 (py_min 1 (1 # 2)) <= 1
  /\ ((py_max 0 (py_min 1 (1 # 2)) <= fst (0, "#000000")
       /\ find_color_at_position hex_rgb
            [(0, "#000000"); (1, "#ffffff")] (1 # 2)
          = Ok (snd (0, "#000000")))
      \/ (fst (0, "#000000") < py_max 0 (py_min 1 (1 # 2))
          /\ fst (List.last [(0, "#000000"); (1, "#ffffff")] (0, "#000000"))
             <= py_max 0 (py_min 1 (1 # 2))
          /\ find_color_at_position hex_rgb
               [(0, "#000000"); (1, "#ffffff")] (1 # 2)
             = Ok (snd (List.last [(0, "#000000"); (1, "#ffffff")]
                          (0, "#000000"))))
      \/ (exists front pos1 color1 pos2 color2 back,
            [(0, "#000000"); (1, "#ffffff")]
            = (front ++ (pos1, color1) :: (pos2, color2) :: back)%list
            /\ pos1 <= py_max 0 (py_min 1 (1 # 2)) <= pos2
            /\ find_color_at_position hex_rgb
                 [(0, "#000000"); (1, "#ffffff")] (1 # 2)
               = segment_color hex_rgb pos1 color1 pos2 color2
                   (py_max 0 (py_min 1 (1 # 2))))).
Proof.
  apply (find_color_between_stops hex_rgb
           [(0, "#000000"); (1, "#ffffff")] (1 # 2) (0, "#000000")).
  reflexivity.
Defined.

(** Half way between black and white. *)
Lemma find_color_halfway :
  find_color_at_position hex_rgb [(0, "#000000"); (1, "#ffffff")] (1 # 2)
  = Ok "#7f7f7f".
Proof. vm_compute. reflexivity. Qed.

End GradientStopFacts.

Module RadialGradientFacts.

Import GradientUtils RadialGradient.
Local Open Scope R_scope.

(** For the parameters a [RadialGradientFill] admits (centre in the unit
    square, radius in (0, 1]) and a box that is not negative, the centre
    lies in the box and the radius is positive or zero and at most the
    diagonal of the box.  With the default parameters (centre 1/2, 1/2,
    radius 1/2) the circle passes through the four corners of the
    box. *)
Theorem radial_gradient_within_shape
    (center_x center_y radius shape_width shape_height x_offset y_offset : R)
    (abs_center_x abs_center_y abs_radius : R) :
  0 <= center_x <= 1 -> 0 <= center_y <= 1 -> 0 < radius <= 1 ->
  0 <= shape_width -> 0 <= shape_height ->
  radial_gradient_endpoints center_x center_y radius shape_width
    shape_height x_offset y_offset
  = ((abs_center_x, abs_center_y), abs_radius) ->
  x_offset <= abs_center_x <= x_offset + shape_width
  /\ y_offset <= abs_center_y <= y_offset + shape_height
  /\ 0 <= abs_radius <= sqrt (shape_width ^ 2 + shape_height ^ 2)
  /\ (center_x = 1 / 2 -> center_y = 1 / 2 -> radius = 1 / 2 ->
      forall corner_x corner_y,
        corner_x = x_offset \/ corner_x = x_offset + shape_width ->
        corner_y = y_offset \/ corner_y = y_offset + shape_height ->
        (corner_x - abs_center_x) ^ 2 + (corner_y - abs_center_y) ^ 2
        = abs_radius ^ 2).
Proof.
  intros Hcx Hcy Hr Hw Hh. unfold radial_gradient_endpoints. cbv zeta.
  assert (Hsq : 0 <= shape_width ^ 2 + shape_height ^ 2) by Lra.nra.
  pose proof (sqrt_pos (shape_width ^ 2 + shape_height ^ 2)) as Hd.
  pose proof (sqrt_sqrt _ Hsq) as Hdd.
  set (d := sqrt (shape_width ^ 2 + shape_height ^ 2)) in *.
  clearbody d. intros [= <- <- <-].
  split; [Lra.nra |]. split; [Lra.nra |]. split; [Lra.nra |].
  intros -> -> -> corner_x corner_y [-> | ->] [-> | ->]; Lra.nra.
Qed.

Lemma radial_gradient_within_shape_witness :
  10 <= 10 + 1 / 2 * 3 <= 10 + 3
  /\ 20 <= 20 + 1 / 2 * 4 <= 20 + 4
  /\ 0 <= 1 / 2 * sqrt (3 ^ 2 + 4 ^ 2) <= sqrt (3 ^ 2 + 4 ^ 2)
  /\ (1 / 2 = 1 / 2 -> 1 / 2 = 1 / 2 -> 1 / 2 = 1 / 2 ->
      forall corner_x corner_y,
        corner_x = 10 \/ corner_x = 10 + 3 ->
        corner_y = 20 \/ corner_y = 20 + 4 ->
        (corner_x - (10 + 1 / 2 * 3)) ^ 2 + (corner_y - (20 + 1 / 2 * 4)) ^ 2
        = (1 / 2 * sqrt (3 ^ 2 + 4 ^ 2)) ^ 2).
Proof.
  apply (radial_gradient_within_shape (1 / 2) (1 / 2) (1 / 2) 3 4 10 20);
    first [Lra.lra | reflexivity].
Defined.

End RadialGradientFacts.

(** ** Gradient stop validation ([core/validators.py]) *)

Module FillValidatorFacts.

Import Models FillModels FillValidators.
Local Open Scope string_scope.

Section Repr.

Variable float_str : Q -> string.

Lemma first_out_of_range_none (stops : list ColorStop) :
  first_out_of_range float_str stops = None
  <-> forallb (fun stop => in_unit stop.(position)) stops = true.
Proof.
  induction stops as [| stop rest IH]; [now split |].
  cbn [first_out_of_range forallb]. unfold in_unit at 1.
  destruct (Qle_bool 0 (position stop) && Qle_bool (position stop) 1);
    cbn [negb andb]; [exact IH | now split].
Qed.

(** [validate_gradient_stops] says valid exactly when the stops meet
    what the models require of them: 2 to 20 stops, accepted by
    [validate_stops_ascending], each position in [0, 1].  It gives a
    message exactly when it says invalid; and for stops that the models
    have built, so that every position is in [0, 1], its own range check
    never fails: the answer is then that of the count and the order. *)
Theorem gradient_validators_agree (stops : list ColorStop) :
  fst (validate_gradient_stops float_str stops)
  = stops_valid stops
    && forallb (fun stop => in_unit stop.(position)) stops
  /\ (snd (validate_gradient_stops float_str stops) = None
      <-> fst (validate_gradient_stops float_str stops) = true)
  /\ (forallb ColorStop_valid stops = true ->
      fst (validate_gradient_stops float_str stops) = stops_valid stops).
Proof.
  assert (Hmain :
    fst (validate_gradient_stops float_str stops)
    = stops_valid stops
      && forallb (fun stop => in_unit stop.(position)) stops
    /\ (snd (validate_gradient_stops float_str stops) = None
        <-> fst (validate_gradient_stops float_str stops) = true)).
  { unfold validate_gradient_stops, stops_valid, validate_stops_ascending.
    destruct (length stops <? 2)%nat eqn:E2.
    { apply Nat.ltb_lt in E2.
      replace (2 <=? length stops)%nat with false
        by (symmetry; apply Nat.leb_gt; exact E2).
      cbn. split; [reflexivity | split; discriminate]. }
    apply Nat.ltb_ge in E2.
    replace (2 <=? length stops)%nat with true
      by (symmetry; apply Nat.leb_le; exact E2).
    destruct (20 <? length stops)%nat eqn:E20.
    { apply Nat.ltb_lt in E20.
      replace (length stops <=? 20)%nat with false
        by (symmetry; apply Nat.leb_gt; exact E20).
      cbn. split; [reflexivity | split; discriminate]. }
    apply Nat.ltb_ge in E20.
    replace (length stops <=? 20)%nat with true
      by (symmetry; apply Nat.leb_le; exact E20).
    cbn [andb].
    destruct (list_float_eqb _ _); cbn [negb is_Ok andb fst snd];
      [| split; [reflexivity | split; discriminate]].
    destruct (first_out_of_range float_str stops) as [message |] eqn:Eo;
      cbn [fst snd].
    - split; [| split; discriminate].
      destruct (forallb _ stops) eqn:Ef; [| reflexivity].
      apply first_out_of_range_none in Ef. congruence.
    - apply first_out_of_range_none in Eo. rewrite Eo.
      split; [reflexivity | split; reflexivity]. }
  destruct Hmain as [Hfst Hsnd].
  split; [exact Hfst |]. split; [exact Hsnd |].
  intros Hvalid. rewrite Hfst.
  replace (forallb (fun stop => in_unit (position stop)) stops) with true;
    [apply andb_true_r |].
  symmetry. apply forallb_forall. intros stop Hin.
  rewrite forallb_forall in Hvalid. specialize (Hvalid stop Hin).
  unfold ColorStop_valid in Hvalid. now apply andb_prop in Hvalid.
Qed.

End Repr.

End FillValidatorFacts.

(** ** Drawing parsed paths ([renderers/shape_renderer.py],
    [renderers/clipping_renderer.py]) *)

Module ShapePathFacts.

Import PyStr SvgParser ImageSize ImageFacts PathOps ShapePath.
Local Open Scope Q_scope.

(** Two calls of the same kind whose points differ by [(dx, dy)]. *)
Definition op_shift (dx dy : Q) (a a0 : path_op) : Prop :=
  match a, a0 with
  | moveTo x y, moveTo x0 y0 => x == x0 + dx /\ y == y0 + dy
  | lineTo x y, lineTo x0 y0 => x == x0 + dx /\ y == y0 + dy
  | curveTo x1 y1 x2 y2 x3 y3, curveTo u1 v1 u2 v2 u3 v3 =>
      x1 == u1 + dx /\ y1 == v1 + dy
      /\ x2 == u2 + dx /\ y2 == v2 + dy
      /\ x3 == u3 + dx /\ y3 == v3 + dy
  | closePath, closePath => True
  | _, _ => False
  end.

Definition pen_eq (p p0 : pen) : Prop :=
  current_x p == current_x p0 /\ current_y p == current_y p0
  /\ last_control_x p == last_control_x p0
  /\ last_control_y p == last_control_y p0.

Lemma moved_eq (is_relative : bool) (a a0 x : Q) :
  a == a0 ->
  (if is_relative then a + x else x) == (if is_relative then a0 + x else x).
Proof. intros H. destruct is_relative; [now rewrite H | reflexivity]. Qed.

Lemma fold_left_related {S A : Type} (R : S -> S -> Prop)
    (f f0 : S -> A -> S) (l : list A) :
  (forall s s0 a, R s s0 -> R (f s a) (f0 s0 a)) ->
  forall s s0, R s s0 -> R (List.fold_left f l s) (List.fold_left f0 l s0).
Proof.
  intros Hstep. induction l as [| a l IH]; intros s s0 H; [exact H |].
  cbn [List.fold_left]. apply IH, Hstep, H.
Qed.

Section Shift.

Variables scale ox oy : Q.
Hypothesis scale_nonzero : ~ scale == 0.

(** The same pen, and the same calls moved by the offsets in points. *)
Definition shifted (st st0 : path_state) : Prop :=
  pen_eq (fst st) (fst st0)
  /\ Forall2 (op_shift (ox * 72) (oy * 72)) (snd st) (snd st0).

Lemma to_abs_x_shift (x x0 : Q) :
  x == x0 -> to_abs_x scale ox x == to_abs_x scale 0 x0 + ox * 72.
Proof.
  intros H. unfold to_abs_x, POINTS_PER_INCH. rewrite H. ring.
Qed.

Lemma to_abs_y_shift (y y0 : Q) :
  y == y0 -> to_abs_y scale oy y == to_abs_y scale 0 y0 + oy * 72.
Proof.
  intros H. unfold to_abs_y, POINTS_PER_INCH. rewrite H. ring.
Qed.

Lemma shifted_snoc (ops ops0 : list path_op) (p' p0' : pen)
    (op op0 : path_op) :
  Forall2 (op_shift (ox * 72) (oy * 72)) ops ops0 ->
  pen_eq p' p0' ->
  op_shift (ox * 72) (oy * 72) op op0 ->
  shifted (p', (ops ++ [op])%list) (p0', (ops0 ++ [op0])%list).
Proof.
  intros Hops Hp Hop. split; [exact Hp |]. cbn [snd].
  apply List.Forall2_app; [exact Hops |]. constructor; [exact Hop |].
  constructor.
Qed.

Lemma point_group_shift (draw : Q -> Q -> path_op) (is_relative : bool)
    (st st0 : path_state) (group : list Q) :
  draw = moveTo \/ draw = lineTo ->
  shifted st st0 ->
  shifted (point_group scale ox oy draw is_relative st group)
    (point_group scale 0 0 draw is_relative st0 group).
Proof.
  intros Hd H. destruct group as [| x [| y [| z rest]]]; try exact H.
  destruct st as [p ops], st0 as [p0 ops0].
  destruct H as [[Hx [Hy [Hlx Hly]]] Hops]. cbn [fst snd] in *.
  cbn [point_group].
  pose proof (moved_eq is_relative _ _ x Hx) as Hcx.
  pose proof (moved_eq is_relative _ _ y Hy) as Hcy.
  apply shifted_snoc; [exact Hops | repeat split; assumption |].
  destruct Hd as [-> | ->]; cbn [op_shift];
    (split; [now apply to_abs_x_shift | now apply to_abs_y_shift]).
Qed.

Lemma horizontal_step_shift (is_relative : bool) (st st0 : path_state)
    (x : Q) :
  shifted st st0 ->
  shifted (horizontal_step scale ox oy is_relative st x)
    (horizontal_step scale 0 0 is_relative st0 x).
Proof.
  intros H. destruct st as [p ops], st0 as [p0 ops0].
  destruct H as [[Hx [Hy [Hlx Hly]]] Hops]. cbn [fst snd] in *.
  cbn [horizontal_step].
  pose proof (moved_eq is_relative _ _ x Hx) as Hcx.
  apply shifted_snoc; [exact Hops | repeat split; assumption |].
  cbn [op_shift].
  split; [now apply to_abs_x_shift | now apply to_abs_y_shift].
Qed.

Lemma vertical_step_shift (is_relative : bool) (st st0 : path_state)
    (y : Q) :
  shifted st st0 ->
  shifted (vertical_step scale ox oy is_relative st y)
    (vertical_step scale 0 0 is_relative st0 y).
Proof.
  intros H. destruct st as [p ops], st0 as [p0 ops0].
  destruct H as [[Hx [Hy [Hlx Hly]]] Hops]. cbn [fst snd] in *.
  cbn [vertical_step].
  pose proof (moved_eq is_relative _ _ y Hy) as Hcy.
  apply shifted_snoc; [exact Hops | repeat split; assumption |].
  cbn [op_shift].
  split; [now apply to_abs_x_shift | now apply to_abs_y_shift].
Qed.

Lemma arc_group_shift (is_relative : bool) (st st0 : path_state)
    (group : list Q) :
  shifted st st0 ->
  shifted (arc_group scale ox oy is_relative st group)
    (arc_group scale 0 0 is_relative st0 group).
Proof.
  intros H.
  destruct group as [| a1 [| a2 [| a3 [| a4 [| a5 [| x [| y [| z rest]]]]]]]];
    try exact H.
  destruct st as [p ops], st0 as [p0 ops0].
  destruct H as [[Hx [Hy [Hlx Hly]]] Hops]. cbn [fst snd] in *.
  cbn [arc_group].
  pose proof (moved_eq is_relative _ _ x Hx) as Hcx.
  pose proof (moved_eq is_relative _ _ y Hy) as Hcy.
  apply shifted_snoc; [exact Hops | repeat split; assumption |].
  cbn [op_shift].
  split; [now apply to_abs_x_shift | now apply to_abs_y_shift].
Qed.

Lemma cubic_group_shift (is_relative : bool) (st st0 : path_state)
    (group : list Q) :
  shifted st st0 ->
  shifted (cubic_group scale ox oy is_relative st group)
    (cubic_group scale 0 0 is_relative st0 group).
Proof.
  intros H.
  destruct group as [| c1 [| c2 [| c3 [| c4 [| x [| y [| z rest]]]]]]];
    try exact H.
  destruct st as [p ops], st0 as [p0 ops0].
  destruct H as [[Hx [Hy [Hlx Hly]]] Hops]. cbn [fst snd] in *.
  cbn [cubic_group].
  apply shifted_snoc; [exact Hops | |].
  - destruct is_relative; cbn [negb]; repeat split;
      cbn [current_x current_y last_control_x last_control_y];
      try reflexivity; try (now rewrite Hx); now rewrite Hy.
  - cbn [op_shift]. destruct is_relative;
      repeat split;
      first [apply to_abs_x_shift | apply to_abs_y_shift];
      try reflexivity; try (now rewrite Hx); now rewrite Hy.
Qed.

Lemma smooth_cubic_group_shift (is_relative : bool) (st st0 : path_state)
    (group : list Q) :
  shifted st st0 ->
  shifted (smooth_cubic_group scale ox oy is_relative st group)
    (smooth_cubic_group scale 0 0 is_relative st0 group).
Proof.
  intros H.
  destruct group as [| c3 [| c4 [| x [| y [| z rest]]]]]; try exact H.
  destruct st as [p ops], st0 as [p0 ops0].
  destruct H as [[Hx [Hy [Hlx Hly]]] Hops]. cbn [fst snd] in *.
  cbn [smooth_cubic_group].
  apply shifted_snoc; [exact Hops | |].
  - destruct is_relative; cbn [negb]; repeat split;
      cbn [current_x current_y last_control_x last_control_y];
      try reflexivity; try (now rewrite Hx); now rewrite Hy.
  - cbn [op_shift]. destruct is_relative;
      repeat split;
      first [apply to_abs_x_shift | apply to_abs_y_shift];
      try reflexivity; try (now rewrite Hx, Hlx); try (now rewrite Hy, Hly);
      try (now rewrite Hx); now rewrite Hy.
Qed.

(** [abs_x], [abs_y] of the two runs. *)
Definition prev_shift (prev prev0 : option (Q * Q)) : Prop :=
  match prev, prev0 with
  | Some (ax, ay), Some (ax0, ay0) => ax == ax0 + ox * 72 /\ ay == ay0 + oy * 72
  | None, None => True
  | _, _ => False
  end.

Lemma scale_points_nonzero : ~ scale * POINTS_PER_INCH == 0.
Proof.
  unfold POINTS_PER_INCH. intros H. apply scale_nonzero.
  assert (H72 : scale == scale * 72 / 72) by (field; discriminate).
  rewrite H72, H. reflexivity.
Qed.

Lemma segment_start_shift (is_relative : bool) (prev prev0 : option (Q * Q))
    (cx cy cx0 cy0 x y : Q) :
  prev_shift prev prev0 -> cx == cx0 -> cy == cy0 ->
  exists s s0,
    segment_start scale ox oy is_relative prev cx cy x y = Ok s
    /\ segment_start scale 0 0 is_relative prev0 cx0 cy0 x y = Ok s0
    /\ fst s == fst s0 /\ snd s == snd s0.
Proof.
  intros Hprev Hcx Hcy. unfold segment_start.
  destruct prev as [[ax ay] |], prev0 as [[ax0 ay0] |];
    cbn [prev_shift] in Hprev; try contradiction.
  - destruct Hprev as [Hax Hay].
    rewrite !fdiv_Ok by exact scale_points_nonzero. cbn [bind].
    eexists. eexists. split; [reflexivity |]. split; [reflexivity |].
    cbn [fst snd]. unfold to_abs_x, to_abs_y, POINTS_PER_INCH.
    split.
    + rewrite Hax. apply Qdiv_comp; [ring | reflexivity].
    + rewrite Hay. apply Qdiv_comp; [ring | reflexivity].
  - eexists. eexists. split; [reflexivity |]. split; [reflexivity |].
    cbn [fst snd]. split; [now rewrite Hcx | now rewrite Hcy].
Qed.

Lemma quadratic_curve_shift (ops ops0 : list path_op)
    (sx sy cpx cpy cx cy sx0 sy0 cpx0 cpy0 cx0 cy0 : Q) :
  Forall2 (op_shift (ox * 72) (oy * 72)) ops ops0 ->
  sx == sx0 -> sy == sy0 -> cpx == cpx0 -> cpy == cpy0 ->
  cx == cx0 -> cy == cy0 ->
  shifted (fst (quadratic_curve scale ox oy ops sx sy cpx cpy cx cy))
    (fst (quadratic_curve scale 0 0 ops0 sx0 sy0 cpx0 cpy0 cx0 cy0))
  /\ prev_shift
       (Some (snd (quadratic_curve scale ox oy ops sx sy cpx cpy cx cy)))
       (Some (snd (quadratic_curve scale 0 0 ops0 sx0 sy0 cpx0 cpy0
                     cx0 cy0))).
Proof.
  intros Hops Hsx Hsy Hcpx Hcpy Hcx Hcy. unfold quadratic_curve.
  cbn [fst snd prev_shift]. split.
  - apply shifted_snoc; [exact Hops | repeat split; assumption |].
    cbn [op_shift]. repeat split;
      first [apply to_abs_x_shift | apply to_abs_y_shift];
      try assumption.
    + now rewrite Hsx, Hcpx.
    + now rewrite Hsy, Hcpy.
    + now rewrite Hcx, Hcpx.
    + now rewrite Hcy, Hcpy.
  - split; [now apply to_abs_x_shift | now apply to_abs_y_shift].
Qed.

Lemma quadratic_loop_shift (is_relative : bool) (gs : list (list Q)) :
  forall (prev prev0 : option (Q * Q)) (st st0 : path_state),
    prev_shift prev prev0 -> shifted st st0 ->
    exists st' st0',
      quadratic_loop scale ox oy is_relative prev gs st = Ok st'
      /\ quadratic_loop scale 0 0 is_relative prev0 gs st0 = Ok st0'
      /\ shifted st' st0'.
Proof.
  induction gs as [| group rest IH]; intros prev prev0 st st0 Hprev H.
  - exists st, st0. auto.
  - cbn [quadratic_loop].
    destruct group as [| cpx [| cpy [| x [| y [| z more]]]]];
      try (now exists st, st0).
    destruct st as [p ops], st0 as [p0 ops0].
    destruct H as [[Hx [Hy [Hlx Hly]]] Hops]. cbn [fst snd] in *.
    pose proof (moved_eq is_relative _ _ x Hx) as Hcx.
    pose proof (moved_eq is_relative _ _ y Hy) as Hcy.
    pose proof (moved_eq is_relative _ _ cpx Hx) as Hcpx.
    pose proof (moved_eq is_relative _ _ cpy Hy) as Hcpy.
    destruct (segment_start_shift is_relative prev prev0 _ _ _ _ x y
                Hprev Hcx Hcy) as [s [s0 [-> [-> [Hs1 Hs2]]]]].
    cbn [bind].
    destruct (quadratic_curve_shift ops ops0 _ _ _ _ _ _ _ _ _ _ _ _
                Hops Hs1 Hs2 Hcpx Hcpy Hcx Hcy) as [Hst Hab].
    destruct (quadratic_curve scale ox oy _ _ _ _ _ _ _) as [st' ab].
    destruct (quadratic_curve scale 0 0 _ _ _ _ _ _ _) as [st0' ab0].
    cbn [fst snd] in Hst, Hab.
    now apply IH.
Qed.

Lemma smooth_quadratic_loop_shift (is_relative : bool) (gs : list (list Q)) :
  forall (prev prev0 : option (Q * Q)) (st st0 : path_state),
    prev_shift prev prev0 -> shifted st st0 ->
    exists st' st0',
      smooth_quadratic_loop scale ox oy is_relative prev gs st = Ok st'
      /\ smooth_quadratic_loop scale 0 0 is_relative prev0 gs st0 = Ok st0'
      /\ shifted st' st0'.
Proof.
  induction gs as [| group rest IH]; intros prev prev0 st st0 Hprev H.
  - exists st, st0. auto.
  - cbn [smooth_quadratic_loop].
    destruct group as [| x [| y [| z more]]];
      try (now exists st, st0).
    destruct st as [p ops], st0 as [p0 ops0].
    destruct H as [[Hx [Hy [Hlx Hly]]] Hops]. cbn [fst snd] in *.
    pose proof (moved_eq is_relative _ _ x Hx) as Hcx.
    pose proof (moved_eq is_relative _ _ y Hy) as Hcy.
    assert (Hcpx : 2 * current_x p - last_control_x p
                   == 2 * current_x p0 - last_control_x p0)
      by now rewrite Hx, Hlx.
    assert (Hcpy : 2 * current_y p - last_control_y p
                   == 2 * current_y p0 - last_control_y p0)
      by now rewrite Hy, Hly.
    destruct (segment_start_shift is_relative prev prev0 _ _ _ _ x y
                Hprev Hcx Hcy) as [s [s0 [-> [-> [Hs1 Hs2]]]]].
    cbn [bind].
    destruct (quadratic_curve_shift ops ops0 _ _ _ _ _ _ _ _ _ _ _ _
                Hops Hs1 Hs2 Hcpx Hcpy Hcx Hcy) as [Hst Hab].
    destruct (quadratic_curve scale ox oy _ _ _ _ _ _ _) as [st' ab].
    destruct (quadratic_curve scale 0 0 _ _ _ _ _ _ _) as [st0' ab0].
    cbn [fst snd] in Hst, Hab.
    now apply IH.
Qed.

Lemma render_command_shift (cmd : PathCommand) (st st0 : path_state) :
  shifted st st0 ->
  exists st' st0',
    render_command scale ox oy st cmd = Ok st'
    /\ render_command scale 0 0 st0 cmd = Ok st0'
    /\ shifted st' st0'.
Proof.
  intros H. unfold render_command.
  destruct (command cmd);
    try (eexists; eexists; split; [reflexivity |]; split; [reflexivity |];
         apply fold_left_related; [| exact H]; intros s s0 a Hs;
         first [ apply point_group_shift; [auto | exact Hs]
               | now apply horizontal_step_shift
               | now apply vertical_step_shift
               | now apply cubic_group_shift
               | now apply smooth_cubic_group_shift
               | now apply arc_group_shift ]);
    try (now apply quadratic_loop_shift);
    try (now apply smooth_quadratic_loop_shift).
  - destruct st as [p ops], st0 as [p0 ops0]. destruct H as [Hp Hops].
    eexists. eexists. split; [reflexivity |]. split; [reflexivity |].
    now apply shifted_snoc.
  - destruct st as [p ops], st0 as [p0 ops0]. destruct H as [Hp Hops].
    eexists. eexists. split; [reflexivity |]. split; [reflexivity |].
    now apply shifted_snoc.
Qed.

Lemma render_commands_shift (commands : list PathCommand) :
  forall st st0 : path_state,
    shifted st st0 ->
    exists st' st0',
      render_commands scale ox oy commands st = Ok st'
      /\ render_commands scale 0 0 commands st0 = Ok st0'
      /\ shifted st' st0'.
Proof.
  induction commands as [| cmd rest IH]; intros st st0 H.
  - exists st, st0. auto.
  - cbn [render_commands].
    destruct (render_command_shift cmd st st0 H) as [s [s0 [-> [-> Hs]]]].
    cbn [bind]. now apply IH.
Qed.

End Shift.

(** Moving the panel moves the path and changes nothing else.  For a
    scale that is not zero, [render_svg_path] builds for the offsets
    [(ox, oy)] the path it builds for the offsets [(0, 0)] with every
    point moved by [(72 ox, 72 oy)]: the same calls in the same order;
    and it gives up for the one exactly when it gives up for the
    other. *)
Theorem build_path_translation (scale ox oy : Q) (path_data : string) :
  ~ scale == 0 ->
  match build_path scale ox oy path_data, build_path scale 0 0 path_data with
  | Ok (Some ops), Ok (Some ops0) =>
      Forall2 (op_shift (ox * 72) (oy * 72)) ops ops0
  | Ok None, Ok None => True
  | Raise e, Raise e0 => e = e0
  | _, _ => False
  end.
Proof.
  intros Hscale. unfold build_path.
  destruct (parse path_data) as [commands | e]; cbn [bind]; [| reflexivity].
  destruct commands as [| cmd rest]; [exact I |].
  destruct (render_commands_shift scale ox oy Hscale (cmd :: rest)
              (mkPen 0 0 0 0, []) (mkPen 0 0 0 0, []))
    as [st [st0 [-> [-> [_ Hops]]]]].
  - split; [repeat split; reflexivity | constructor].
  - cbn [bind]. exact Hops.
Qed.

Lemma build_path_translation_witness :
  match build_path 2 1 (1 # 2) "M 1 1 q 1 1 2 0 1 -1 2 0 T 9 9 Z",
        build_path 2 0 0 "M 1 1 q 1 1 2 0 1 -1 2 0 T 9 9 Z" with
  | Ok (Some ops), Ok (Some ops0) =>
      Forall2 (op_shift (1 * 72) ((1 # 2) * 72)) ops ops0
  | Ok None, Ok None => True
  | Raise e, Raise e0 => e = e0
  | _, _ => False
  end.
Proof.
  apply (build_path_translation 2 1 (1 # 2)
           "M 1 1 q 1 1 2 0 1 -1 2 0 T 9 9 Z").
  discriminate.
Defined.

(** *** Quadratic curves *)


Section Quadratic.

Variables scale ox oy : Q.
Hypothesis scale_nonzero : ~ scale == 0.

(** The cubic curve that runs along the quadratic curve from
    [(sx, sy)] to [(ex, ey)] with control point [(cx, cy)]: its control
    points lie two thirds of the way from each end to the control
    point. *)
Definition elevated (sx sy cx cy ex ey : Q) : path_op :=
  curveTo (to_abs_x scale ox (sx + (2 # 3) * (cx - sx)))
    (to_abs_y scale oy (sy + (2 # 3) * (cy - sy)))
    (to_abs_x scale ox (ex + (2 # 3) * (cx - ex)))
    (to_abs_y scale oy (ey + (2 # 3) * (cy - ey)))
    (to_abs_x scale ox ex) (to_abs_y scale oy ey).

(** What a [Q] or [q] command draws from the point [(sx, sy)].  The
    first segment of an absolute command takes its end point for its
    start point. *)
Fixpoint quadratic_curves (is_relative first : bool) (sx sy : Q)
    (gs : list (list Q)) : list path_op :=
  match gs with
  | [cpx; cpy; x; y] :: rest =>
      let cx := if is_relative then sx + cpx else cpx in
      let cy := if is_relative then sy + cpy else cpy in
      let ex := if is_relative then sx + x else x in
      let ey := if is_relative then sy + y else y in
      (if first && negb is_relative
       then elevated ex ey cx cy ex ey
       else elevated sx sy cx cy ex ey)
      :: quadratic_curves is_relative false ex ey rest
  | _ => []
  end.






End Quadratic.



(** The first curve of [Q 1 1 2 0 3 1 4 0] from (3, 3) has one control
    point, the second has two. *)
Lemma quadratic_first_segment :
  List.map (fun op => match op with
                      | curveTo x1 y1 x2 y2 x3 y3 =>
                          (Qeq_bool x1 x2 && Qeq_bool y1 y2)%bool
                      | _ => false
                      end)
    (quadratic_curves 1 0 0 false true 3 3 (groups 4 [1; 1; 2; 0; 3; 1; 4; 0]))
  = [true; false].
Proof. vm_compute. reflexivity. Qed.

End ShapePathFacts.

Module ClipPathFacts.

Import PyStr SvgParser FillModels PathOps ClipPath.
Local Open Scope string_scope.

(** The absolute command of each letter. *)
Definition absolute_of (c : SVGCommand) : SVGCommand :=
  match c with
  | MOVE | MOVE_REL => MOVE
  | LINE | LINE_REL => LINE
  | HORIZONTAL | HORIZONTAL_REL => HORIZONTAL
  | VERTICAL | VERTICAL_REL => VERTICAL
  | CUBIC_BEZIER | CUBIC_BEZIER_REL => CUBIC_BEZIER
  | CUBIC_BEZIER_SMOOTH | CUBIC_BEZIER_SMOOTH_REL => CUBIC_BEZIER_SMOOTH
  | QUADRATIC_BEZIER | QUADRATIC_BEZIER_REL => QUADRATIC_BEZIER
  | QUADRATIC_BEZIER_SMOOTH | QUADRATIC_BEZIER_SMOOTH_REL =>
      QUADRATIC_BEZIER_SMOOTH
  | ARC | ARC_REL => ARC
  | CLOSE | CLOSE_REL => CLOSE
  end.

(** The parameters the clip path reads of a command, whether it looks at
    the command at all, and whether the command closes the path. *)
Definition parameters_read (c : SVGCommand) : nat :=
  match absolute_of c with
  | MOVE | LINE => 2
  | HORIZONTAL | VERTICAL => 1
  | CUBIC_BEZIER => 6
  | QUADRATIC_BEZIER => 4
  | _ => 0
  end.

Definition handled (cmd : PathCommand) : bool :=
  match absolute_of cmd.(command) with
  | CUBIC_BEZIER_SMOOTH | QUADRATIC_BEZIER_SMOOTH | ARC => false
  | _ => true
  end.

Definition is_close (cmd : PathCommand) : bool :=
  match cmd.(command) with
  | CLOSE | CLOSE_REL => true
  | _ => false
  end.

Definition as_read (cmd : PathCommand) : PathCommand :=
  mkPathCommand (absolute_of cmd.(command))
    (List.firstn (parameters_read cmd.(command)) cmd.(params)).

(** What [path.close()] raises. *)
Definition no_close : exn :=
  AttributeError "'Path' object has no attribute 'close'".

Section Create.

Variables scale image_x image_y : Q.

Lemma create_step_as_read (st : clip_pen * list path_op) (cmd : PathCommand) :
  create_step scale image_x image_y st cmd
  = create_step scale image_x image_y st (as_read cmd).
Proof.
  destruct st as [p ops], cmd as [c ps]. unfold as_read.
  cbn [command params].
  destruct c;
    destruct ps as [| p0 [| p1 [| p2 [| p3 [| p4 [| p5 ps]]]]]];
    reflexivity.
Qed.

Lemma create_step_unhandled (st : clip_pen * list path_op)
    (cmd : PathCommand) :
  handled cmd = false -> create_step scale image_x image_y st cmd = Ok st.
Proof.
  destruct st as [p ops], cmd as [c ps]. unfold handled.
  cbn [command]. destruct c; try discriminate; reflexivity.
Qed.

(** One command either raises, and then it is a close command, or adds
    at most one call to the path. *)
Lemma create_step_outcome (st : clip_pen * list path_op) (cmd : PathCommand) :
  if is_close cmd
  then create_step scale image_x image_y st cmd = Raise no_close
  else exists st',
         create_step scale image_x image_y st cmd = Ok st'
         /\ (length (snd st') <= S (length (snd st)))%nat.
Proof.
  destruct st as [p ops], cmd as [c ps].
  destruct c; cbn [is_close command]; try reflexivity;
    destruct ps as [| p0 [| p1 [| p2 [| p3 [| p4 [| p5 ps]]]]]];
    eexists; (split; [reflexivity |]); cbn [snd];
    rewrite ?List.length_app; cbn [length]; lia.
Qed.

Lemma create_commands_as_read (commands : list PathCommand) :
  forall st : clip_pen * list path_op,
    create_commands scale image_x image_y commands st
    = create_commands scale image_x image_y
        (List.filter handled (List.map as_read commands)) st.
Proof.
  induction commands as [| cmd rest IH]; intros st; [reflexivity |].
  cbn [create_commands List.map List.filter].
  assert (Hh : handled (as_read cmd) = handled cmd)
    by (destruct cmd as [c ps]; destruct c; reflexivity).
  rewrite Hh. destruct (handled cmd) eqn:E.
  - cbn [create_commands]. rewrite <- create_step_as_read.
    destruct (create_step scale image_x image_y st cmd); cbn [bind];
      [apply IH | reflexivity].
  - rewrite (create_step_unhandled st cmd E). cbn [bind]. apply IH.
Qed.

Lemma create_commands_outcome (commands : list PathCommand) :
  forall st : clip_pen * list path_op,
    if existsb is_close commands
    then create_commands scale image_x image_y commands st = Raise no_close
    else exists st',
           create_commands scale image_x image_y commands st = Ok st'
           /\ (length (snd st') <= length (snd st) + length commands)%nat.
Proof.
  induction commands as [| cmd rest IH]; intros st.
  - cbn. exists st. split; [reflexivity | lia].
  - cbn [existsb create_commands length].
    pose proof (create_step_outcome st cmd) as Hstep.
    destruct (is_close cmd); cbn [orb].
    + now rewrite Hstep.
    + destruct Hstep as [st1 [-> Hlen1]]. cbn [bind].
      specialize (IH st1). destruct (existsb is_close rest); [exact IH |].
      destruct IH as [st' [-> Hlen]]. exists st'.
      split; [reflexivity | lia].
Qed.

End Create.

(** The clip path takes every command for its absolute form, reads only
    the first group of its parameters and passes over the [S], [T] and
    [A] commands: what it makes of the parsed commands is what it makes
    of the commands so reduced.  It returns a path, with at most one
    call for each command, exactly when no command closes the path; a
    [Z] or [z] ends it with the [AttributeError] of [path.close()]. *)
Theorem clip_path_reads_absolute (scale image_x image_y : Q)
    (path_data : string) (commands : list PathCommand) :
  parse path_data = Ok commands ->
  create_svg_path scale image_x image_y path_data
  = (let* st := create_commands scale image_x image_y
                  (List.filter handled (List.map as_read commands))
                  (mkClipPen 0 0 0 0, []) in
     Ok (snd st))
  /\ if existsb is_close commands
     then create_svg_path scale image_x image_y path_data = Raise no_close
     else exists ops,
            create_svg_path scale image_x image_y path_data = Ok ops
            /\ (length ops <= length commands)%nat.
Proof.
  intros Hparse. unfold create_svg_path. rewrite Hparse. cbn [bind].
  split; [now rewrite <- create_commands_as_read |].
  pose proof (create_commands_outcome scale image_x image_y commands
                (mkClipPen 0 0 0 0, [])) as Hout.
  destruct (existsb is_close commands).
  - now rewrite Hout.
  - destruct Hout as [st' [-> Hlen]]. cbn [bind]. exists (snd st').
    split; [reflexivity | exact Hlen].
Qed.

Lemma clip_path_reads_absolute_witness :
  create_svg_path 2 10 10 "m 1 1 l 2 0 3 3 s 1 1 1 1 h 4"
  = (let* st := create_commands 2 10 10
                  (List.filter handled
                     (List.map as_read
                        [mkPathCommand MOVE_REL [1; 1]%Q;
                         mkPathCommand LINE_REL [2; 0; 3; 3]%Q;
                         mkPathCommand CUBIC_BEZIER_SMOOTH_REL
                           [1; 1; 1; 1]%Q;
                         mkPathCommand HORIZONTAL_REL [4]%Q]))
                  (mkClipPen 0 0 0 0, []) in
     Ok (snd st))
  /\ if existsb is_close
          [mkPathCommand MOVE_REL [1; 1]%Q;
           mkPathCommand LINE_REL [2; 0; 3; 3]%Q;
           mkPathCommand CUBIC_BEZIER_SMOOTH_REL [1; 1; 1; 1]%Q;
           mkPathCommand HORIZONTAL_REL [4]%Q]
     then create_svg_path 2 10 10 "m 1 1 l 2 0 3 3 s 1 1 1 1 h 4"
          = Raise no_close
     else exists ops,
            create_svg_path 2 10 10 "m 1 1 l 2 0 3 3 s 1 1 1 1 h 4" = Ok ops
            /\ (length ops
                <= length
                     [mkPathCommand MOVE_REL [1; 1]%Q;
                      mkPathCommand LINE_REL [2; 0; 3; 3]%Q;
                      mkPathCommand CUBIC_BEZIER_SMOOTH_REL [1; 1; 1; 1]%Q;
                      mkPathCommand HORIZONTAL_REL [4]%Q])%nat.
Proof.
  apply (clip_path_reads_absolute 2 10 10 "m 1 1 l 2 0 3 3 s 1 1 1 1 h 4").
  vm_compute. reflexivity.
Defined.

(** The relative path [m 1 1 l 2 0 3 3 s 1 1 1 1 h 4] as a clip path,
    and the same path closed. *)
Lemma clip_path_example :
  create_svg_path 2 10 10 "m 1 1 l 2 0 3 3 s 1 1 1 1 h 4"
  = Ok [moveTo (10 + 1 * 2) (10 + 1 * 2); lineTo (10 + 2 * 2) (10 + 0 * 2);
        lineTo (10 + 4 * 2) (10 + 0 * 2)]
  /\ create_svg_path 2 10 10 "m 1 1 l 2 0 3 3 s 1 1 1 1 h 4 z"
     = Raise no_close.
Proof. split; vm_compute; reflexivity. Qed.

(** No clip path is made for a mask whose path data the model has
    accepted: the path data ends with [Z] or [z], so that
    [create_svg_path] raises, with the error of the parser or, when the
    path data parses, with the [AttributeError] of [path.close()]. *)
Theorem closed_clip_path_raises (scale image_x image_y : Q)
    (v v' : string) :
  validate_closed_path v = Ok v' ->
  (exists e, create_svg_path scale image_x image_y v' = Raise e)
  /\ (forall commands,
        parse v' = Ok commands ->
        create_svg_path scale image_x image_y v' = Raise no_close).
Proof.
  unfold validate_closed_path.
  destruct (endswith (strip v) "Z" || endswith (strip v) "z") eqn:E;
    cbn [negb]; [| discriminate].
  intros [= <-].
  assert (Hparsed : forall commands,
            parse (strip v) = Ok commands ->
            create_svg_path scale image_x image_y (strip v)
            = Raise no_close).
  { intros commands Hparse.
    destruct (PathValidatorFacts.parse_ends_closed v commands E Hparse)
      as [front [z [Hz ->]]].
    destruct (clip_path_reads_absolute scale image_x image_y (strip v) _
                Hparse) as [_ Hout].
    replace (existsb is_close
               (front ++ [mkPathCommand (PathValidatorFacts.close_of z) []])%list)
      with true in Hout; [exact Hout |].
    symmetry. rewrite List.existsb_app. apply orb_true_iff. right.
    destruct Hz as [-> | ->]; reflexivity. }
  split; [| exact Hparsed].
  destruct (parse (strip v)) as [commands | e] eqn:Hparse.
  - exists no_close. now apply (Hparsed commands).
  - exists e. unfold create_svg_path. now rewrite Hparse.
Qed.

Lemma closed_clip_path_raises_witness :
  (exists e, create_svg_path 2 10 10 "M 0 0 L 1 0 L 1 1 z" = Raise e)
  /\ (forall commands,
        parse "M 0 0 L 1 0 L 1 1 z" = Ok commands ->
        create_svg_path 2 10 10 "M 0 0 L 1 0 L 1 1 z" = Raise no_close).
Proof.
  apply (closed_clip_path_raises 2 10 10 "  M 0 0 L 1 0 L 1 1 z "
           "M 0 0 L 1 0 L 1 1 z").
  vm_compute. reflexivity.
Defined.

End ClipPathFacts.
